(** * Gateway test doubles of clawdbot: [src/gateway/test-helpers.mocks.ts]

    The file replaces four collaborators of the gateway by test doubles:
    the node bridge server ([startNodeBridgeServer]), the embedded agent run
    tracker ([isEmbeddedPiRunActive], [abortEmbeddedPiRun],
    [waitForEmbeddedPiRunEnd]), and the config module ([parseConfigJson5],
    [validateConfigObject], [writeConfigFile], [readConfigFileSnapshot]).

    Every double is embedded as a function on an explicit state: the mutable
    objects of the module ([embeddedRunMock], [bridgeStartCalls],
    [testState], the file system) are records that are passed in and handed
    back.  The doubles of the bridge and of the embedded run do not suspend
    before they return, so a call is one atomic step and the promise it
    returns is already settled.  The doubles of the config module await
    calls on the file system; a call of one of them is taken as a whole,
    with nothing else at work on the file system in between.

    What the platform decides is kept apart from the module.  The wording
    of an error is the engine's ([Engine]).  Numbers are IEEE doubles and
    objects enumerate their properties as JavaScript does.  Paths are POSIX
    paths, and the file system is a tree of directories and files in which
    a call fails when the tree is in its way; limits of memory, of the
    stack and of the length of a string are not modelled. *)

From Stdlib Require Import ZArith NArith Lia Ascii String.
From stdpp Require Import gmap strings list.

Local Open Scope N_scope.

(** ** JavaScript strings, promises and failures *)

(** A JavaScript string is a sequence of UTF-16 code units. *)
Definition jsstring := list N.

Definition str (s : string) : jsstring :=
  map N_of_ascii (list_ascii_of_string s).

(** A string literal of JSON or JavaScript source: the text between double
    quotes. *)
Definition quoted (s : string) : jsstring := [34] ++ str s ++ [34].

(** Modelled from the spec: the failure kinds of the bridge (section 7,
    error taxonomy).  The mocked module declares none of them and never
    builds one; they are here to state what the spec expects of [invoke]. *)
Inductive bridge_failure :=
  | NodeNotConnected
  | NodeDisconnected
  | RequestTimeout
  | PairingRejected
  | InternalError
  | ServerClosing.

(** What a promise can be rejected with, or a [try] block can catch.  A
    [SystemError] is what a call on the file system fails with; it is kept
    as the text that [String] gives for it. *)
Inductive js_error :=
  | SyntaxError (message : jsstring)
  | RangeError (message : jsstring)
  | BridgeError (kind : bridge_failure)
  | SystemError (text : jsstring).

(** The calls on the file system that the module makes, and the ways in
    which the file tree can be in the way of one. *)
Inductive fs_call :=
  | Access (p : jsstring)
  | ReadFile (p : jsstring)
  | Mkdir (p : jsstring)
  | WriteFile (p : jsstring).

Inductive fs_failure :=
  | InvalidPath
  | NotFound
  | NotADirectory
  | IsADirectory
  | FileExists.

(** What is the platform's own and not fixed by the language: the message
    of the [SyntaxError] that [JSON.parse] throws for a text that is not
    JSON, and what the error of a failed file-system call reads as.  The
    module puts both into strings it returns; every statement below holds
    for whatever the platform says. *)
Class Engine := {
  SyntaxError_message : jsstring → jsstring;
  SystemError_string : fs_call → fs_failure → jsstring;
}.

(** An engine for examples that have to name one; its messages are the
    shortest there are. *)
Definition terse : Engine :=
  {| SyntaxError_message := fun _ => [];
     SystemError_string := fun _ _ => str "Error" |}.

(** The state of a promise once its [async] body has run to its end. *)
Inductive settled (A : Type) :=
  | Fulfilled (value : A)
  | Rejected (reason : js_error).
Arguments Fulfilled {A} value.
Arguments Rejected {A} reason.

(** State passing for the mutable module-level objects. *)
Definition Mock (S A : Type) : Type := S → A * S.

Definition ret {S A} (a : A) : Mock S A := fun s => (a, s).
Definition bind {S A B} (m : Mock S A) (k : A → Mock S B) : Mock S B :=
  fun s => let (a, s') := m s in k a s'.
Definition modify {S} (f : S → S) : Mock S unit := fun s => (tt, f s).
Definition gets {S A} (f : S → A) : Mock S A := fun s => (f s, s).

Notation "'let*' x ':=' m 'in' k" := (bind m (fun x => k))
  (at level 10, x name, m at level 100, k at level 200, only parsing).
Notation "m '>>' k" := (bind m (fun _ => k))
  (at level 100, k at level 200, right associativity, only parsing).

(** ** The embedded run tracker *)

Module EmbeddedRun.

(** [hoisted.embeddedRunMock]: only [has] is used on the [Set] and only [get]
    on the [Map], so insertion order plays no role.  Session ids are only
    compared with each other, so they are kept as [string]. *)
Record embeddedRunMock := {
  activeIds : gset string;
  abortCalls : list string;
  waitCalls : list string;
  waitResults : gmap string bool;
}.

(** The object as the module creates it. *)
Definition initial : embeddedRunMock :=
  {| activeIds := ∅; abortCalls := []; waitCalls := []; waitResults := ∅ |}.

Definition push_abortCall (sessionId : string) (m : embeddedRunMock) :=
  {| activeIds := activeIds m;
     abortCalls := abortCalls m ++ [sessionId];
     waitCalls := waitCalls m;
     waitResults := waitResults m |}.

Definition push_waitCall (sessionId : string) (m : embeddedRunMock) :=
  {| activeIds := activeIds m;
     abortCalls := abortCalls m;
     waitCalls := waitCalls m ++ [sessionId];
     waitResults := waitResults m |}.

(** [activeIds.has(sessionId)] *)
Definition has_active (sessionId : string) (m : embeddedRunMock) : bool :=
  bool_decide (sessionId ∈ activeIds m).

Definition isEmbeddedPiRunActive (sessionId : string)
  : Mock embeddedRunMock bool :=
  gets (has_active sessionId).

Definition abortEmbeddedPiRun (sessionId : string)
  : Mock embeddedRunMock bool :=
  modify (push_abortCall sessionId) >>
  gets (has_active sessionId).

(** [waitResults.get(sessionId) ?? true] *)
Definition waitForEmbeddedPiRunEnd (sessionId : string)
  : Mock embeddedRunMock (settled bool) :=
  modify (push_waitCall sessionId) >>
  let* r := gets (fun m => waitResults m !! sessionId) in
  ret (Fulfilled (default true r)).

(** The three operations as calls, to speak about sequences of them. *)
Inductive call :=
  | IsActive (sessionId : string)
  | Abort (sessionId : string)
  | WaitForEnd (sessionId : string).

Inductive reply :=
  | Answer (b : bool)
  | Promise (p : settled bool).

Definition perform (c : call) : Mock embeddedRunMock reply :=
  match c with
  | IsActive sid => let* b := isEmbeddedPiRunActive sid in ret (Answer b)
  | Abort sid => let* b := abortEmbeddedPiRun sid in ret (Answer b)
  | WaitForEnd sid => let* p := waitForEmbeddedPiRunEnd sid in ret (Promise p)
  end.

Fixpoint perform_all (cs : list call) : Mock embeddedRunMock (list reply) :=
  match cs with
  | [] => ret []
  | c :: cs' =>
      let* r := perform c in
      let* rs := perform_all cs' in
      ret (r :: rs)
  end.

(** What a test does to the exported object between calls: the [Set] and
    [Map] methods on [activeIds] and [waitResults], and the three mocked
    functions. *)
Inductive harness_step :=
  | ActiveIdsAdd (sessionId : string)
  | ActiveIdsDelete (sessionId : string)
  | WaitResultsSet (sessionId : string) (result : bool)
  | Call (c : call).

Definition harness (h : harness_step) (m : embeddedRunMock)
  : embeddedRunMock :=
  match h with
  | ActiveIdsAdd sid =>
      {| activeIds := {[ sid ]} ∪ activeIds m; abortCalls := abortCalls m;
         waitCalls := waitCalls m; waitResults := waitResults m |}
  | ActiveIdsDelete sid =>
      {| activeIds := activeIds m ∖ {[ sid ]}; abortCalls := abortCalls m;
         waitCalls := waitCalls m; waitResults := waitResults m |}
  | WaitResultsSet sid b =>
      {| activeIds := activeIds m; abortCalls := abortCalls m;
         waitCalls := waitCalls m; waitResults := <[ sid := b ]> (waitResults m) |}
  | Call c => snd (perform c m)
  end.

(** The state after a history, and whether [sessionId] was in the active
    set at any point of it (the end included). *)
Fixpoint after (hs : list harness_step) (m : embeddedRunMock)
  : embeddedRunMock :=
  match hs with
  | [] => m
  | h :: hs' => after hs' (harness h m)
  end.

Fixpoint ever_active (sessionId : string) (hs : list harness_step)
    (m : embeddedRunMock) : bool :=
  has_active sessionId m ||
  match hs with
  | [] => false
  | h :: hs' => ever_active sessionId hs' (harness h m)
  end.

(** The object after a test has marked a run as active for [sid] and
    configured nothing else. *)
Definition running (sid : string) : embeddedRunMock :=
  harness (ActiveIdsAdd sid) initial.

(** Whether a history sets a wait result for [sid]. *)
Fixpoint configures (sid : string) (hs : list harness_step) : bool :=
  match hs with
  | [] => false
  | WaitResultsSet sid' _ :: hs' =>
      bool_decide (sid' = sid) || configures sid hs'
  | _ :: hs' => configures sid hs'
  end.

End EmbeddedRun.

(** ** Plain JavaScript data and its JSON text *)

(** A finite JavaScript number, kept as the decimal expansion that
    [Number::toString] prints: the significant digits [d1 .. dk], most
    significant first, and the exponent [n] of the ECMAScript definition, so
    that the value is [0.d1...dk * 10^n].  No digits is zero ([-0] when
    [negative]).  The same record holds the exact value of a number literal
    before it is rounded to a double ([Number_of_decimal] below). *)
Record number := {
  negative : bool;
  digits : list N;
  exponent : Z;
}.

(** Values built from [null], booleans, numbers, strings, arrays and plain
    objects.  An object is the list of its own properties in enumeration
    order.  [JInfinity] is [Infinity] or [-Infinity], which [JSON.parse]
    gives for a literal beyond the doubles; [NaN] is left out, no JSON text
    denotes it. *)
#[local] Unset Elimination Schemes.
Inductive json :=
  | JNull
  | JBool (b : bool)
  | JNumber (x : number)
  | JString (s : jsstring)
  | JArray (elements : list json)
  | JObject (properties : list (jsstring * json))
  | JInfinity (negative : bool).
#[local] Set Elimination Schemes.

(** *** JSON.stringify *)

Definition hex_digit (n : N) : N := if n <? 10 then 48 + n else 87 + n.

(** [UnicodeEscape]: a backslash, [u] and four lowercase hexadecimal digits. *)
Definition UnicodeEscape (c : N) : jsstring :=
  [92; 117; hex_digit (c / 4096 mod 16); hex_digit (c / 256 mod 16);
   hex_digit (c / 16 mod 16); hex_digit (c mod 16)].

Definition is_leading_surrogate (c : N) : bool :=
  (55296 <=? c) && (c <=? 56319).
Definition is_trailing_surrogate (c : N) : bool :=
  (56320 <=? c) && (c <=? 57343).

(** One code unit that is a code point of its own and no surrogate. *)
Definition quote_unit (c : N) : jsstring :=
  if c =? 8 then [92; 98]
  else if c =? 9 then [92; 116]
  else if c =? 10 then [92; 110]
  else if c =? 12 then [92; 102]
  else if c =? 13 then [92; 114]
  else if c =? 34 then [92; 34]
  else if c =? 92 then [92; 92]
  else if c <? 32 then UnicodeEscape c
  else [c].

(** The body of [QuoteJSONString]: the string is read by code points, a
    surrogate pair is copied, a lone surrogate is escaped. *)
Fixpoint quote_units (s : jsstring) : jsstring :=
  match s with
  | [] => []
  | c :: rest =>
      if is_leading_surrogate c then
        match rest with
        | t :: rest' =>
            if is_trailing_surrogate t then c :: t :: quote_units rest'
            else UnicodeEscape c ++ quote_units rest
        | [] => UnicodeEscape c
        end
      else if is_trailing_surrogate c then UnicodeEscape c ++ quote_units rest
      else quote_unit c ++ quote_units rest
  end.

Definition QuoteJSONString (s : jsstring) : jsstring :=
  [34] ++ quote_units s ++ [34].

Definition digit_char (d : N) : N := 48 + d.

(** Decimal digits of a natural number, most significant first; [fuel]
    bounds the number of digits. *)
Fixpoint decimal_digits (fuel : nat) (n : N) : list N :=
  match fuel with
  | O => []
  | S fuel' =>
      if n <? 10 then [n]
      else decimal_digits fuel' (n / 10) ++ [n mod 10]
  end.

Definition decimal (n : N) : jsstring :=
  map digit_char (decimal_digits (S (N.to_nat (N.log2 n))) n).

Definition sign (neg : bool) : jsstring := if neg then [45] else [].

(** [Number::toString] in radix 10, steps 6 to 10 of the definition, with
    [k] the number of digits and [n] the exponent. *)
Definition Number_toString (x : number) : jsstring :=
  match digits x with
  | [] => [48]
  | d :: ds =>
      let k := Z.of_nat (length (digits x)) in
      let n := exponent x in
      let s := map digit_char (digits x) in
      sign (negative x) ++
      (if (k <=? n)%Z && (n <=? 21)%Z then
         s ++ repeat 48 (Z.to_nat (n - k))
       else if (0 <? n)%Z && (n <=? 21)%Z then
         take (Z.to_nat n) s ++ [46] ++ drop (Z.to_nat n) s
       else if (-6 <? n)%Z && (n <=? 0)%Z then
         [48; 46] ++ repeat 48 (Z.to_nat (- n)) ++ s
       else
         [digit_char d]
         ++ match ds with [] => [] | _ :: _ => 46 :: map digit_char ds end
         ++ [101; if (n - 1 <? 0)%Z then 45 else 43]
         ++ decimal (Z.abs_N (n - 1)))
  end.

(** Parts joined by a separator. *)
Definition join (sep : jsstring) (parts : list jsstring) : jsstring :=
  match parts with
  | [] => []
  | p :: ps => p ++ concat (map (fun q => sep ++ q) ps)
  end.

(** The common end of [SerializeJSONArray] and [SerializeJSONObject]: the
    brackets around the parts, on one line when [gap] is empty and one part
    per line at the new indent otherwise. *)
Definition bracket (opening closing : N) (gap stepback indent : jsstring)
    (parts : list jsstring) : jsstring :=
  match parts with
  | [] => [opening; closing]
  | _ :: _ =>
      match gap with
      | [] => [opening] ++ join [44] parts ++ [closing]
      | _ :: _ =>
          [opening; 10] ++ indent ++ join ([44; 10] ++ indent) parts
          ++ [10] ++ stepback ++ [closing]
      end
  end.

Definition colon (gap : jsstring) : jsstring :=
  match gap with [] => [58] | _ :: _ => [58; 32] end.

Fixpoint SerializeJSONProperty (gap indent : jsstring) (v : json) : jsstring :=
  match v with
  | JNull => str "null"
  | JBool true => str "true"
  | JBool false => str "false"
  | JNumber x => Number_toString x
  | JInfinity _ => str "null"
  | JString s => QuoteJSONString s
  | JArray elements =>
      bracket 91 93 gap indent (indent ++ gap)
        (map (SerializeJSONProperty gap (indent ++ gap)) elements)
  | JObject properties =>
      bracket 123 125 gap indent (indent ++ gap)
        (map (fun p => QuoteJSONString (fst p) ++ colon gap
                       ++ SerializeJSONProperty gap (indent ++ gap) (snd p))
             properties)
  end.

(** [JSON.stringify(value, null, space)] with [space] a number or absent:
    the gap is [min 10 space] spaces. *)
Definition JSON_stringify (v : json) (space : option nat) : jsstring :=
  SerializeJSONProperty (repeat 32 (Nat.min 10 (default 0%nat space))) [] v.

(** *** JSON.parse *)

(** The outcome of reading a prefix of a text: the value and the rest of the
    text, or the place where the text stops being JSON.  [OutOfFuel] is the
    recursion bound of the embedding, shown below never to be reached. *)
Inductive parsed (A : Type) :=
  | Parsed (a : A) (rest : jsstring)
  | Unexpected (at_ : jsstring)
  | OutOfFuel.
Arguments Parsed {A} a rest.
Arguments Unexpected {A} at_.
Arguments OutOfFuel {A}.

Definition parsed_map {A B} (f : A → B) (p : parsed A) : parsed B :=
  match p with
  | Parsed a rest => Parsed (f a) rest
  | Unexpected r => Unexpected r
  | OutOfFuel => OutOfFuel
  end.

(** JSON white space: tab, line feed, carriage return, space. *)
Definition is_ws (c : N) : bool :=
  (c =? 9) || (c =? 10) || (c =? 13) || (c =? 32).

Fixpoint skip_ws (s : jsstring) : jsstring :=
  match s with
  | [] => []
  | c :: t => if is_ws c then skip_ws t else s
  end.

Definition is_digit (c : N) : bool := (48 <=? c) && (c <=? 57).

Definition hex_value (c : N) : option N :=
  if is_digit c then Some (c - 48)
  else if (97 <=? c) && (c <=? 102) then Some (c - 87)
  else if (65 <=? c) && (c <=? 70) then Some (c - 55)
  else None.

(** The character a one-letter escape stands for. *)
Definition unescape (e : N) : option N :=
  if e =? 34 then Some 34
  else if e =? 92 then Some 92
  else if e =? 47 then Some 47
  else if e =? 98 then Some 8
  else if e =? 102 then Some 12
  else if e =? 110 then Some 10
  else if e =? 114 then Some 13
  else if e =? 116 then Some 9
  else None.

(** A string literal after its opening quote, up to the closing one. *)
Fixpoint parse_chars (s : jsstring) : parsed jsstring :=
  match s with
  | [] => Unexpected []
  | c :: t =>
      if c =? 34 then Parsed [] t
      else if c =? 92 then
        match t with
        | [] => Unexpected []
        | e :: u =>
            if e =? 117 then
              match u with
              | h1 :: h2 :: h3 :: h4 :: w =>
                  match hex_value h1, hex_value h2, hex_value h3, hex_value h4 with
                  | Some a, Some b, Some c', Some d =>
                      parsed_map (cons (((a * 16 + b) * 16 + c') * 16 + d))
                                 (parse_chars w)
                  | _, _, _, _ => Unexpected u
                  end
              | _ => Unexpected u
              end
            else
              match unescape e with
              | Some x => parsed_map (cons x) (parse_chars u)
              | None => Unexpected t
              end
        end
      else if c <? 32 then Unexpected s
      else parsed_map (cons c) (parse_chars t)
  end.

(** The longest run of decimal digits at the head of a text, as digit
    values. *)
Fixpoint span_digits (s : jsstring) : list N * jsstring :=
  match s with
  | [] => ([], [])
  | c :: t =>
      if is_digit c then
        let (ds, r) := span_digits t in ((c - 48) :: ds, r)
      else ([], s)
  end.

Fixpoint drop_zeros (ds : list N) : list N :=
  match ds with
  | [] => []
  | d :: ds' => if d =? 0 then drop_zeros ds' else ds
  end.

Definition digits_value (ds : list N) : N :=
  fold_left (fun acc d => acc * 10 + d) ds 0.

(** The exact value of a literal: integer digits, fraction digits and the
    power of ten, brought to the form without leading or trailing zero.
    [parse_value] rounds it to a double. *)
Definition make_number (neg : bool) (int frac : list N) (e : Z) : number :=
  let all := int ++ frac in
  let sig := drop_zeros all in
  let lead := (Z.of_nat (length all) - Z.of_nat (length sig))%Z in
  match rev (drop_zeros (rev sig)) with
  | [] => {| negative := neg; digits := []; exponent := 0 |}
  | d :: ds =>
      {| negative := neg; digits := d :: ds;
         exponent := (e + Z.of_nat (length int) - lead)%Z |}
  end.

(** The exponent part of a number literal, if there is one. *)
Definition parse_exponent (neg : bool) (int frac : list N) (s : jsstring)
  : parsed number :=
  match s with
  | c :: t =>
      if (c =? 101) || (c =? 69) then
        let (minus, u) :=
          match t with
          | sg :: t' =>
              if sg =? 45 then (true, t')
              else if sg =? 43 then (false, t')
              else (false, t)
          | [] => (false, t)
          end in
        match span_digits u with
        | ([], _) => Unexpected u
        | (es, r) =>
            let e := Z.of_N (digits_value es) in
            Parsed (make_number neg int frac (if minus then - e else e)%Z) r
        end
      else Parsed (make_number neg int frac 0) s
  | [] => Parsed (make_number neg int frac 0) []
  end.

(** The fraction part of a number literal, if there is one. *)
Definition parse_fraction (neg : bool) (int : list N) (s : jsstring)
  : parsed number :=
  match s with
  | c :: t =>
      if c =? 46 then
        match span_digits t with
        | ([], _) => Unexpected t
        | (fs, r) => parse_exponent neg int fs r
        end
      else parse_exponent neg int [] s
  | [] => parse_exponent neg int [] s
  end.

(** A number literal: minus, then [0] or a digit run without leading zero,
    then fraction and exponent. *)
Definition parse_number (s : jsstring) : parsed number :=
  let (neg, s1) :=
    match s with
    | c :: t => if c =? 45 then (true, t) else (false, s)
    | [] => (false, s)
    end in
  match s1 with
  | [] => Unexpected []
  | c :: t =>
      if c =? 48 then parse_fraction neg [0] t
      else if is_digit c then
        let (ds, r) := span_digits t in parse_fraction neg ((c - 48) :: ds) r
      else Unexpected s1
  end.

(** The rest of a text after a keyword. *)
Fixpoint expect (word s : jsstring) : option jsstring :=
  match word with
  | [] => Some s
  | w :: word' =>
      match s with
      | c :: t => if c =? w then expect word' t else None
      | [] => None
      end
  end.

Definition parse_keyword (word : jsstring) (v : json) (s : jsstring)
  : parsed json :=
  match expect word s with
  | Some rest => Parsed v rest
  | None => Unexpected s
  end.

(** An array index: the decimal text, without a leading zero, of an
    integer below [2^32 - 1]. *)
Definition array_index (key : jsstring) : option N :=
  match key with
  | [] => None
  | c :: t =>
      if forallb is_digit key
         && ((negb (c =? 48)) || bool_decide (t = []))
         && (length key <=? 10)%nat
      then
        let i := digits_value (map (fun c => c - 48) key) in
        if i <? 4294967295 then Some i else None
      else None
  end.

(** The order of [OrdinaryOwnPropertyKeys]: array indices first, in
    ascending order, then the other names in the order of their creation.
    [comes_before key k] says that a new property [key] is enumerated before
    an existing property [k]. *)
Definition comes_before (key k : jsstring) : bool :=
  match array_index key, array_index k with
  | Some i, Some j => i <? j
  | Some _, None => true
  | None, _ => false
  end.

Fixpoint replace_property {A : Type} (key : jsstring) (v : A)
    (props : list (jsstring * A)) : list (jsstring * A) :=
  match props with
  | [] => []
  | (k, w) :: props' =>
      if decide (k = key) then (k, v) :: props'
      else (k, w) :: replace_property key v props'
  end.

Fixpoint insert_property {A : Type} (key : jsstring) (v : A)
    (props : list (jsstring * A)) : list (jsstring * A) :=
  match props with
  | [] => [(key, v)]
  | (k, w) :: props' =>
      if comes_before key k then (key, v) :: (k, w) :: props'
      else (k, w) :: insert_property key v props'
  end.

(** [CreateDataProperty] on an object: a name that is already there keeps
    its place and takes the new value; a new name takes its place in the
    enumeration order. *)
Definition set_property {A : Type} (key : jsstring) (v : A)
    (props : list (jsstring * A)) : list (jsstring * A) :=
  if bool_decide (key ∈ map fst props) then replace_property key v props
  else insert_property key v props.

(** *** Rounding to a double *)

(** The double nearest to [p / q] for positive [p] and [q], ties to the even
    significand: [Some (m, e)] stands for [m * 2^e], with [m] below [2^53]
    and [e] from -1074 to 971, and [m] at least [2^52] unless [e] is
    -1074; [None] is a value beyond the largest double. *)
Definition round_to_double (p q : Z) : option (Z * Z) :=
  let t := (Z.log2 p - Z.log2 q)%Z in
  let above :=
    if (0 <=? t)%Z then (q * 2 ^ t <=? p)%Z else (q <=? p * 2 ^ (- t))%Z in
  let e := Z.max ((if above then t else t - 1) - 52) (-1074) in
  let num := if (0 <=? e)%Z then p else (p * 2 ^ (- e))%Z in
  let den := if (0 <=? e)%Z then (q * 2 ^ e)%Z else q in
  let m0 := (num / den)%Z in
  let r := (num mod den)%Z in
  let m :=
    if (den <? 2 * r)%Z || ((den =? 2 * r)%Z && Z.odd m0)
    then (m0 + 1)%Z else m0 in
  let (m, e) := if (m =? 2 ^ 53)%Z then ((2 ^ 52)%Z, (e + 1)%Z) else (m, e) in
  if (971 <? e)%Z then None else Some (m, e).

(** [m * 2^e] as a fraction. *)
Definition scaled_binary (m e : Z) : Z * Z :=
  if (0 <=? e)%Z then ((m * 2 ^ e)%Z, 1%Z) else (m, (2 ^ (- e))%Z).

(** [s * 10^n] as a fraction. *)
Definition scaled (s n : Z) : Z * Z :=
  if (0 <=? n)%Z then ((s * 10 ^ n)%Z, 1%Z) else (s, (10 ^ (- n))%Z).

Definition rounds_to (s n : Z) (d : Z * Z) : bool :=
  match round_to_double (fst (scaled s n)) (snd (scaled s n)) with
  | Some (m, e) => (m =? fst d)%Z && (e =? snd d)%Z
  | None => false
  end.

(** The [n] with [10^(n-1) ≤ p / q < 10^n]. *)
Definition decimal_exponent (p q : Z) : Z :=
  let t := (Z.of_nat (length (decimal (Z.to_N p)))
            - Z.of_nat (length (decimal (Z.to_N q))))%Z in
  let above :=
    if (0 <=? t)%Z then (q * 10 ^ t <=? p)%Z else (q <=? p * 10 ^ (- t))%Z in
  if above then (t + 1)%Z else t.

(** The integer [s] of [k] digits for which [s * 10^(n-k)] rounds to the
    double [d = p / q], if there is one: it is one of the two next to
    [p / q]; of two that do, the nearer one, and of two as near, the even
    one. *)
Definition digits_for (k n p q : Z) (d : Z * Z) : option Z :=
  let num := (p * snd (scaled 1 (n - k)))%Z in
  let den := (q * fst (scaled 1 (n - k)))%Z in
  let s := (num / den)%Z in
  let r := (num mod den)%Z in
  let lo := rounds_to s (n - k) d in
  let hi := rounds_to (s + 1) (n - k) d in
  if lo && hi then
    Some (if (2 * r <? den)%Z || ((2 * r =? den)%Z && Z.even s)
          then s else (s + 1)%Z)
  else if lo then Some s
  else if hi then Some (s + 1)%Z
  else None.

(** The least number [k] of digits that identifies the double, and the
    digits: step 5 of [Number::toString].  Seventeen digits identify every
    double, so the bound is never used up. *)
Fixpoint shortest_from (fuel : nat) (k n p q : Z) (d : Z * Z) : Z * Z :=
  match fuel with
  | O => ((p * snd (scaled 1 (n - k)) / (q * fst (scaled 1 (n - k))))%Z, k)
  | S fuel' =>
      match digits_for k n p q d with
      | Some s => (s, k)
      | None => shortest_from fuel' (k + 1) n p q d
      end
  end.

(** The double [m * 2^e], not zero, as the decimal that [Number::toString]
    prints.  The integer found can be [10^k], of [k + 1] digits: its zeros
    go and the exponent grows by one. *)
Definition shortest (neg : bool) (m e : Z) : number :=
  let (p, q) := scaled_binary m e in
  let n := decimal_exponent p q in
  let (s, k) := shortest_from 17 1 n p q (m, e) in
  let ds := decimal_digits (S (Z.to_nat (Z.log2 s))) (Z.to_N s) in
  {| negative := neg;
     digits := rev (drop_zeros (rev ds));
     exponent := (n + Z.of_nat (length ds) - k)%Z |}.

(** The value of a number literal: its exact decimal rounded to the nearest
    double.  A literal too small for the doubles gives zero, one too large
    gives an infinity. *)
Definition Number_of_decimal (x : number) : json :=
  match digits x with
  | [] => JNumber x
  | _ :: _ =>
      let k := Z.of_nat (length (digits x)) in
      let (p, q) := scaled (Z.of_N (digits_value (digits x))) (exponent x - k) in
      match round_to_double p q with
      | None => JInfinity (negative x)
      | Some (m, e) =>
          if (m =? 0)%Z
          then JNumber {| negative := negative x; digits := []; exponent := 0 |}
          else JNumber (shortest (negative x) m e)
      end
  end.

(** Values, array elements and object members.  [parse_value] skips the
    white space before the value; the callers skip the white space after
    it.  [parse_elements] and [parse_members] start after the opening
    bracket of a non-empty array or object and carry what was read so far. *)
Fixpoint parse_value (fuel : nat) (s : jsstring) : parsed json :=
  match fuel with
  | O => OutOfFuel
  | S fuel' =>
      match skip_ws s with
      | [] => Unexpected []
      | c :: t =>
          if c =? 123 then
            match skip_ws t with
            | [] => Unexpected []
            | c' :: t' =>
                if c' =? 125 then Parsed (JObject []) t'
                else parse_members fuel' (c' :: t') []
            end
          else if c =? 91 then
            match skip_ws t with
            | [] => Unexpected []
            | c' :: t' =>
                if c' =? 93 then Parsed (JArray []) t'
                else parse_elements fuel' (c' :: t') []
            end
          else if c =? 34 then parsed_map JString (parse_chars t)
          else if c =? 116 then parse_keyword (str "true") (JBool true) (c :: t)
          else if c =? 102 then parse_keyword (str "false") (JBool false) (c :: t)
          else if c =? 110 then parse_keyword (str "null") JNull (c :: t)
          else if (c =? 45) || is_digit c then
            parsed_map Number_of_decimal (parse_number (c :: t))
          else Unexpected (c :: t)
      end
  end
with parse_elements (fuel : nat) (s : jsstring) (acc : list json)
  : parsed json :=
  match fuel with
  | O => OutOfFuel
  | S fuel' =>
      match parse_value fuel' s with
      | Parsed v rest =>
          match skip_ws rest with
          | [] => Unexpected []
          | c :: t =>
              if c =? 44 then parse_elements fuel' t (acc ++ [v])
              else if c =? 93 then Parsed (JArray (acc ++ [v])) t
              else Unexpected (c :: t)
          end
      | Unexpected r => Unexpected r
      | OutOfFuel => OutOfFuel
      end
  end
with parse_members (fuel : nat) (s : jsstring) (acc : list (jsstring * json))
  : parsed json :=
  match fuel with
  | O => OutOfFuel
  | S fuel' =>
      match skip_ws s with
      | [] => Unexpected []
      | q :: t =>
          if q =? 34 then
            match parse_chars t with
            | Parsed key rest =>
                match skip_ws rest with
                | [] => Unexpected []
                | c :: t2 =>
                    if c =? 58 then
                      match parse_value fuel' t2 with
                      | Parsed v rest2 =>
                          match skip_ws rest2 with
                          | [] => Unexpected []
                          | c3 :: t3 =>
                              if c3 =? 44 then
                                parse_members fuel' t3 (set_property key v acc)
                              else if c3 =? 125 then
                                Parsed (JObject (set_property key v acc)) t3
                              else Unexpected (c3 :: t3)
                          end
                      | Unexpected r => Unexpected r
                      | OutOfFuel => OutOfFuel
                      end
                    else Unexpected (c :: t2)
                end
            | Unexpected r => Unexpected r
            | OutOfFuel => OutOfFuel
            end
          else Unexpected (q :: t)
      end
  end.

Definition recursion_limit : js_error :=
  RangeError (str "Maximum call stack size exceeded").

(** [JSON.parse(text)]: one value, white space around it, nothing else.
    For any other text it throws a [SyntaxError] with the engine's
    message. *)
Definition JSON_parse `{Engine} (text : jsstring) : json + js_error :=
  match parse_value (2 * length text + 1) text with
  | Parsed v rest =>
      match skip_ws rest with
      | [] => inl v
      | _ :: _ => inr (SyntaxError (SyntaxError_message text))
      end
  | Unexpected _ => inr (SyntaxError (SyntaxError_message text))
  | OutOfFuel => inr recursion_limit
  end.

(** [Error.prototype.toString]: the name alone when the message is empty,
    otherwise name, colon, message. *)
Definition named (name message : jsstring) : jsstring :=
  match message with
  | [] => name
  | _ :: _ => name ++ str ": " ++ message
  end.

(** [String(err)] for an error object. *)
Definition String_of_error (e : js_error) : jsstring :=
  match e with
  | SyntaxError m => named (str "SyntaxError") m
  | RangeError m => named (str "RangeError") m
  | BridgeError NodeNotConnected => str "Error: NodeNotConnected"
  | BridgeError NodeDisconnected => str "Error: NodeDisconnected"
  | BridgeError RequestTimeout => str "Error: RequestTimeout"
  | BridgeError PairingRejected => str "Error: PairingRejected"
  | BridgeError InternalError => str "Error: InternalError"
  | BridgeError ServerClosing => str "Error: ServerClosing"
  | SystemError text => text
  end.

(** *** Strings on their way through a UTF-8 file *)

(** Writing a string as UTF-8 and reading it back replaces every lone
    surrogate by U+FFFD and keeps everything else. *)
Fixpoint toWellFormed (s : jsstring) : jsstring :=
  match s with
  | [] => []
  | c :: rest =>
      if is_leading_surrogate c then
        match rest with
        | t :: rest' =>
            if is_trailing_surrogate t then c :: t :: toWellFormed rest'
            else 65533 :: toWellFormed rest
        | [] => [65533]
        end
      else if is_trailing_surrogate c then 65533 :: toWellFormed rest
      else c :: toWellFormed rest
  end.

(** [WhiteSpace] and [LineTerminator] of ECMAScript, what [trimEnd] removes. *)
Definition is_js_space (c : N) : bool :=
  ((9 <=? c) && (c <=? 13)) || (c =? 32) || (c =? 160) || (c =? 5760)
  || ((8192 <=? c) && (c <=? 8202)) || (c =? 8232) || (c =? 8233)
  || (c =? 8239) || (c =? 8287) || (c =? 12288) || (c =? 65279).

Fixpoint drop_space (s : jsstring) : jsstring :=
  match s with
  | [] => []
  | c :: t => if is_js_space c then drop_space t else s
  end.

Definition trimEnd (s : jsstring) : jsstring := rev (drop_space (rev s)).

(** ** The node bridge server double *)

Module Bridge.

Record BridgeClientInfo := {
  nodeId : jsstring;
  displayName : option jsstring;
  platform : option jsstring;
  version : option jsstring;
  remoteIp : option jsstring;
  deviceFamily : option jsstring;
  modelIdentifier : option jsstring;
  caps : option (list jsstring);
  commands : option (list jsstring);
}.

Record bridge_event := { event : jsstring; event_payloadJSON : option jsstring }.
Record bridge_request := {
  id : jsstring;
  method : jsstring;
  paramsJSON : option jsstring;
}.

(** The callbacks are stored, never called. *)
Record BridgeStartOpts := {
  onAuthenticated : option (BridgeClientInfo → settled unit);
  onDisconnected : option (BridgeClientInfo → settled unit);
  onPairRequested : option (json → settled unit);
  onEvent : option (jsstring → bridge_event → settled unit);
  onRequest : option (jsstring → bridge_request → settled json);
}.

(** The arguments a caller hands to [invoke]; the double reads none. *)
Record invoke_args := {
  target : jsstring;
  invoke_method : jsstring;
  invoke_paramsJSON : option jsstring;
  timeoutMs : option Z;
}.

(** The hoisted objects of the bridge: the recorded [opts] and, for the
    [vi.fn] spies [bridgeInvoke] and [bridgeSendEvent], the arguments of
    every call.  [bridgeListConnected] takes no argument; how often it was
    called is not kept. *)
Record mocks := {
  bridgeStartCalls : list BridgeStartOpts;
  invokeCalls : list invoke_args;
  sendEventCalls : list (jsstring * bridge_event);
}.

Definition initial : mocks :=
  {| bridgeStartCalls := []; invokeCalls := []; sendEventCalls := [] |}.

(** The object the default implementation of [bridgeInvoke] resolves with. *)
Definition invoke_res : json :=
  JObject
    [(str "type", JString (str "invoke-res"));
     (str "id", JString (str "1"));
     (str "ok", JBool true);
     (str "payloadJSON",
      JString (JSON_stringify (JObject [(str "ok", JBool true)]) None));
     (str "error", JNull)].

Definition bridgeInvoke (args : invoke_args) : Mock mocks (settled json) :=
  modify (fun m => {| bridgeStartCalls := bridgeStartCalls m;
                      invokeCalls := invokeCalls m ++ [args];
                      sendEventCalls := sendEventCalls m |}) >>
  ret (Fulfilled invoke_res).

Definition bridgeListConnected : Mock mocks (list BridgeClientInfo) :=
  ret [].

Definition bridgeSendEvent (node : jsstring) (evt : bridge_event)
  : Mock mocks unit :=
  modify (fun m => {| bridgeStartCalls := bridgeStartCalls m;
                      invokeCalls := invokeCalls m;
                      sendEventCalls := sendEventCalls m ++ [(node, evt)] |}).

(** What [startNodeBridgeServer] resolves with. *)
Record handle := {
  port : Z;
  close : Mock mocks (settled unit);
  listConnected : Mock mocks (list BridgeClientInfo);
  invoke : invoke_args → Mock mocks (settled json);
  sendEvent : jsstring → bridge_event → Mock mocks unit;
}.

Definition startNodeBridgeServer (opts : BridgeStartOpts)
  : Mock mocks (settled handle) :=
  modify (fun m => {| bridgeStartCalls := bridgeStartCalls m ++ [opts];
                      invokeCalls := invokeCalls m;
                      sendEventCalls := sendEventCalls m |}) >>
  ret (Fulfilled {| port := 18790;
                    close := ret (Fulfilled tt);
                    listConnected := bridgeListConnected;
                    invoke := bridgeInvoke;
                    sendEvent := bridgeSendEvent |}).

(** A node has a live connection when [listConnected] reports it. *)
Definition connected (node : jsstring) (m : mocks) : bool :=
  bool_decide (node ∈ map nodeId (fst (bridgeListConnected m))).

(** [close] called [n] times in a row on one handle: the promises of the
    calls and the state they leave. *)
Fixpoint close_times (n : nat) (h : handle) : Mock mocks (list (settled unit)) :=
  match n with
  | O => ret []
  | S n' =>
      let* r := close h in
      let* rs := close_times n' h in
      ret (r :: rs)
  end.

(** The result type of [BridgeStartOpts.onRequest], as a check on values:
    [{ok: true, payloadJSON?: string | null}] or
    [{ok: false, error: {code: string, message: string, details?: unknown}}]. *)
Fixpoint property (key : jsstring) (props : list (jsstring * json))
  : option json :=
  match props with
  | [] => None
  | (k, v) :: props' => if decide (k = key) then Some v else property key props'
  end.

Definition only_keys (allowed : list jsstring) (props : list (jsstring * json))
  : bool :=
  forallb (fun p => bool_decide (fst p ∈ allowed)) props.

Definition is_string (v : json) : bool :=
  match v with JString _ => true | _ => false end.

Definition success_shape (props : list (jsstring * json)) : bool :=
  match property (str "ok") props with Some (JBool true) => true | _ => false end
  && match property (str "payloadJSON") props with
     | None | Some JNull | Some (JString _) => true
     | Some _ => false
     end
  && only_keys [str "ok"; str "payloadJSON"] props.

Definition error_shape (props : list (jsstring * json)) : bool :=
  match property (str "ok") props with Some (JBool false) => true | _ => false end
  && match property (str "error") props with
     | Some (JObject e) =>
         from_option is_string false (property (str "code") e)
         && from_option is_string false (property (str "message") e)
         && only_keys [str "code"; str "message"; str "details"] e
     | _ => false
     end
  && only_keys [str "ok"; str "error"] props.

Definition onRequest_result_shape (v : json) : bool :=
  match v with
  | JObject props => success_shape props || error_shape props
  | _ => false
  end.

End Bridge.

(** ** The config module double *)

Module Config.

Record issue := { issue_path : jsstring; issue_message : jsstring }.

(** The digest [hashConfigRaw] computes, kept symbolic:
    SHA-256 of the given text, in hexadecimal. *)
Inductive digest := sha256_hex (data : jsstring).

(** *** Paths *)

(** Paths are POSIX paths, as [path.posix] treats them.  The pieces of a
    path between its slashes: *)
Fixpoint segments (s : jsstring) : list jsstring :=
  match s with
  | [] => [[]]
  | c :: t =>
      if c =? 47 then [] :: segments t
      else match segments t with
           | seg :: segs => (c :: seg) :: segs
           | [] => [[c]]
           end
  end.

Definition dot : jsstring := [46].
Definition dotdot : jsstring := [46; 46].

(** One step of the normalization: an empty piece and [.] are dropped,
    [..] takes back the piece before it, any other piece is kept.  [stack]
    holds the pieces kept so far, the last one first.  Above the start of a
    relative path ([allowAboveRoot]) a [..] is kept, above the root it is
    dropped. *)
Definition normalize_step (allowAboveRoot : bool) (stack : list jsstring)
    (seg : jsstring) : list jsstring :=
  if bool_decide (seg = []) || bool_decide (seg = dot) then stack
  else if bool_decide (seg = dotdot) then
    match stack with
    | top :: under =>
        if bool_decide (top = dotdot) then dotdot :: stack else under
    | [] => if allowAboveRoot then [dotdot] else []
    end
  else seg :: stack.

Definition normalize_segments (allowAboveRoot : bool) (segs : list jsstring)
  : list jsstring :=
  rev (fold_left (normalize_step allowAboveRoot) segs []).

(** [path.normalize] *)
Definition path_normalize (p : jsstring) : jsstring :=
  match p with
  | [] => dot
  | c :: _ =>
      let isAbsolute := c =? 47 in
      let trailingSeparator := bool_decide (last p = Some 47) in
      match normalize_segments (negb isAbsolute) (segments p) with
      | [] =>
          if isAbsolute then [47]
          else if trailingSeparator then [46; 47] else dot
      | segs =>
          (if isAbsolute then [47] else [])
          ++ join [47] segs
          ++ (if trailingSeparator then [47] else [])
      end
  end.

(** [path.join(root, name)]: the parts that are not empty, with a slash
    between them, normalized. *)
Definition path_join (root name : jsstring) : jsstring :=
  path_normalize
    match root, name with
    | [], _ => name
    | _, [] => root
    | _, _ => root ++ [47] ++ name
    end.

Fixpoint drop_slashes (s : jsstring) : jsstring :=
  match s with
  | [] => []
  | c :: t => if c =? 47 then drop_slashes t else s
  end.

(** What follows the first slash of a text, if it has one. *)
Fixpoint after_slash (s : jsstring) : option jsstring :=
  match s with
  | [] => None
  | c :: t => if c =? 47 then Some t else after_slash t
  end.

(** [path.dirname]: the path up to the last slash that has something but
    slashes after it; the first character is not looked at. *)
Definition path_dirname (p : jsstring) : jsstring :=
  match p with
  | [] => dot
  | c :: body =>
      match after_slash (drop_slashes (rev body)) with
      | Some before =>
          if (c =? 47) && bool_decide (before = []) then [47; 47]
          else c :: rev before
      | None => if c =? 47 then [47] else dot
      end
  end.

(** *** The file system *)

(** A tree of directories and files of text, by the names from the root.
    The model covers what the shape of the tree decides: a call fails when
    a name is missing, or when a file is where a directory is needed, or a
    directory where a file is.  It takes a file system with names compared
    unit by unit and without links, and a process that is alone on it and
    allowed everything: no failure for want of permission, space or a
    shorter name.  [cwd] is the working directory that relative paths start
    from. *)
Inductive node := Dir | File (text : jsstring).

(** The fields of [testState] that the snapshot reads ([legacyParsed] may
    have been set to [undefined] or [null]), the config root, the file
    system, and the calls that the [vi.fn] around [writeConfigFile] has
    recorded. *)
Record world := {
  testConfigRoot : jsstring;
  legacyIssues : list issue;
  legacyParsed : option json;
  cwd : list jsstring;
  tree : gmap (list jsstring) node;
  writeConfigFileCalls : list json;
}.

Definition with_tree (t : gmap (list jsstring) node) (w : world) : world :=
  {| testConfigRoot := testConfigRoot w; legacyIssues := legacyIssues w;
     legacyParsed := legacyParsed w; cwd := cwd w; tree := t;
     writeConfigFileCalls := writeConfigFileCalls w |}.

(** A path that no call accepts: one with a NUL in it is refused before the
    file system is asked, the empty path names nothing. *)
Definition path_failure (p : jsstring) : option fs_failure :=
  if bool_decide (0 ∈ p) then Some InvalidPath
  else if bool_decide (p = []) then Some NotFound
  else None.

(** The names from the root that a path stands for: those of the working
    directory, unless the path starts at the root, and then its own.  A
    name reaches the file system as UTF-8, so a lone surrogate in it is
    U+FFFD there.  The paths that the module hands to the file system come
    from [path.join] and [path.dirname], so a [..] is left only at the
    start of a relative path, where it leaves the working directory or one
    above it. *)
Definition resolve (cwd : list jsstring) (p : jsstring) : list jsstring :=
  normalize_segments false
    ((if bool_decide (head p = Some 47) then [] else cwd)
     ++ map toWellFormed (segments p)).

(** The root is a directory. *)
Definition node_at (t : gmap (list jsstring) node) (key : list jsstring)
  : option node :=
  match key with
  | [] => Some Dir
  | _ :: _ => t !! key
  end.

Definition is_file (t : gmap (list jsstring) node) (key : list jsstring)
  : bool :=
  match node_at t key with
  | Some (File _) => true
  | _ => false
  end.

(** The directories on the way to [key], [key] being the last. *)
Fixpoint prefixes (key : list jsstring) : list (list jsstring) :=
  match key with
  | [] => []
  | seg :: key' => [seg] :: map (cons seg) (prefixes key')
  end.

(** A name like any other: not empty, no slash in it, neither [.] nor
    [..]; and what the normalization keeps of a path: pieces that are not
    empty and have no slash. *)
Definition plain_name (name : jsstring) : Prop :=
  name ≠ [] ∧ (47 ∉ name) ∧ name ≠ dot ∧ name ≠ dotdot.

Definition kept (seg : jsstring) : Prop := seg ≠ [] ∧ (47 ∉ seg).

(** Why there is nothing at [key]: a file on the way to it, or a name that
    is missing. *)
Definition missing (t : gmap (list jsstring) node) (key : list jsstring)
  : fs_failure :=
  if existsb (is_file t) (prefixes (removelast key)) then NotADirectory
  else NotFound.

(** The tree with directories at the given places. *)
Definition with_dirs (dirs : list (list jsstring))
    (t : gmap (list jsstring) node) : gmap (list jsstring) node :=
  foldr (fun k t => <[ k := Dir ]> t) t dirs.

Section WithEngine.
Context {engine : Engine}.

(** [fs.mkdir(p, {recursive: true})]: every directory on the way is made
    unless it is there; a file in the way makes it fail. *)
Definition fs_mkdir (p : jsstring) : Mock world (settled unit) :=
  fun w =>
    let failed f :=
      (Rejected (SystemError (SystemError_string (Mkdir p) f)), w) in
    match path_failure p with
    | Some f => failed f
    | None =>
        let key := resolve (cwd w) p in
        if is_file (tree w) key then failed FileExists
        else if existsb (is_file (tree w)) (prefixes key)
        then failed NotADirectory
        else
          (Fulfilled tt, with_tree (with_dirs (prefixes key) (tree w)) w)
    end.

(** [fs.writeFile(p, data, "utf-8")]: the directory of the file has to be
    there, and no directory where the file goes. *)
Definition fs_writeFile (p data : jsstring) : Mock world (settled unit) :=
  fun w =>
    let failed f :=
      (Rejected (SystemError (SystemError_string (WriteFile p) f)), w) in
    match path_failure p with
    | Some f => failed f
    | None =>
        let key := resolve (cwd w) p in
        match node_at (tree w) (removelast key) with
        | None => failed (missing (tree w) key)
        | Some (File _) => failed NotADirectory
        | Some Dir =>
            match node_at (tree w) key with
            | Some Dir => failed IsADirectory
            | _ =>
                (Fulfilled tt,
                 with_tree (<[ key := File (toWellFormed data) ]> (tree w)) w)
            end
        end
    end.

(** [fs.access(p)]: whether there is something at the path. *)
Definition fs_access (p : jsstring) : Mock world bool :=
  gets (fun w =>
    match path_failure p with
    | Some _ => false
    | None => bool_decide (is_Some (node_at (tree w) (resolve (cwd w) p)))
    end).

(** [fs.readFile(p, "utf-8")]: the text of the file, or why there is
    none. *)
Definition fs_readFile (p : jsstring) : Mock world (jsstring + fs_failure) :=
  gets (fun w =>
    match path_failure p with
    | Some f => inr f
    | None =>
        match node_at (tree w) (resolve (cwd w) p) with
        | Some (File text) => inl text
        | Some Dir => inr IsADirectory
        | None => inr (missing (tree w) (resolve (cwd w) p))
        end
    end).

End WithEngine.

Definition resolveConfigPath (w : world) : jsstring :=
  path_join (testConfigRoot w) (str "clawdbot.json").

Definition hashConfigRaw (raw : option jsstring) : digest :=
  sha256_hex (default [] raw).

Record ConfigFileSnapshot := {
  path : jsstring;
  exists_ : bool;
  raw : option jsstring;
  parsed : json;
  valid : bool;
  config : json;
  hash : digest;
  issues : list issue;
  snapshot_legacyIssues : list issue;
}.

(** The call that the [vi.fn] around [writeConfigFile] records. *)
Definition record_call (cfg : json) : Mock world unit :=
  modify (fun w =>
    {| testConfigRoot := testConfigRoot w; legacyIssues := legacyIssues w;
       legacyParsed := legacyParsed w; cwd := cwd w; tree := tree w;
       writeConfigFileCalls := writeConfigFileCalls w ++ [cfg] |}).

(** [testState.legacyParsed ?? {}] *)
Definition legacy_or_empty (legacy : option json) : json :=
  match legacy with
  | None | Some JNull => JObject []
  | Some v => v
  end.

Section WithEngine.
Context {engine : Engine}.

(** The promise is rejected with what the first failing call is rejected
    with; the file is written only after the directory was made. *)
Definition writeConfigFile (cfg : json) : Mock world (settled unit) :=
  record_call cfg >>
  let* configPath := gets resolveConfigPath in
  let* made := fs_mkdir (path_dirname configPath) in
  match made with
  | Rejected e => ret (Rejected e)
  | Fulfilled _ =>
      let raw := trimEnd (JSON_stringify cfg (Some 2%nat)) ++ [10] in
      fs_writeFile configPath raw
  end.

Definition readConfigFileSnapshot : Mock world (settled ConfigFileSnapshot) :=
  let* w := gets (fun w => w) in
  let configPath := resolveConfigPath w in
  match legacyIssues w with
  | _ :: _ =>
      let raw := JSON_stringify (legacy_or_empty (legacyParsed w)) None in
      ret (Fulfilled
        {| path := configPath; exists_ := true; raw := Some raw;
           parsed := legacy_or_empty (legacyParsed w); valid := false;
           config := JObject [];
           hash := hashConfigRaw (Some raw);
           issues := map (fun i => {| issue_path := issue_path i;
                                      issue_message := issue_message i |})
                         (legacyIssues w);
           snapshot_legacyIssues := legacyIssues w |})
  | [] =>
      let failed (err : jsstring) :=
        {| path := configPath; exists_ := true; raw := None;
           parsed := JObject []; valid := false; config := JObject [];
           hash := hashConfigRaw None;
           issues := [{| issue_path := [];
                         issue_message := str "read failed: " ++ err |}];
           snapshot_legacyIssues := [] |} in
      let* found := fs_access configPath in
      if negb found then
        ret (Fulfilled
          {| path := configPath; exists_ := false; raw := None;
             parsed := JObject []; valid := true; config := JObject [];
             hash := hashConfigRaw None; issues := [];
             snapshot_legacyIssues := [] |})
      else
        let* read := fs_readFile configPath in
        match read with
        | inl raw =>
            match JSON_parse raw with
            | inl parsed =>
                ret (Fulfilled
                  {| path := configPath; exists_ := true; raw := Some raw;
                     parsed := parsed; valid := true; config := parsed;
                     hash := hashConfigRaw (Some raw); issues := [];
                     snapshot_legacyIssues := [] |})
            | inr err => ret (Fulfilled (failed (String_of_error err)))
            end
        | inr f =>
            ret (Fulfilled
                   (failed (SystemError_string (ReadFile configPath) f)))
        end
  end.

End WithEngine.

(** The two results of [parseConfigJson5]. *)
Inductive ParseResult :=
  | ParseOk (parsed : json)
  | ParseFailed (error : jsstring).

Definition parse_ok (r : ParseResult) : bool :=
  match r with ParseOk _ => true | ParseFailed _ => false end.

(** [try { JSON.parse(raw) } catch (err) { String(err) }]: whatever the
    parser throws ends in the second result. *)
Definition parseConfigJson5 `{Engine} (raw : jsstring) : ParseResult :=
  match JSON_parse raw with
  | inl parsed => ParseOk parsed
  | inr err => ParseFailed (String_of_error err)
  end.

(** [validateConfigObject] takes [unknown]: any type of input. *)
Record ValidationResult (A : Type) := {
  ok : bool;
  validated_config : A;
  validation_issues : list issue;
}.
Arguments ok {A} _.
Arguments validated_config {A} _.
Arguments validation_issues {A} _.

Definition validateConfigObject {A : Type} (parsed : A) : ValidationResult A :=
  {| ok := true; validated_config := parsed; validation_issues := [] |}.

End Config.

(** ** JSON-serializable values *)

(** What may follow a value inside a JSON text: white space, a comma, a
    closing bracket, or the end of the text. *)
Definition is_delimiter (c : N) : bool :=
  is_ws c || (c =? 44) || (c =? 93) || (c =? 125).

Definition delimited (rest : jsstring) : bool :=
  match rest with
  | [] => true
  | c :: _ => is_delimiter c
  end.

Definition no_digit_ahead (rest : jsstring) : bool :=
  match rest with
  | [] => true
  | c :: _ => negb (is_digit c)
  end.

Definition is_decimal_digit (d : N) : bool := d <? 10.

(** A number in the form [Number::toString] starts from: digits below ten,
    neither a leading nor a trailing zero, and zero written without digits,
    exponent or sign ([-0] prints as [0] and does not come back). *)
Definition canonical (x : number) : bool :=
  forallb is_decimal_digit (digits x)
  && match digits x with
     | [] => (exponent x =? 0)%Z && negb (negative x)
     | d :: _ => negb (d =? 0) && negb (bool_decide (last (digits x) = Some 0))
     end.

Definition keys (props : list (jsstring * json)) : list jsstring :=
  map fst props.

(** Names in the order in which an object enumerates them: each one comes
    after those before it. *)
Fixpoint enumeration_order (names : list jsstring) : Prop :=
  match names with
  | [] => True
  | k :: names' =>
      Forall (fun k' => comes_before k' k = false) names'
      ∧ enumeration_order names'
  end.

(** The values that [JSON.stringify] writes without loss.  A number is a
    double in the form [Number::toString] starts from: reading its decimal
    gives the number back; neither [-0] nor an infinity is one.  An object
    has no property name twice and its properties in enumeration order, as
    every JavaScript object has them. *)
Fixpoint serializable (v : json) : Prop :=
  match v with
  | JNull | JBool _ | JString _ => True
  | JNumber x => canonical x = true ∧ Number_of_decimal x = JNumber x
  | JInfinity _ => False
  | JArray elements => foldr (fun e P => serializable e ∧ P) True elements
  | JObject properties =>
      NoDup (keys properties) ∧ enumeration_order (keys properties)
      ∧ foldr (fun p P => serializable (snd p) ∧ P) True properties
  end.

(** A text of JSON white space only. *)
Definition all_ws (w : jsstring) : Prop := Forall (λ c, is_ws c = true) w.

(** What a value starts with: no white space and no closing bracket. *)
Definition starts_value (s : jsstring) : Prop :=
  match s with
  | [] => False
  | c :: _ => is_ws c = false ∧ c ≠ 93 ∧ c ≠ 125
  end.

(** [text] is read as [v] by some recursion bound, whatever delimiter
    follows it. *)
Definition reads (text : jsstring) (v : json) : Prop :=
  ∀ rest, delimited rest = true →
    ∃ fuel, parse_value fuel (text ++ rest) = Parsed v rest.

(** A text that passes through a UTF-8 file unchanged, whatever follows. *)
Definition survives (s : jsstring) : Prop :=
  ∀ t, toWellFormed (s ++ t) = s ++ toWellFormed t.

(** ** The JSON grammar *)

(** The grammar of ECMA-404, as relations between a text and the value it
    denotes: a number literal denotes the double nearest to its decimal, an
    object the properties of its members in enumeration order.  This is
    what "valid JSON" means; [JSON_parse] above is compared with it
    below. *)

(** The characters of a string between its quotes. *)
Inductive string_body : jsstring → jsstring → Prop :=
  | body_end : string_body [] []
  | body_char (c : N) (t s : jsstring) :
      c ≠ 34 → c ≠ 92 → 32 ≤ c →
      string_body t s → string_body (c :: t) (c :: s)
  | body_escape (e x : N) (t s : jsstring) :
      unescape e = Some x →
      string_body t s → string_body (92 :: e :: t) (x :: s)
  | body_unicode (h1 h2 h3 h4 a b c d : N) (t s : jsstring) :
      hex_value h1 = Some a → hex_value h2 = Some b →
      hex_value h3 = Some c → hex_value h4 = Some d →
      string_body t s →
      string_body (92 :: 117 :: h1 :: h2 :: h3 :: h4 :: t)
                  ((((a * 16 + b) * 16 + c) * 16 + d) :: s).

(** One decimal digit or more. *)
Definition digit_run (ds : list N) : Prop :=
  ds ≠ [] ∧ Forall (λ d, d < 10) ds.

Inductive fraction_text : jsstring → list N → Prop :=
  | fraction_none : fraction_text [] []
  | fraction_some (fs : list N) :
      digit_run fs → fraction_text (46 :: map digit_char fs) fs.

Inductive exponent_sign := NoSign | PlusSign | MinusSign.

Definition sign_text (sg : exponent_sign) : jsstring :=
  match sg with NoSign => [] | PlusSign => [43] | MinusSign => [45] end.

Definition signed (sg : exponent_sign) (n : N) : Z :=
  match sg with MinusSign => - Z.of_N n | _ => Z.of_N n end.

Inductive exponent_text : jsstring → Z → Prop :=
  | exponent_none : exponent_text [] 0
  | exponent_some (e : N) (sg : exponent_sign) (es : list N) :
      e = 101 ∨ e = 69 → digit_run es →
      exponent_text (e :: sign_text sg ++ map digit_char es)
                    (signed sg (digits_value es)).

(** A number: an optional minus, an integer part that is [0] or starts with
    another digit, an optional fraction, an optional exponent. *)
Inductive number_literal : jsstring → number → Prop :=
  | number_lit (neg : bool) (int frac : list N) (ftext etext : jsstring)
      (e : Z) :
      digit_run int → int = [0] ∨ head int ≠ Some 0 →
      fraction_text ftext frac → exponent_text etext e →
      number_literal (sign neg ++ map digit_char int ++ ftext ++ etext)
                     (make_number neg int frac e).

(** Values, the elements between the brackets of an array and the members
    between the braces of an object.  The members are defined on the object
    in the order of the text, starting from [acc]. *)
Inductive value_text : jsstring → json → Prop :=
  | text_null : value_text (str "null") JNull
  | text_true : value_text (str "true") (JBool true)
  | text_false : value_text (str "false") (JBool false)
  | text_number (lit : jsstring) (x : number) :
      number_literal lit x → value_text lit (Number_of_decimal x)
  | text_string (t s : jsstring) :
      string_body t s → value_text (34 :: t ++ [34]) (JString s)
  | text_array_empty (w : jsstring) :
      all_ws w → value_text (91 :: w ++ [93]) (JArray [])
  | text_array (body : jsstring) (l : list json) :
      elements_text body l → value_text (91 :: body ++ [93]) (JArray l)
  | text_object_empty (w : jsstring) :
      all_ws w → value_text (123 :: w ++ [125]) (JObject [])
  | text_object (body : jsstring) (ps : list (jsstring * json)) :
      members_text body [] ps → value_text (123 :: body ++ [125]) (JObject ps)
with elements_text : jsstring → list json → Prop :=
  | elements_last (w1 t w2 : jsstring) (v : json) :
      all_ws w1 → value_text t v → all_ws w2 →
      elements_text (w1 ++ t ++ w2) [v]
  | elements_more (w1 t w2 body : jsstring) (v : json) (l : list json) :
      all_ws w1 → value_text t v → all_ws w2 → elements_text body l →
      elements_text (w1 ++ t ++ w2 ++ 44 :: body) (v :: l)
with members_text
  : jsstring → list (jsstring * json) → list (jsstring * json) → Prop :=
  | members_last (w1 k w2 w3 t w4 key : jsstring) (v : json)
      (acc : list (jsstring * json)) :
      all_ws w1 → string_body k key → all_ws w2 → all_ws w3 →
      value_text t v → all_ws w4 →
      members_text (w1 ++ 34 :: k ++ 34 :: w2 ++ 58 :: w3 ++ t ++ w4)
                   acc (set_property key v acc)
  | members_more (w1 k w2 w3 t w4 body key : jsstring) (v : json)
      (acc ps : list (jsstring * json)) :
      all_ws w1 → string_body k key → all_ws w2 → all_ws w3 →
      value_text t v → all_ws w4 →
      members_text body (set_property key v acc) ps →
      members_text
        (w1 ++ 34 :: k ++ 34 :: w2 ++ 58 :: w3 ++ t ++ w4 ++ 44 :: body)
        acc ps.

Scheme value_text_mut := Minimality for value_text Sort Prop
  with elements_text_mut := Minimality for elements_text Sort Prop
  with members_text_mut := Minimality for members_text Sort Prop.

Combined Scheme json_text_mutind
  from value_text_mut, elements_text_mut, members_text_mut.

(** A JSON text: one value with white space around it. *)
Definition JSONText (raw : jsstring) (v : json) : Prop :=
  ∃ w1 t w2, raw = w1 ++ t ++ w2 ∧ all_ws w1 ∧ all_ws w2 ∧ value_text t v.

(** ** Sequences of calls on the doubles *)

(** The session ids of the [abort] calls and of the [waitForEnd] calls of a
    sequence, in call order. *)
Fixpoint aborted (cs : list EmbeddedRun.call) : list string :=
  match cs with
  | [] => []
  | EmbeddedRun.Abort sid :: cs' => sid :: aborted cs'
  | _ :: cs' => aborted cs'
  end.

Fixpoint awaited (cs : list EmbeddedRun.call) : list string :=
  match cs with
  | [] => []
  | EmbeddedRun.WaitForEnd sid :: cs' => sid :: awaited cs'
  | _ :: cs' => awaited cs'
  end.

(** The calls of the mocked functions in a history of the harness. *)
Fixpoint calls_of (hs : list EmbeddedRun.harness_step)
  : list EmbeddedRun.call :=
  match hs with
  | [] => []
  | EmbeddedRun.Call c :: hs' => c :: calls_of hs'
  | _ :: hs' => calls_of hs'
  end.

(** [writeConfigFile] called once per element of a list. *)
Fixpoint write_all `{Engine} (cfgs : list json)
  : Mock Config.world (list (settled unit)) :=
  match cfgs with
  | [] => ret []
  | cfg :: cfgs' =>
      let* r := Config.writeConfigFile cfg in
      let* rs := write_all cfgs' in
      ret (r :: rs)
  end.

Module BridgeCalls.
Import Bridge.

(** [startNodeBridgeServer] called once per element of a list. *)
Fixpoint start_all (optss : list BridgeStartOpts)
  : Mock mocks (list (settled handle)) :=
  match optss with
  | [] => ret []
  | opts :: optss' =>
      let* h := startNodeBridgeServer opts in
      let* hs := start_all optss' in
      ret (h :: hs)
  end.

(** A call of one of the functions of a handle, and what it returns. *)
Inductive handle_call :=
  | Invoke (args : invoke_args)
  | SendEvent (node : jsstring) (evt : bridge_event)
  | ListConnected
  | Close.

Inductive handle_reply :=
  | Invoked (p : settled json)
  | Sent
  | Listed (nodes : list BridgeClientInfo)
  | Closed (p : settled unit).

Definition call_on (h : handle) (c : handle_call) : Mock mocks handle_reply :=
  match c with
  | Invoke args => let* p := invoke h args in ret (Invoked p)
  | SendEvent node evt => sendEvent h node evt >> ret Sent
  | ListConnected => let* l := listConnected h in ret (Listed l)
  | Close => let* p := close h in ret (Closed p)
  end.

(** Calls in a row, each on a handle of its own choice. *)
Fixpoint call_all (cs : list (handle * handle_call))
  : Mock mocks (list handle_reply) :=
  match cs with
  | [] => ret []
  | (h, c) :: cs' =>
      let* r := call_on h c in
      let* rs := call_all cs' in
      ret (r :: rs)
  end.

(** What a call adds to the two spy logs, and the reply the doubles give. *)
Fixpoint invoked (cs : list (handle * handle_call)) : list invoke_args :=
  match cs with
  | [] => []
  | (_, Invoke args) :: cs' => args :: invoked cs'
  | _ :: cs' => invoked cs'
  end.

Fixpoint sent (cs : list (handle * handle_call))
  : list (jsstring * bridge_event) :=
  match cs with
  | [] => []
  | (_, SendEvent node evt) :: cs' => (node, evt) :: sent cs'
  | _ :: cs' => sent cs'
  end.

Definition stock_reply (c : handle_call) : handle_reply :=
  match c with
  | Invoke _ => Invoked (Fulfilled invoke_res)
  | SendEvent _ _ => Sent
  | ListConnected => Listed []
  | Close => Closed (Fulfilled tt)
  end.

(** A handle that some call of [startNodeBridgeServer] resolved with. *)
Definition started (h : handle) : Prop :=
  ∃ opts m, fst (startNodeBridgeServer opts m) = Fulfilled h.

End BridgeCalls.

(** ** The pi SDK double *)

Module PiSdk.

Record model := {
  id : jsstring;
  name : option jsstring;
  provider : jsstring;
  contextWindow : option number;
  reasoning : option bool;
}.

(** [hoisted.piSdkMock]; the call counter stays far below 2^53, where
    [+= 1] is exact. *)
Record piSdkMock := {
  enabled : bool;
  discoverCalls : N;
  models : list model;
}.

(** The double of [discoverModels]: [actual] is the function of the real
    package, which the double hands its arguments to when it is not enabled. *)
Definition discoverModels {Args Result : Type} (actual : Args → Result)
    (args : Args) : Mock piSdkMock (Result + list model) :=
  let* m := gets (fun m => m) in
  if negb (enabled m) then ret (inl (actual args))
  else
    modify (fun m => {| enabled := enabled m;
                        discoverCalls := discoverCalls m + 1;
                        models := models m |}) >>
    let* l := gets models in
    ret (inr l).

Fixpoint discover_all {Args Result : Type} (actual : Args → Result)
    (argss : list Args) : Mock piSdkMock (list (Result + list model)) :=
  match argss with
  | [] => ret []
  | args :: argss' =>
      let* r := discoverModels actual args in
      let* rs := discover_all actual argss' in
      ret (r :: rs)
  end.

End PiSdk.

(** ** The config root and the process environment *)

Module Process.
Import Config.

(** What a string is once it has been the value of an environment
    variable: the variable holds UTF-8 up to the first NUL. *)
Fixpoint until_nul (s : jsstring) : jsstring :=
  match s with
  | [] => []
  | c :: t => if c =? 0 then [] else c :: until_nul t
  end.

Definition env_value (s : jsstring) : jsstring := until_nul (toWellFormed s).

(** The config state together with the one environment variable that
    [setTestConfigRoot] writes. *)
Record process := {
  CLAWDBOT_CONFIG_PATH : option jsstring;
  config_state : world;
}.

Definition with_root (root : jsstring) (w : world) : world :=
  {| testConfigRoot := root; legacyIssues := legacyIssues w;
     legacyParsed := legacyParsed w; cwd := cwd w; tree := tree w;
     writeConfigFileCalls := writeConfigFileCalls w |}.

Definition setTestConfigRoot (root : jsstring) : Mock process unit :=
  modify (fun p =>
    {| CLAWDBOT_CONFIG_PATH :=
         Some (env_value (path_join root (str "clawdbot.json")));
       config_state := with_root root (config_state p) |}).

(** A function of the config double, run on the config part of the
    process. *)
Definition on_config {A : Type} (f : Mock world A) : Mock process A :=
  fun p =>
    let (a, w) := f (config_state p) in
    (a, {| CLAWDBOT_CONFIG_PATH := CLAWDBOT_CONFIG_PATH p;
           config_state := w |}).

(** The getters [CONFIG_PATH_CLAWDBOT] and [STATE_DIR_CLAWDBOT] of the
    mocked module. *)
Definition CONFIG_PATH_CLAWDBOT : Mock process jsstring :=
  on_config (gets resolveConfigPath).

Definition STATE_DIR_CLAWDBOT : Mock process jsstring :=
  on_config (gets (fun w => path_dirname (resolveConfigPath w))).

End Process.

(** ** loadConfig *)

Module LoadConfig.

(** Plain objects with values of any kind: [set_property] above is
    [o[key] = v] and a property of an object literal, [lookup_key] is
    [o[key]], [spread] is [{...target, ...src}]. *)
Fixpoint lookup_key {A : Type} (key : jsstring) (o : list (jsstring * A))
  : option A :=
  match o with
  | [] => None
  | (k, v) :: o' => if decide (k = key) then Some v else lookup_key key o'
  end.

Definition spread {A : Type} (target src : list (jsstring * A))
  : list (jsstring * A) :=
  fold_left (fun acc p => set_property (fst p) (snd p) acc) src target.

Inductive gateway_bind := BindAuto | BindLan | BindTailnet | BindLoopback.

Definition bind_name (b : gateway_bind) : jsstring :=
  match b with
  | BindAuto => str "auto"
  | BindLan => str "lan"
  | BindTailnet => str "tailnet"
  | BindLoopback => str "loopback"
  end.

(** [testState]: a field that is [undefined] is [None]; the values inside
    the records are plain data. *)
Record testState := {
  agentConfig : option (list (jsstring * json));
  agentsConfig : option (list (jsstring * json));
  bindingsConfig : option (list (list (jsstring * json)));
  channelsConfig : option (list (jsstring * json));
  sessionStorePath : option jsstring;
  sessionConfig : option (list (jsstring * json));
  allowFrom : option (list jsstring);
  cronStorePath : option jsstring;
  cronEnabled : option bool;
  gatewayBind : option gateway_bind;
  gatewayAuth : option (list (jsstring * json));
  hooksConfig : option (list (jsstring * json));
  canvasHostPort : option number;
  legacyIssues : list Config.issue;
  legacyParsed : option json;
  migrationConfig : option (list (jsstring * json));
  migrationChanges : list jsstring;
}.

(** [testState] as the module creates it. *)
Definition initial : testState :=
  {| agentConfig := None; agentsConfig := None; bindingsConfig := None;
     channelsConfig := None; sessionStorePath := None; sessionConfig := None;
     allowFrom := None; cronStorePath := None; cronEnabled := Some false;
     gatewayBind := None; gatewayAuth := None; hooksConfig := None;
     canvasHostPort := None; legacyIssues := []; legacyParsed := Some (JObject []);
     migrationConfig := None; migrationChanges := [] |}.

(** The object [loadConfig] builds: eight properties that are always there,
    some of them possibly [undefined]; in [session], [store] can be
    [undefined] too. *)
Record base_config := {
  agents : list (jsstring * json);
  bindings : option (list (list (jsstring * json)));
  channels : list (jsstring * json);
  session : list (jsstring * option json);
  gateway : option (list (jsstring * json));
  canvasHost : option (list (jsstring * json));
  hooks : option (list (jsstring * json));
  cron : option (list (jsstring * json));
}.

(** [Object.keys(o).length > 0 ? o : undefined] *)
Definition unless_empty {A : Type} (o : list (jsstring * A))
  : option (list (jsstring * A)) :=
  match o with [] => None | _ :: _ => Some o end.

(** [{ model, workspace, ...testState.agentConfig }]; [tmpdir] is
    [os.tmpdir()]. *)
Definition agent_defaults (tmpdir : jsstring) (st : testState)
  : list (jsstring * json) :=
  spread
    [(str "model", JString (str "anthropic/claude-opus-4-5"));
     (str "workspace",
      JString (Config.path_join tmpdir (str "clawd-gateway-test")))]
    (default [] (agentConfig st)).

Definition base_agents (tmpdir : jsstring) (st : testState)
  : list (jsstring * json) :=
  let defaults := JObject (agent_defaults tmpdir st) in
  match agentsConfig st with
  | Some a => set_property (str "defaults") defaults (spread [] a)
  | None => [(str "defaults", defaults)]
  end.

(** [existing && typeof existing === "object" && !Array.isArray(existing)]
    holds for objects only: [null] is not truthy. *)
Definition base_channels (st : testState) : list (jsstring * json) :=
  let baseChannels :=
    match channelsConfig st with
    | Some c => spread [] c
    | None => []
    end in
  let mergedWhatsApp :=
    match lookup_key (str "whatsapp") baseChannels with
    | Some (JObject existing) => spread [] existing
    | _ => []
    end in
  let mergedWhatsApp :=
    match allowFrom st with
    | Some l => set_property (str "allowFrom") (JArray (map JString l)) mergedWhatsApp
    | None => mergedWhatsApp
    end in
  set_property (str "whatsapp") (JObject mergedWhatsApp) baseChannels.

Definition base_session (st : testState) : list (jsstring * option json) :=
  spread
    [(str "mainKey", Some (JString (str "main")));
     (str "store", option_map JString (sessionStorePath st))]
    (map (fun p => (fst p, Some (snd p))) (default [] (sessionConfig st))).

Definition base_gateway (st : testState) : option (list (jsstring * json)) :=
  let gateway := [] in
  let gateway :=
    match gatewayBind st with
    | Some b => set_property (str "bind") (JString (bind_name b)) gateway
    | None => gateway
    end in
  let gateway :=
    match gatewayAuth st with
    | Some a => set_property (str "auth") (JObject a) gateway
    | None => gateway
    end in
  unless_empty gateway.

Definition base_canvasHost (st : testState)
  : option (list (jsstring * json)) :=
  let canvasHost := [] in
  let canvasHost :=
    match canvasHostPort st with
    | Some port => set_property (str "port") (JNumber port) canvasHost
    | None => canvasHost
    end in
  unless_empty canvasHost.

Definition base_cron (st : testState) : option (list (jsstring * json)) :=
  let cron := [] in
  let cron :=
    match cronEnabled st with
    | Some b => set_property (str "enabled") (JBool b) cron
    | None => cron
    end in
  let cron :=
    match cronStorePath st with
    | Some p => set_property (str "store") (JString p) cron
    | None => cron
    end in
  unless_empty cron.

Definition base (tmpdir : jsstring) (st : testState) : base_config :=
  {| agents := base_agents tmpdir st;
     bindings := bindingsConfig st;
     channels := base_channels st;
     session := base_session st;
     gateway := base_gateway st;
     canvasHost := base_canvasHost st;
     hooks := hooksConfig st;
     cron := base_cron st |}.

(** [loadConfig]: [applyPluginAutoEnable] is imported from another module
    and is a parameter here; it is given [base] and its [config] is
    returned. *)
Definition loadConfig {C : Type} (applyPluginAutoEnable : base_config → C)
    (tmpdir : jsstring) (st : testState) : C :=
  applyPluginAutoEnable (base tmpdir st).

(** [migrateLegacyConfig(raw)]:
    [{config: testState.migrationConfig ?? raw, changes: testState.migrationChanges}]. *)
Definition migrateLegacyConfig (st : testState) (raw : list (jsstring * json))
  : list (jsstring * json) * list jsstring :=
  (default raw (migrationConfig st), migrationChanges st).

End LoadConfig.

(** * Properties *)

(** ** The embedded run tracker *)

Section EmbeddedRunFacts.
Import EmbeddedRun.

Lemma has_active_true (sid : string) (m : embeddedRunMock) :
  has_active sid m = true ↔ sid ∈ activeIds m.
Proof. unfold has_active. apply bool_decide_eq_true. Qed.

Lemma has_active_false (sid : string) (m : embeddedRunMock) :
  has_active sid m = false ↔ sid ∉ activeIds m.
Proof. unfold has_active. apply bool_decide_eq_false. Qed.

Lemma abort_result (sid : string) (m : embeddedRunMock) :
  fst (abortEmbeddedPiRun sid m) = has_active sid m.
Proof. reflexivity. Qed.

(** No call touches the active set or the configured results. *)
Lemma perform_keeps (c : call) (m : embeddedRunMock) :
  activeIds (snd (perform c m)) = activeIds m
  ∧ waitResults (snd (perform c m)) = waitResults m.
Proof. destruct c; split; reflexivity. Qed.

Lemma perform_all_cons (c : call) (cs : list call) (m : embeddedRunMock) :
  perform_all (c :: cs) m
  = (fst (perform c m) :: fst (perform_all cs (snd (perform c m))),
     snd (perform_all cs (snd (perform c m)))).
Proof.
  cbn [perform_all]. unfold bind, ret.
  destruct (perform c m) as [r m1]. cbn [fst snd].
  destruct (perform_all cs m1) as [rs m2]. reflexivity.
Qed.

Lemma perform_all_keeps (cs : list call) (m : embeddedRunMock) :
  activeIds (snd (perform_all cs m)) = activeIds m
  ∧ waitResults (snd (perform_all cs m)) = waitResults m.
Proof.
  revert m. induction cs as [|c cs IH]; intros m; [by split|].
  rewrite perform_all_cons. cbn [snd].
  destruct (IH (snd (perform c m))) as [-> ->]. apply perform_keeps.
Qed.

(** The reply to a call depends on the active set and the configured
    results only. *)
Lemma perform_reply (c : call) (m m' : embeddedRunMock) :
  activeIds m = activeIds m' → waitResults m = waitResults m' →
  fst (perform c m) = fst (perform c m').
Proof.
  intros Ha Hw.
  destruct c; cbn; unfold has_active; cbn [activeIds push_abortCall];
    rewrite ?Ha, ?Hw; reflexivity.
Qed.

Lemma perform_all_replies (cs : list call) (m m' : embeddedRunMock) :
  activeIds m = activeIds m' → waitResults m = waitResults m' →
  fst (perform_all cs m) = fst (perform_all cs m').
Proof.
  revert m m'. induction cs as [|c cs IH]; intros m m' Ha Hw; [reflexivity|].
  rewrite !perform_all_cons. cbn [fst].
  rewrite (perform_reply c m m' Ha Hw). f_equal.
  destruct (perform_keeps c m) as [Ha1 Hw1].
  destruct (perform_keeps c m') as [Ha2 Hw2].
  apply IH; congruence.
Qed.

(** A history that never configures a result for [sid] leaves none. *)
Lemma after_unconfigured (sid : string) (hs : list harness_step)
    (m : embeddedRunMock) :
  configures sid hs = false → waitResults m !! sid = None →
  waitResults (after hs m) !! sid = None.
Proof.
  revert m. induction hs as [|h hs IH]; intros m Hc Hm; [exact Hm|].
  cbn [after]. destruct h as [s|s|s b|c]; cbn [configures] in Hc.
  - apply IH; [exact Hc|exact Hm].
  - apply IH; [exact Hc|exact Hm].
  - apply orb_false_iff in Hc as [Hs Hc]. apply bool_decide_eq_false in Hs.
    apply IH; [exact Hc|]. cbn. rewrite lookup_insert_ne; [exact Hm|exact Hs].
  - apply IH; [exact Hc|]. cbn [harness].
    destruct (perform_keeps c m) as [_ ->]. exact Hm.
Qed.

(** Steps that set no result for [sid] leave its entry as it is. *)
Lemma after_keeps_result (sid : string) (hs : list harness_step)
    (m : embeddedRunMock) :
  configures sid hs = false →
  waitResults (after hs m) !! sid = waitResults m !! sid.
Proof.
  revert m. induction hs as [|h hs IH]; intros m Hc; [done|].
  cbn [after]. destruct h as [s|s|s b|c]; cbn [configures] in Hc.
  - by rewrite IH.
  - by rewrite IH.
  - apply orb_false_iff in Hc as [Hs Hc]. apply bool_decide_eq_false in Hs.
    rewrite IH by done. cbn. by rewrite lookup_insert_ne.
  - rewrite IH by done. cbn [harness].
    by destruct (perform_keeps c m) as [_ ->].
Qed.

Lemma after_app (hs hs' : list harness_step) (m : embeddedRunMock) :
  after (hs ++ hs') m = after hs' (after hs m).
Proof. revert m. induction hs as [|h hs IH]; intros m; [done|]. apply IH. Qed.

End EmbeddedRunFacts.

Section EmbeddedRunClaims.
Import EmbeddedRun.

(** C2, as the code has it: when a run is active for a session, [abort]
    returns true, and [waitForEnd] for that session, called before or after
    the abort, resolves with the result configured for it in [waitResults]
    and with true when none is configured; the abort has no part in it. *)
Theorem abort_active_wait_configured (m : embeddedRunMock) (sid : string) :
  sid ∈ activeIds m →
  fst (abortEmbeddedPiRun sid m) = true
  ∧ fst (waitForEmbeddedPiRunEnd sid (snd (abortEmbeddedPiRun sid m)))
    = Fulfilled (default true (waitResults m !! sid))
  ∧ fst (waitForEmbeddedPiRunEnd sid m)
    = Fulfilled (default true (waitResults m !! sid))
  ∧ fst (abortEmbeddedPiRun sid (snd (waitForEmbeddedPiRunEnd sid m))) = true.
Proof.
  intros Hin. repeat split.
  - cbn. by apply has_active_true.
  - cbn. unfold has_active. cbn [activeIds push_waitCall].
    by apply bool_decide_eq_true.
Qed.

Lemma abort_active_wait_configured_witness :
  "s1" ∈ activeIds (harness (WaitResultsSet "s1" false) (running "s1"))
  ∧ fst (waitForEmbeddedPiRunEnd "s1"
           (snd (abortEmbeddedPiRun "s1"
                   (harness (WaitResultsSet "s1" false) (running "s1")))))
    = Fulfilled false.
Proof.
  assert (H : "s1" ∈ activeIds (harness (WaitResultsSet "s1" false) (running "s1")))
    by (cbn; set_solver).
  split; [exact H|].
  destruct (abort_active_wait_configured _ "s1" H) as (_ & Hw & _).
  rewrite Hw. cbn. rewrite lookup_insert_eq. reflexivity.
Defined.

(** C2 fails as stated: a run is active for "s1" and nothing else is
    configured; [abort] returns true, yet [waitForEnd], after the abort as
    well as before it, resolves with true. *)
Lemma abort_then_wait_resolves_true :
  "s1" ∈ activeIds (running "s1")
  ∧ fst (abortEmbeddedPiRun "s1" (running "s1")) = true
  ∧ fst (waitForEmbeddedPiRunEnd "s1" (snd (abortEmbeddedPiRun "s1" (running "s1"))))
    = Fulfilled true
  ∧ fst (waitForEmbeddedPiRunEnd "s1" (running "s1")) = Fulfilled true
  ∧ fst (waitForEmbeddedPiRunEnd "s1" (snd (abortEmbeddedPiRun "s1" (running "s1"))))
    ≠ Fulfilled false.
Proof.
  split; [cbn; set_solver|].
  split; [cbn; apply has_active_true; cbn; set_solver|].
  repeat split; discriminate.
Qed.

(** C3, as the code has it: [waitForEnd] resolves with the entry of the
    session in [waitResults], and with true when there is none; the active
    set plays no part.  So it resolves with true for every session that has
    no entry, whether or not a run is or was active for it, in particular
    after any history that never sets a result for the session; and after
    any history in which the test has set a result for the session it
    resolves with the result set last, whether or not a run was ever active
    for it. *)
Theorem wait_unconfigured_true (m : embeddedRunMock) (sid : string) :
  fst (waitForEmbeddedPiRunEnd sid m)
  = Fulfilled (default true (waitResults m !! sid))
  ∧ (waitResults m !! sid = None →
     fst (waitForEmbeddedPiRunEnd sid m) = Fulfilled true
     ∧ ∀ hs, configures sid hs = false →
         fst (waitForEmbeddedPiRunEnd sid (after hs m)) = Fulfilled true)
  ∧ (∀ b, waitResults m !! sid = Some b →
       fst (waitForEmbeddedPiRunEnd sid m) = Fulfilled b)
  ∧ (∀ hs b hs', configures sid hs' = false →
       fst (waitForEmbeddedPiRunEnd sid
              (after (hs ++ WaitResultsSet sid b :: hs') m))
       = Fulfilled b).
Proof.
  split; [reflexivity|]. split; [|split].
  - intros Hm. split.
    + cbn. rewrite Hm. reflexivity.
    + intros hs Hc. cbn. rewrite (after_unconfigured sid hs m Hc Hm).
      reflexivity.
  - intros b Hm. cbn. rewrite Hm. reflexivity.
  - intros hs b hs' Hc. rewrite after_app. cbn [after].
    unfold waitForEmbeddedPiRunEnd, bind, modify, gets, ret. cbn [fst snd].
    unfold push_waitCall at 1. cbn [waitResults].
    rewrite (after_keeps_result sid hs' _ Hc). cbn [harness waitResults].
    by rewrite lookup_insert_eq.
Qed.

Lemma wait_unconfigured_true_witness :
  fst (waitForEmbeddedPiRunEnd "s1" (running "s1")) = Fulfilled true.
Proof.
  destruct (wait_unconfigured_true (running "s1") "s1") as (_ & H & _).
  by apply H.
Defined.

(** C3 fails as stated: from the initial object a test sets the wait result
    of "s9" to false; no run is or ever was active for "s9", and
    [waitForEnd] resolves with false. *)
Lemma wait_never_active_resolves_false :
  ever_active "s9" [WaitResultsSet "s9" false] initial = false
  ∧ fst (waitForEmbeddedPiRunEnd "s9" (after [WaitResultsSet "s9" false] initial))
    = Fulfilled false.
Proof.
  split.
  - cbn. unfold has_active. cbn.
    rewrite !bool_decide_eq_false_2 by set_solver. reflexivity.
  - cbn. rewrite lookup_insert_eq. reflexivity.
Qed.

(** C4, as the code has it: [abort] returns true exactly when the session
    is in the active set; for a session that is not, it returns false and
    leaves the active set, the configured results and the wait log as they
    were, so that every later sequence of [isActive], [abort] and
    [waitForEnd] calls is answered as without it; what it does change is
    the [abortCalls] log, which gains the session id. *)
Theorem abort_inactive_only_logs (m : embeddedRunMock) (sid : string) :
  (fst (abortEmbeddedPiRun sid m) = true ↔ sid ∈ activeIds m)
  ∧ (sid ∉ activeIds m →
     fst (abortEmbeddedPiRun sid m) = false
     ∧ activeIds (snd (abortEmbeddedPiRun sid m)) = activeIds m
     ∧ waitResults (snd (abortEmbeddedPiRun sid m)) = waitResults m
     ∧ waitCalls (snd (abortEmbeddedPiRun sid m)) = waitCalls m
     ∧ abortCalls (snd (abortEmbeddedPiRun sid m)) = abortCalls m ++ [sid]
     ∧ ∀ cs, fst (perform_all cs (snd (abortEmbeddedPiRun sid m)))
             = fst (perform_all cs m)).
Proof.
  split.
  - rewrite abort_result. apply has_active_true.
  - intros Hout. split; [rewrite abort_result; by apply has_active_false|].
    repeat split. intros cs. by apply perform_all_replies.
Qed.

Lemma abort_inactive_only_logs_witness :
  ("s1" ∉ activeIds initial)
  ∧ fst (abortEmbeddedPiRun "s1" initial) = false
  ∧ fst (perform_all [IsActive "s1"; WaitForEnd "s1"]
           (snd (abortEmbeddedPiRun "s1" initial)))
    = fst (perform_all [IsActive "s1"; WaitForEnd "s1"] initial).
Proof.
  assert (H : "s1" ∉ activeIds initial) by (cbn; set_solver).
  split; [exact H|].
  destruct (abort_inactive_only_logs initial "s1") as [_ Hno].
  destruct (Hno H) as (Hret & _ & _ & _ & _ & Hobs).
  split; [exact Hret|apply Hobs].
Defined.

(** C4 fails as stated: no run is active for "s1" in the initial object;
    [abort] returns false, but the object is not what it was: [abortCalls]
    now holds "s1". *)
Lemma abort_inactive_changes_log :
  ("s1" ∉ activeIds initial)
  ∧ fst (abortEmbeddedPiRun "s1" initial) = false
  ∧ abortCalls (snd (abortEmbeddedPiRun "s1" initial)) = ["s1"]
  ∧ snd (abortEmbeddedPiRun "s1" initial) ≠ initial.
Proof.
  split; [cbn; set_solver|]. repeat split. discriminate.
Qed.

(** C5, as the code has it: [isActive] reports membership in [activeIds],
    and no call of [isActive], [abort] or [waitForEnd] changes that set: the
    answer of [isActive] after any sequence of calls is the answer before
    it.  A session leaves the set only when a test deletes it from
    [activeIds], and then [isActive] returns false. *)
Theorem calls_keep_active (m : embeddedRunMock) (sid : string)
    (cs : list call) :
  fst (isEmbeddedPiRunActive sid (snd (perform_all cs m)))
  = fst (isEmbeddedPiRunActive sid m)
  ∧ (fst (isEmbeddedPiRunActive sid m) = true ↔ sid ∈ activeIds m)
  ∧ fst (isEmbeddedPiRunActive sid (harness (ActiveIdsDelete sid) m)) = false.
Proof.
  split; [|split].
  - cbn. unfold has_active.
    destruct (perform_all_keeps cs m) as [-> _]. reflexivity.
  - cbn. apply has_active_true.
  - cbn. apply has_active_false. cbn.
    intros [_ Hn]%elem_of_difference. by apply Hn, elem_of_singleton.
Qed.

(** C5 fails as stated: a run is active for "s1"; [abort] returns true,
    [waitForEnd] resolves, which is how a caller learns that the run has
    ended, and [isActive] still returns true. *)
Lemma aborted_run_stays_active :
  fst (abortEmbeddedPiRun "s1" (running "s1")) = true
  ∧ fst (perform_all [Abort "s1"; WaitForEnd "s1"] (running "s1"))
    = [Answer true; Promise (Fulfilled true)]
  ∧ fst (isEmbeddedPiRunActive "s1"
           (snd (perform_all [Abort "s1"; WaitForEnd "s1"] (running "s1"))))
    = true.
Proof.
  assert (H : has_active "s1" (running "s1") = true)
    by (apply has_active_true; cbn; set_solver).
  split; [exact H|]. split; [|exact H].
  rewrite !perform_all_cons. cbn [fst snd perform_all ret].
  change (fst (perform (Abort "s1") (running "s1")))
    with (Answer (has_active "s1" (running "s1"))).
  rewrite H. reflexivity.
Qed.

End EmbeddedRunClaims.

(** ** The node bridge server double *)

Section BridgeClaims.
Import Bridge.

Lemma start_resolves (opts : BridgeStartOpts) (m : mocks) :
  ∃ h, fst (startNodeBridgeServer opts m) = Fulfilled h
       ∧ invoke h = bridgeInvoke
       ∧ listConnected h = bridgeListConnected
       ∧ close h = ret (Fulfilled tt).
Proof. eexists. repeat split. Qed.

Lemma close_times_spec (n : nat) (h : handle) (m : mocks) :
  close h = ret (Fulfilled tt) →
  close_times n h m = (repeat (Fulfilled tt) n, m).
Proof.
  intros Hc. induction n as [|n IH]; [reflexivity|].
  cbn [close_times repeat]. unfold bind. rewrite Hc. cbn [ret].
  rewrite IH. reflexivity.
Qed.

(** C1, as the code has it: [invoke] on the handle of the bridge double
    resolves with the fixed success object for every node id, also when
    [listConnected] reports no such node (it reports none at all); the call
    is never rejected, with [NodeNotConnected] or anything else. *)
Theorem invoke_always_resolves (opts : BridgeStartOpts) (m : mocks) :
  ∃ h, fst (startNodeBridgeServer opts m) = Fulfilled h
       ∧ ∀ args m', connected (target args) m' = false
                    ∧ fst (invoke h args m') = Fulfilled invoke_res.
Proof.
  destruct (start_resolves opts m) as (h & Hs & Hi & _).
  exists h. split; [exact Hs|]. intros args m'. rewrite Hi. split; reflexivity.
Qed.

(** C1 fails as stated: no node was ever connected, and [invoke] for node
    "N2" resolves with the success object instead of being rejected with
    [NodeNotConnected]. *)
Lemma invoke_unconnected_resolves :
  let args := {| target := str "N2"; invoke_method := str "ping";
                 invoke_paramsJSON := Some (str "{}"); timeoutMs := Some 1000%Z |} in
  connected (str "N2") initial = false
  ∧ fst (bridgeInvoke args initial) = Fulfilled invoke_res
  ∧ fst (bridgeInvoke args initial) ≠ Rejected (BridgeError NodeNotConnected).
Proof. repeat split. discriminate. Qed.

(** C6: [close] on the handle of the bridge double is idempotent: every
    call of a run of calls is fulfilled, and one call or more leave the
    state one call leaves, which is the state before.  A call does not
    suspend, so calls that overlap in time run one after the other. *)
Theorem close_idempotent (opts : BridgeStartOpts) (m : mocks) :
  ∃ h, fst (startNodeBridgeServer opts m) = Fulfilled h
       ∧ ∀ n m', fst (close_times n h m') = repeat (Fulfilled tt) n
                 ∧ snd (close_times (S n) h m') = snd (close_times 1 h m')
                 ∧ snd (close_times 2 h m') = snd (close_times 1 h m')
                 ∧ snd (close_times 1 h m') = m'.
Proof.
  destruct (start_resolves opts m) as (h & Hs & _ & _ & Hc).
  exists h. split; [exact Hs|]. intros n m'.
  rewrite !(close_times_spec _ h m' Hc). repeat split.
Qed.

(** C7, as the code has it: the value [invoke] resolves with has the fields
    [ok: true] and [payloadJSON], a string, of the success result of
    [onRequest], and three more: [type: "invoke-res"], [id: "1"] and
    [error: null].  Without the three it has the success shape. *)
Theorem invoke_result_fields (args : invoke_args) (m : mocks) :
  ∃ props,
    fst (bridgeInvoke args m) = Fulfilled (JObject props)
    ∧ map fst props
      = [str "type"; str "id"; str "ok"; str "payloadJSON"; str "error"]
    ∧ property (str "ok") props = Some (JBool true)
    ∧ property (str "payloadJSON") props
      = Some (JString (str "{" ++ quoted "ok" ++ str ":true}"))
    ∧ property (str "type") props = Some (JString (str "invoke-res"))
    ∧ property (str "id") props = Some (JString (str "1"))
    ∧ property (str "error") props = Some JNull
    ∧ success_shape
        (filter (fun p => fst p ∈ [str "ok"; str "payloadJSON"]) props) = true.
Proof.
  eexists. split; [reflexivity|]. repeat split; vm_compute; reflexivity.
Qed.

(** C7 fails as stated: the value [invoke] resolves with is no result of
    the shape [onRequest] returns, because of its fields [type], [id] and
    [error]. *)
Lemma invoke_result_has_other_fields :
  let args := {| target := str "N1"; invoke_method := str "ping";
                 invoke_paramsJSON := Some (str "{}"); timeoutMs := Some 1000%Z |} in
  fst (bridgeInvoke args initial) = Fulfilled invoke_res
  ∧ onRequest_result_shape invoke_res = false
  ∧ ∃ props,
      invoke_res = JObject props
      ∧ property (str "type") props = Some (JString (str "invoke-res"))
      ∧ only_keys [str "ok"; str "payloadJSON"] props = false
      ∧ only_keys [str "ok"; str "error"] props = false.
Proof. repeat split. eexists. repeat split. Qed.

End BridgeClaims.

(** ** JSON text: strings *)

Lemma andb_leb_true (a b c : N) : a ≤ b → b ≤ c → (a <=? b) && (b <=? c) = true.
Proof. intros. apply andb_true_iff; split; by apply N.leb_le. Qed.

Lemma andb_leb_false (a b c : N) : b < a ∨ c < b → (a <=? b) && (b <=? c) = false.
Proof. intros [H|H]; apply andb_false_iff; [left|right]; by apply N.leb_gt. Qed.

Lemma hex_value_digit (n : N) : n < 16 → hex_value (hex_digit n) = Some n.
Proof.
  intros Hn. unfold hex_value, hex_digit, is_digit.
  destruct (N.ltb_spec n 10).
  - rewrite andb_leb_true by lia. f_equal. lia.
  - rewrite andb_leb_false by lia. rewrite andb_leb_true by lia. f_equal. lia.
Qed.

Lemma hex_reassemble (c : N) :
  c < 65536 →
  ((c / 4096 mod 16 * 16 + c / 256 mod 16) * 16 + c / 16 mod 16) * 16 + c mod 16 = c.
Proof. intros H. zify. Z.to_euclidean_division_equations. lia. Qed.

Lemma parse_chars_close (t : jsstring) : parse_chars (34 :: t) = Parsed [] t.
Proof. reflexivity. Qed.

Lemma parse_chars_plain (c : N) (t : jsstring) :
  c ≠ 34 → c ≠ 92 → 32 ≤ c →
  parse_chars (c :: t) = parsed_map (cons c) (parse_chars t).
Proof.
  intros H1 H2 H3. cbn [parse_chars].
  rewrite (proj2 (N.eqb_neq c 34) H1), (proj2 (N.eqb_neq c 92) H2).
  rewrite (proj2 (N.ltb_ge c 32) H3). reflexivity.
Qed.

Lemma parse_chars_escape (e x : N) (u : jsstring) :
  e ≠ 117 → unescape e = Some x →
  parse_chars (92 :: e :: u) = parsed_map (cons x) (parse_chars u).
Proof.
  intros H1 H2. cbn [parse_chars].
  change (92 =? 34) with false. change (92 =? 92) with true. cbv iota.
  rewrite (proj2 (N.eqb_neq e 117) H1), H2. reflexivity.
Qed.

Lemma parse_chars_UnicodeEscape (c : N) (w : jsstring) :
  c < 65536 →
  parse_chars (UnicodeEscape c ++ w) = parsed_map (cons c) (parse_chars w).
Proof.
  intros Hc. unfold UnicodeEscape. cbn [app parse_chars].
  change (92 =? 34) with false. change (92 =? 92) with true.
  change (117 =? 117) with true. cbv iota.
  assert (Hm : ∀ x, x mod 16 < 16) by (intros; apply N.mod_lt; lia).
  rewrite !hex_value_digit by apply Hm. rewrite hex_reassemble by exact Hc.
  reflexivity.
Qed.

Lemma parse_chars_quote_unit (c : N) (w : jsstring) :
  is_leading_surrogate c = false → is_trailing_surrogate c = false →
  parse_chars (quote_unit c ++ w) = parsed_map (cons c) (parse_chars w).
Proof.
  intros _ _. unfold quote_unit.
  repeat match goal with
  | |- context [if ?x =? ?k then _ else _] =>
      destruct (N.eqb_spec x k) as [->|?]; [reflexivity|]
  end.
  destruct (N.ltb_spec c 32).
  - apply parse_chars_UnicodeEscape. lia.
  - cbn [app]. by apply parse_chars_plain.
Qed.

Lemma surrogate_plain (c : N) :
  is_leading_surrogate c || is_trailing_surrogate c = true →
  c ≠ 34 ∧ c ≠ 92 ∧ 32 ≤ c ∧ c < 65536.
Proof.
  unfold is_leading_surrogate, is_trailing_surrogate.
  rewrite orb_true_iff, !andb_true_iff, !N.leb_le. lia.
Qed.

Lemma parse_chars_quote_units (s rest : jsstring) :
  parse_chars (quote_units s ++ 34 :: rest) = Parsed s rest.
Proof.
  remember (length s) as n eqn:Hn.
  revert s Hn. induction n as [n IH] using lt_wf_ind. intros s Hn.
  destruct s as [|c s]; [reflexivity|].
  cbn [quote_units].
  destruct (is_leading_surrogate c) eqn:Hl.
  - destruct (surrogate_plain c) as (H1 & H2 & H3 & H4); [by rewrite Hl|].
    destruct s as [|t s].
    + rewrite parse_chars_UnicodeEscape by exact H4. reflexivity.
    + destruct (is_trailing_surrogate t) eqn:Ht.
      * destruct (surrogate_plain t) as (T1 & T2 & T3 & T4);
          [by rewrite Ht, orb_true_r|].
        cbn [app]. rewrite parse_chars_plain by assumption.
        rewrite parse_chars_plain by assumption.
        rewrite (IH (length s)) by (cbn in Hn; done || lia). reflexivity.
      * rewrite <- app_assoc, parse_chars_UnicodeEscape by exact H4.
        rewrite (IH (length (t :: s))) by (cbn in *; done || lia). reflexivity.
  - destruct (is_trailing_surrogate c) eqn:Ht.
    + destruct (surrogate_plain c) as (H1 & H2 & H3 & H4);
        [by rewrite Ht, orb_true_r|].
      rewrite <- app_assoc, parse_chars_UnicodeEscape by exact H4.
      rewrite (IH (length s)) by (cbn in *; done || lia). reflexivity.
    + rewrite <- app_assoc, parse_chars_quote_unit by assumption.
      rewrite (IH (length s)) by (cbn in *; done || lia). reflexivity.
Qed.

(** ** JSON text: numbers *)

Lemma is_digit_digit_char (d : N) : d < 10 → is_digit (digit_char d) = true.
Proof. intros. unfold is_digit, digit_char. apply andb_leb_true; lia. Qed.

Lemma digit_char_value (d : N) : digit_char d - 48 = d.
Proof. unfold digit_char. lia. Qed.

Lemma span_digits_stop (rest : jsstring) :
  no_digit_ahead rest = true → span_digits rest = ([], rest).
Proof.
  destruct rest as [|c t]; [reflexivity|]. cbn. intros H.
  by rewrite (negb_true_iff _) in H; rewrite H.
Qed.

Lemma span_digits_digits (ds : list N) (rest : jsstring) :
  Forall (λ d, d < 10) ds → no_digit_ahead rest = true →
  span_digits (map digit_char ds ++ rest) = (ds, rest).
Proof.
  intros Hds Hrest. induction Hds as [|d ds Hd _ IH].
  - by apply span_digits_stop.
  - cbn [map app span_digits]. rewrite is_digit_digit_char by exact Hd.
    rewrite IH, digit_char_value. reflexivity.
Qed.

Lemma digits_value_snoc (ds : list N) (d : N) :
  digits_value (ds ++ [d]) = digits_value ds * 10 + d.
Proof. unfold digits_value. rewrite fold_left_app. reflexivity. Qed.

Lemma decimal_digits_spec (fuel : nat) (n : N) :
  n < 2 ^ N.of_nat (S fuel) →
  digits_value (decimal_digits (S fuel) n) = n
  ∧ Forall (λ d, d < 10) (decimal_digits (S fuel) n)
  ∧ decimal_digits (S fuel) n ≠ [].
Proof.
  revert n. induction fuel as [|fuel IH]; intros n Hn.
  - change (2 ^ N.of_nat 1) with 2 in Hn. cbn [decimal_digits].
    rewrite (proj2 (N.ltb_lt n 10)) by lia.
    split; [reflexivity|]. split; [by constructor; [lia|]|discriminate].
  - remember (S fuel) as f eqn:Hf. cbn [decimal_digits].
    destruct (N.ltb_spec n 10) as [Hlt|Hge].
    + split; [reflexivity|]. split; [by constructor|discriminate].
    + assert (Hq : n / 10 < 2 ^ N.of_nat f).
      { rewrite Nat2N.inj_succ, N.pow_succ_r' in Hn.
        zify. Z.to_euclidean_division_equations. lia. }
      subst f. destruct (IH _ Hq) as (Hv & Hd & Hne). split; [|split].
      * rewrite digits_value_snoc, Hv.
        zify. Z.to_euclidean_division_equations. lia.
      * apply Forall_app. split; [exact Hd|].
        repeat constructor. apply N.mod_lt. lia.
      * intros Heq. by apply app_eq_nil in Heq as [_ ?].
Qed.

Lemma decimal_fuel (n : N) : n < 2 ^ N.of_nat (S (N.to_nat (N.log2 n))).
Proof.
  rewrite Nat2N.inj_succ, N2Nat.id.
  destruct (N.eq_dec n 0) as [->|Hn]; [reflexivity|].
  apply N.log2_spec. lia.
Qed.

Lemma span_digits_decimal (n : N) (rest : jsstring) :
  no_digit_ahead rest = true →
  ∃ es, span_digits (decimal n ++ rest) = (es, rest)
        ∧ es ≠ [] ∧ digits_value es = n.
Proof.
  intros Hrest. unfold decimal.
  destruct (decimal_digits_spec _ n (decimal_fuel n)) as (Hv & Hf & Hne).
  eexists. split; [by apply span_digits_digits|]. by split.
Qed.

Lemma drop_zeros_repeat (a : nat) (l : list N) :
  drop_zeros (repeat 0 a ++ l) = drop_zeros l.
Proof. induction a as [|a IH]; [reflexivity|exact IH]. Qed.

Lemma drop_zeros_head (d : N) (l : list N) :
  d ≠ 0 → drop_zeros (d :: l) = d :: l.
Proof. intros H. cbn. by rewrite (proj2 (N.eqb_neq d 0) H). Qed.

Lemma rev_repeat {A} (x : A) (n : nat) : rev (repeat x n) = repeat x n.
Proof.
  induction n as [|n IH]; [reflexivity|].
  cbn [repeat rev]. rewrite IH. symmetry. apply repeat_cons.
Qed.

(** The number of a literal whose digits are [ds] between [a] leading and
    [b] trailing zeros. *)
Lemma make_number_spec (neg : bool) (int frac : list N) (e : Z) (a b : nat)
    (d : N) (ds : list N) :
  int ++ frac = repeat 0 a ++ (d :: ds) ++ repeat 0 b →
  d ≠ 0 → last (d :: ds) ≠ Some 0 →
  make_number neg int frac e
  = {| negative := neg; digits := d :: ds;
       exponent := e + Z.of_nat (length int) - Z.of_nat a |}.
Proof.
  intros Hall Hd Hlast. unfold make_number. rewrite Hall.
  rewrite drop_zeros_repeat. cbn [app]. rewrite drop_zeros_head by exact Hd.
  change (d :: ds ++ repeat 0 b) with ((d :: ds) ++ repeat 0 b).
  rewrite rev_app_distr, rev_repeat, drop_zeros_repeat.
  assert (Hrev : drop_zeros (rev (d :: ds)) = rev (d :: ds)).
  { destruct (rev (d :: ds)) as [|x xs] eqn:Hr.
    - reflexivity.
    - apply drop_zeros_head. intros ->. apply Hlast.
      rewrite <- (rev_involutive (d :: ds)), Hr. cbn [rev].
      by rewrite last_snoc. }
  rewrite Hrev, rev_involutive. f_equal.
  rewrite !length_app, !repeat_length. cbn [length]. lia.
Qed.

Lemma is_delimiter_cases (c : N) :
  is_delimiter c = true →
  c = 9 ∨ c = 10 ∨ c = 13 ∨ c = 32 ∨ c = 44 ∨ c = 93 ∨ c = 125.
Proof.
  unfold is_delimiter, is_ws. rewrite !orb_true_iff, !N.eqb_eq. tauto.
Qed.

Lemma delimited_no_digit (rest : jsstring) :
  delimited rest = true → no_digit_ahead rest = true.
Proof.
  destruct rest as [|c t]; [done|]. cbn. intros H%is_delimiter_cases.
  apply negb_true_iff, andb_leb_false. lia.
Qed.

Lemma parse_exponent_absent (neg : bool) (int frac : list N) (s : jsstring) :
  delimited s = true →
  parse_exponent neg int frac s = Parsed (make_number neg int frac 0) s.
Proof.
  destruct s as [|c t]; [done|]. cbn [delimited parse_exponent].
  intros H%is_delimiter_cases.
  rewrite (proj2 (N.eqb_neq c 101)), (proj2 (N.eqb_neq c 69)) by lia.
  reflexivity.
Qed.

Lemma parse_exponent_present (neg : bool) (int frac : list N) (minus : bool)
    (n : N) (rest : jsstring) :
  no_digit_ahead rest = true →
  parse_exponent neg int frac
    ([101; if minus then 45 else 43] ++ decimal n ++ rest)
  = Parsed (make_number neg int frac
              (if minus then - Z.of_N n else Z.of_N n)%Z) rest.
Proof.
  intros Hrest.
  destruct (span_digits_decimal n rest Hrest) as (es & Hspan & Hne & Hv).
  cbn [app parse_exponent]. change (101 =? 101) with true. cbn [orb].
  destruct minus.
  - change (45 =? 45) with true. cbv iota. rewrite Hspan.
    destruct es as [|e es]; [done|]. rewrite Hv. reflexivity.
  - change (43 =? 45) with false. change (43 =? 43) with true. cbv iota.
    rewrite Hspan. destruct es as [|e es]; [done|]. rewrite Hv. reflexivity.
Qed.

Lemma parse_fraction_absent (neg : bool) (int : list N) (s : jsstring) :
  head s ≠ Some 46 → parse_fraction neg int s = parse_exponent neg int [] s.
Proof.
  destruct s as [|c t]; [done|]. cbn [head parse_fraction]. intros H.
  rewrite (proj2 (N.eqb_neq c 46)) by congruence. reflexivity.
Qed.

Lemma parse_fraction_present (neg : bool) (int frac : list N)
    (rest : jsstring) :
  frac ≠ [] → Forall (λ d, d < 10) frac → no_digit_ahead rest = true →
  parse_fraction neg int (46 :: map digit_char frac ++ rest)
  = parse_exponent neg int frac rest.
Proof.
  intros Hne Hf Hrest. cbn [parse_fraction]. change (46 =? 46) with true.
  cbv iota. rewrite span_digits_digits by assumption.
  destruct frac; [done|reflexivity].
Qed.

Lemma parse_number_zero (neg : bool) (rest : jsstring) :
  parse_number (sign neg ++ 48 :: rest) = parse_fraction neg [0] rest.
Proof. destruct neg; reflexivity. Qed.

Lemma parse_number_int (neg : bool) (d : N) (ds : list N) (rest : jsstring) :
  d ≠ 0 → d < 10 → Forall (λ d, d < 10) ds → no_digit_ahead rest = true →
  parse_number (sign neg ++ map digit_char (d :: ds) ++ rest)
  = parse_fraction neg (d :: ds) rest.
Proof.
  intros Hd0 Hd Hds Hrest.
  pose proof (is_digit_digit_char d Hd) as Hdig.
  pose proof (digit_char_value d) as Hval.
  assert (H45 : digit_char d ≠ 45) by (unfold digit_char; lia).
  assert (H48 : digit_char d ≠ 48) by (unfold digit_char; lia).
  cbn [map app]. generalize dependent (digit_char d). intros dc Hdig Hval H45 H48.
  assert (Hstep : parse_number (sign neg ++ dc :: map digit_char ds ++ rest)
          = if dc =? 48 then parse_fraction neg [0] (map digit_char ds ++ rest)
            else if is_digit dc then
              let (ds', r) := span_digits (map digit_char ds ++ rest) in
              parse_fraction neg ((dc - 48) :: ds') r
            else Unexpected (dc :: map digit_char ds ++ rest)).
  { destruct neg; cbn [sign app parse_number].
    - reflexivity.
    - unfold parse_number.
      rewrite (proj2 (N.eqb_neq dc 45)) by exact H45. reflexivity. }
  rewrite Hstep, (proj2 (N.eqb_neq dc 48)) by exact H48.
  rewrite Hdig, span_digits_digits by assumption. rewrite Hval. reflexivity.
Qed.

Lemma canonical_cases (x : number) :
  canonical x = true →
  x = {| negative := false; digits := []; exponent := 0 |}
  ∨ ∃ d ds, digits x = d :: ds ∧ d ≠ 0 ∧ last (d :: ds) ≠ Some 0
            ∧ Forall (λ d, d < 10) (d :: ds).
Proof.
  destruct x as [neg digs n]. unfold canonical. cbn [digits exponent negative].
  intros [Hall Hform]%andb_true_iff.
  destruct digs as [|d ds].
  - left. apply andb_true_iff in Hform as [He%Z.eqb_eq Hn%negb_true_iff].
    by subst.
  - right. exists d, ds.
    apply andb_true_iff in Hform as [Hd%negb_true_iff Hl%negb_true_iff].
    apply N.eqb_neq in Hd. apply bool_decide_eq_false in Hl.
    repeat split; try assumption.
    apply Forall_forall. intros y Hy%list_elem_of_In.
    apply (proj1 (forallb_forall _ _) Hall), N.ltb_lt in Hy. exact Hy.
Qed.

Lemma zeros_chars (m : nat) : repeat 48 m = map digit_char (repeat 0 m).
Proof. induction m as [|m IH]; [reflexivity|]. cbn. by rewrite IH. Qed.

Lemma Forall_zeros (m : nat) : Forall (λ d, d < 10) (repeat 0 m).
Proof. apply Forall_forall. intros y Hy%list_elem_of_In%repeat_spec. lia. Qed.

Lemma delimited_head (rest : jsstring) (c : N) :
  delimited rest = true → is_delimiter c = false → head rest ≠ Some c.
Proof.
  destruct rest as [|c' t]; [done|]. cbn. intros H1 H2 [= ->]. congruence.
Qed.

(** Reading back what [Number::toString] printed. *)
Lemma parse_number_toString (x : number) (rest : jsstring) :
  canonical x = true → delimited rest = true →
  parse_number (Number_toString x ++ rest) = Parsed x rest.
Proof.
  intros Hx Hrest.
  pose proof (delimited_no_digit rest Hrest) as Hnd.
  assert (H46 : head rest ≠ Some 46) by (by apply delimited_head).
  destruct (canonical_cases x Hx) as [->|(d & ds & Hdigs & Hd0 & Hlast & Hall)].
  { change (parse_number (sign false ++ 48 :: rest)
            = Parsed {| negative := false; digits := []; exponent := 0 |} rest).
    rewrite parse_number_zero, parse_fraction_absent by exact H46.
    by rewrite parse_exponent_absent. }
  destruct x as [neg digs n]. cbn [digits] in Hdigs. subst digs.
  unfold Number_toString. cbn [digits negative exponent].
  pose proof (Forall_inv Hall) as Hd. pose proof (Forall_inv_tail Hall) as Hds.
  remember (Z.of_nat (length (d :: ds))) as k eqn:Hk. cbn [length] in Hk.
  destruct ((k <=? n)%Z && (n <=? 21)%Z) eqn:E1.
  { (* digits, then zeros *)
    apply andb_true_iff in E1 as [Hkn%Z.leb_le _].
    rewrite zeros_chars, <- map_app, <- !app_assoc.
    change ((d :: ds) ++ repeat 0 (Z.to_nat (n - k)))
      with (d :: (ds ++ repeat 0 (Z.to_nat (n - k)))).
    rewrite parse_number_int; [|done|done| |done].
    2:{ apply Forall_app. split; [exact Hds|apply Forall_zeros]. }
    rewrite parse_fraction_absent, parse_exponent_absent by assumption.
    f_equal. rewrite (make_number_spec neg _ [] 0 0 (Z.to_nat (n - k)) d ds);
      [|by rewrite app_nil_r|done|done].
    f_equal. cbn [length]. rewrite length_app, repeat_length. lia. }
  destruct ((0 <? n)%Z && (n <=? 21)%Z) eqn:E2.
  { (* digits around a decimal point *)
    apply andb_true_iff in E2 as [Hn0%Z.ltb_lt Hn21%Z.leb_le].
    apply andb_false_iff in E1 as [Hnk%Z.leb_gt|Hn%Z.leb_gt]; [|lia].
    rewrite firstn_map, skipn_map.
    destruct (Z.to_nat n) as [|m] eqn:Hm; [lia|].
    cbn [take]. rewrite <- !app_assoc. cbn [app].
    assert (Hfrac : drop (S m) (d :: ds) ≠ []).
    { intros Heq%(f_equal length). rewrite length_drop in Heq. cbn in Heq. lia. }
    rewrite parse_number_int; [|done|done|by apply Forall_take|done].
    rewrite parse_fraction_present;
      [|done|by apply Forall_drop|done].
    rewrite parse_exponent_absent by exact Hrest. f_equal.
    rewrite (make_number_spec neg _ _ 0 0 0 d ds);
      [|by rewrite app_nil_r; apply (take_drop (S m) (d :: ds))|done|done].
    f_equal. cbn [length]. rewrite length_take. lia. }
  destruct ((-6 <? n)%Z && (n <=? 0)%Z) eqn:E3.
  { (* zero, decimal point, zeros, digits *)
    apply andb_true_iff in E3 as [_ Hn0%Z.leb_le].
    rewrite zeros_chars. cbn [app]. rewrite <- map_app.
    rewrite <- app_assoc, <- !app_comm_cons.
    rewrite parse_number_zero.
    rewrite parse_fraction_present; [| | |done].
    2:{ destruct (Z.to_nat (- n)); discriminate. }
    2:{ apply Forall_app. split; [apply Forall_zeros|exact Hall]. }
    rewrite parse_exponent_absent by exact Hrest. f_equal.
    rewrite (make_number_spec neg _ _ 0 (S (Z.to_nat (- n))) 0 d ds);
      [|by rewrite app_nil_r|done|done].
    f_equal. cbn [length]. lia. }
  (* exponent notation *)
  assert (He : (n - 1 = if (n - 1 <? 0)%Z then - Z.of_N (Z.abs_N (n - 1))
                        else Z.of_N (Z.abs_N (n - 1)))%Z).
  { destruct (Z.ltb_spec (n - 1) 0); lia. }
  set (sg := if (n - 1 <? 0)%Z then 45 else 43) in *.
  rewrite <- (app_assoc (sign neg)).
  destruct ds as [|d2 ds].
  - change (parse_number
              (sign neg ++ map digit_char [d]
               ++ [101; sg] ++ decimal (Z.abs_N (n - 1)) ++ rest)
            = Parsed {| negative := neg; digits := [d]; exponent := n |} rest).
    rewrite parse_number_int; [|done|done|done|done].
    rewrite parse_fraction_absent by (cbn; congruence).
    subst sg. rewrite parse_exponent_present by exact Hnd. rewrite <- He. f_equal.
    rewrite (make_number_spec neg _ _ _ 0 0 d []); [|done|done|done].
    f_equal. cbn [length]. lia.
  - cbn [app]. rewrite <- !app_assoc. cbn [app].
    change (parse_number
              (sign neg ++ map digit_char [d]
               ++ 46 :: map digit_char (d2 :: ds)
               ++ [101; sg] ++ decimal (Z.abs_N (n - 1)) ++ rest)
            = Parsed {| negative := neg; digits := d :: d2 :: ds;
                        exponent := n |} rest).
    rewrite parse_number_int; [|done|done|done|done].
    rewrite parse_fraction_present; [|done|done|done].
    subst sg. rewrite parse_exponent_present by exact Hnd. rewrite <- He. f_equal.
    rewrite (make_number_spec neg _ _ _ 0 0 d (d2 :: ds));
      [|by cbn; rewrite app_nil_r|done|done].
    f_equal. cbn [length]. lia.
Qed.

(** ** JSON text: the recursion bound *)

(** More fuel does not change a result that was reached. *)
Lemma parse_fuel_mono (fuel : nat) :
  (∀ s fuel', (fuel ≤ fuel')%nat → parse_value fuel s ≠ OutOfFuel →
     parse_value fuel' s = parse_value fuel s)
  ∧ (∀ s acc fuel', (fuel ≤ fuel')%nat → parse_elements fuel s acc ≠ OutOfFuel →
       parse_elements fuel' s acc = parse_elements fuel s acc)
  ∧ (∀ s acc fuel', (fuel ≤ fuel')%nat → parse_members fuel s acc ≠ OutOfFuel →
       parse_members fuel' s acc = parse_members fuel s acc).
Proof.
  induction fuel as [|fuel (IHv & IHe & IHm)].
  { repeat split; intros; cbn in *; congruence. }
  split; [|split].
  - intros s [|fuel'] Hle Hdef; [lia|]. assert (Hle' : (fuel ≤ fuel')%nat) by lia.
    cbn [parse_value] in *.
    repeat case_match; try reflexivity; by (apply IHm || apply IHe).
  - intros s acc [|fuel'] Hle Hdef; [lia|]. assert (Hle' : (fuel ≤ fuel')%nat) by lia.
    cbn [parse_elements] in *.
    destruct (parse_value fuel s) as [v rest| |] eqn:Ev; [|by rewrite IHv, Ev by (done || congruence)|done].
    rewrite IHv, Ev by (done || congruence).
    repeat case_match; try reflexivity. by apply IHe.
  - intros s acc [|fuel'] Hle Hdef; [lia|]. assert (Hle' : (fuel ≤ fuel')%nat) by lia.
    cbn [parse_members] in *.
    destruct (skip_ws s) as [|q t]; [reflexivity|].
    destruct (q =? 34); [|reflexivity].
    destruct (parse_chars t) as [key rest| |]; [|reflexivity|reflexivity].
    destruct (skip_ws rest) as [|c t2]; [reflexivity|].
    destruct (c =? 58); [|reflexivity].
    destruct (parse_value fuel t2) as [v rest2| |] eqn:Ev; [|by rewrite IHv, Ev by (done || congruence)|done].
    rewrite IHv, Ev by (done || congruence).
    repeat case_match; try reflexivity. by apply IHm.
Qed.

Lemma parsed_map_Parsed {A B} (f : A → B) (p : parsed A) (b : B)
    (rest : jsstring) :
  parsed_map f p = Parsed b rest → ∃ a, p = Parsed a rest ∧ b = f a.
Proof. destruct p; cbn; intros [= <- <-] || intros [=]. by eexists. Qed.

Lemma skip_ws_length (s : jsstring) : (length (skip_ws s) ≤ length s)%nat.
Proof.
  induction s as [|c t IH]; [done|]. cbn [skip_ws].
  destruct (is_ws c); cbn [length]; lia.
Qed.

Lemma parse_chars_length (s : jsstring) (v rest : jsstring) :
  parse_chars s = Parsed v rest → (length rest ≤ length s)%nat.
Proof.
  assert (Hgen : ∀ n s, (length s ≤ n)%nat → ∀ v rest,
            parse_chars s = Parsed v rest → (length rest ≤ length s)%nat);
    [|by apply (Hgen (length s))].
  clear. induction n as [|n IH]; intros s Hn v rest.
  { destruct s; [done|cbn in Hn; lia]. }
  destruct s as [|c t]; [done|]. cbn [parse_chars]. cbn [length] in Hn.
  repeat case_match; subst; try done; cbn [length] in *;
    try (intros [= <- <-]; cbn [length]; lia);
    intros (a & Hp & _)%parsed_map_Parsed;
    apply IH in Hp; cbn [length] in *; lia.
Qed.

Lemma span_digits_length (s : jsstring) :
  (length (snd (span_digits s)) ≤ length s)%nat.
Proof.
  induction s as [|c t IH]; [done|]. cbn [span_digits].
  destruct (is_digit c); [|done].
  destruct (span_digits t). cbn [snd length] in *. lia.
Qed.

Lemma parse_exponent_length (neg : bool) (int frac : list N) (s : jsstring)
    (x : number) (rest : jsstring) :
  parse_exponent neg int frac s = Parsed x rest → (length rest ≤ length s)%nat.
Proof.
  unfold parse_exponent. destruct s as [|c t]; [by intros [= <- <-]|].
  destruct ((c =? 101) || (c =? 69)); [|by intros [= <- <-]].
  match goal with |- context [let (_, _) := ?p in _] => set (p0 := p) end.
  assert (Hu : (length (snd p0) ≤ length t)%nat).
  { subst p0. destruct t as [|sg t']; [done|].
    repeat case_match; cbn [snd length]; lia. }
  destruct p0 as [minus u]. cbn [snd] in Hu.
  assert (Hr := span_digits_length u).
  destruct (span_digits u) as [[|e es] r]; [done|].
  intros [= <- <-]. cbn [snd length] in *. lia.
Qed.

Lemma parse_fraction_length (neg : bool) (int : list N) (s : jsstring)
    (x : number) (rest : jsstring) :
  parse_fraction neg int s = Parsed x rest → (length rest ≤ length s)%nat.
Proof.
  unfold parse_fraction. destruct s as [|c t]; [apply parse_exponent_length|].
  destruct (c =? 46); [|apply parse_exponent_length].
  assert (H1 := span_digits_length t).
  destruct (span_digits t) as [[|f fs] r]; [done|].
  intros H%parse_exponent_length. cbn [snd length] in *. lia.
Qed.

Lemma parse_number_length (s : jsstring) (x : number) (rest : jsstring) :
  parse_number s = Parsed x rest → (length rest ≤ length s)%nat.
Proof.
  unfold parse_number.
  assert (Hgen : ∀ neg s1, (length s1 ≤ length s)%nat →
    match s1 with
    | [] => Unexpected []
    | c :: t =>
        if c =? 48 then parse_fraction neg [0] t
        else if is_digit c then
          let (ds, r) := span_digits t in parse_fraction neg ((c - 48) :: ds) r
        else Unexpected s1
    end = Parsed x rest → (length rest ≤ length s)%nat).
  { intros neg [|c t] Hlen; [done|]. cbn [length] in Hlen.
    destruct (c =? 48).
    - intros H%parse_fraction_length. lia.
    - destruct (is_digit c); [|done].
      assert (H1 := span_digits_length t). destruct (span_digits t) as [ds r].
      intros H%parse_fraction_length. cbn [snd] in *. lia. }
  destruct s as [|c t]; [done|].
  destruct (c =? 45);
    [apply (Hgen true t)|apply (Hgen false (c :: t))]; cbn [length]; lia.
Qed.

Lemma expect_length (word s rest : jsstring) :
  expect word s = Some rest → (length rest ≤ length s)%nat.
Proof.
  revert s. induction word as [|w word IH]; intros s; cbn [expect].
  - by intros [= ->].
  - destruct s as [|c t]; [done|]. destruct (c =? w); [|done].
    intros H%IH. cbn [length]. lia.
Qed.

Lemma parse_keyword_length (word : jsstring) (v : json) (s : jsstring)
    (v' : json) (rest : jsstring) :
  parse_keyword word v s = Parsed v' rest → (length rest ≤ length s)%nat.
Proof.
  unfold parse_keyword. destruct (expect word s) eqn:He; [|done].
  intros [= <- <-]. by eapply expect_length.
Qed.

(** What is left after a value is a suffix of the text, never longer. *)
Lemma parse_length (fuel : nat) :
  (∀ s v rest, parse_value fuel s = Parsed v rest →
     (length rest ≤ length s)%nat)
  ∧ (∀ s acc v rest, parse_elements fuel s acc = Parsed v rest →
       (length rest ≤ length s)%nat)
  ∧ (∀ s acc v rest, parse_members fuel s acc = Parsed v rest →
       (length rest ≤ length s)%nat).
Proof.
  induction fuel as [|fuel (IHv & IHe & IHm)]; [by repeat split|].
  split; [|split].
  - intros s v rest. cbn [parse_value].
    assert (Hs := skip_ws_length s).
    destruct (skip_ws s) as [|c t]; [done|]. cbn [length] in Hs.
    assert (Ht := skip_ws_length t).
    repeat case_match; subst; try done; cbn [length] in *;
      try (intros [= <- <-]; lia);
      try (intros Hp%IHm; cbn [length] in Hp; lia);
      try (intros Hp%IHe; cbn [length] in Hp; lia);
      try (intros Hp%parse_keyword_length; cbn [length] in Hp; lia).
    + intros (a & Hp%parse_chars_length & _)%parsed_map_Parsed. lia.
    + intros (a & Hp%parse_number_length & _)%parsed_map_Parsed.
      cbn [length] in Hp. lia.
  - intros s acc v rest. cbn [parse_elements].
    destruct (parse_value fuel s) as [v1 r1| |] eqn:Ev; [|done|done].
    apply IHv in Ev. assert (Hs := skip_ws_length r1).
    destruct (skip_ws r1) as [|c t]; [done|]. cbn [length] in Hs.
    repeat case_match; try done.
    + intros Hp%IHe. lia.
    + intros [= <- <-]. lia.
  - intros s acc v rest. cbn [parse_members].
    assert (Hs := skip_ws_length s).
    destruct (skip_ws s) as [|q t]; [done|]. cbn [length] in Hs.
    destruct (q =? 34); [|done].
    destruct (parse_chars t) as [key r1| |] eqn:Ek; [|done|done].
    apply parse_chars_length in Ek. assert (Hr := skip_ws_length r1).
    destruct (skip_ws r1) as [|c t2]; [done|]. cbn [length] in Hr.
    destruct (c =? 58); [|done].
    destruct (parse_value fuel t2) as [v1 r2| |] eqn:Ev; [|done|done].
    apply IHv in Ev. assert (Hr2 := skip_ws_length r2).
    destruct (skip_ws r2) as [|c3 t3]; [done|]. cbn [length] in Hr2.
    repeat case_match; try done.
    + intros Hp%IHm. lia.
    + intros [= <- <-]. lia.
Qed.

Lemma parsed_map_fuel {A B} (f : A → B) (p : parsed A) :
  p ≠ OutOfFuel → parsed_map f p ≠ OutOfFuel.
Proof. by destruct p. Qed.

Lemma parse_chars_fuel (s : jsstring) : parse_chars s ≠ OutOfFuel.
Proof.
  assert (Hgen : ∀ n s, (length s ≤ n)%nat → parse_chars s ≠ OutOfFuel);
    [|by apply (Hgen (length s))].
  clear. induction n as [|n IH]; intros s Hn.
  { destruct s; [done|cbn in Hn; lia]. }
  destruct s as [|c t]; [done|]. cbn [parse_chars]. cbn [length] in Hn.
  repeat case_match; subst; try done; cbn [length] in *;
    apply parsed_map_fuel, IH; cbn [length]; lia.
Qed.

Lemma parse_exponent_fuel (neg : bool) (int frac : list N) (s : jsstring) :
  parse_exponent neg int frac s ≠ OutOfFuel.
Proof. unfold parse_exponent. by repeat case_match. Qed.

Lemma parse_fraction_fuel (neg : bool) (int : list N) (s : jsstring) :
  parse_fraction neg int s ≠ OutOfFuel.
Proof.
  unfold parse_fraction. repeat case_match; try done; apply parse_exponent_fuel.
Qed.

Lemma parse_number_fuel (s : jsstring) : parse_number s ≠ OutOfFuel.
Proof.
  unfold parse_number. repeat case_match; try done; apply parse_fraction_fuel.
Qed.

Lemma parse_keyword_fuel (word : jsstring) (v : json) (s : jsstring) :
  parse_keyword word v s ≠ OutOfFuel.
Proof. unfold parse_keyword. by case_match. Qed.

(** The bound [JSON_parse] starts with is never used up. *)
Lemma parse_fuel_enough (fuel : nat) :
  (∀ s, (2 * length s < fuel)%nat → parse_value fuel s ≠ OutOfFuel)
  ∧ (∀ s acc, (2 * length s + 1 < fuel)%nat →
       parse_elements fuel s acc ≠ OutOfFuel)
  ∧ (∀ s acc, (2 * length s + 1 < fuel)%nat →
       parse_members fuel s acc ≠ OutOfFuel).
Proof.
  induction fuel as [|fuel (IHv & IHe & IHm)]; [repeat split; intros; lia|].
  split; [|split].
  - intros s Hf. cbn [parse_value].
    assert (Hs := skip_ws_length s).
    destruct (skip_ws s) as [|c t]; [done|]. cbn [length] in Hs.
    assert (Ht := skip_ws_length t).
    repeat case_match; subst; try done; cbn [length] in *;
      first [ apply IHm; cbn [length]; lia
            | apply IHe; cbn [length]; lia
            | apply parsed_map_fuel, parse_chars_fuel
            | apply parsed_map_fuel, parse_number_fuel
            | apply parse_keyword_fuel ].
  - intros s acc Hf. cbn [parse_elements].
    assert (Hv := IHv s). destruct (parse_value fuel s) as [v1 r1| |] eqn:Ev;
      [|done|apply Hv; lia].
    apply (proj1 (parse_length fuel)) in Ev. assert (Hs := skip_ws_length r1).
    destruct (skip_ws r1) as [|c t]; [done|]. cbn [length] in Hs.
    repeat case_match; try done. apply IHe. lia.
  - intros s acc Hf. cbn [parse_members].
    assert (Hs := skip_ws_length s).
    destruct (skip_ws s) as [|q t]; [done|]. cbn [length] in Hs.
    destruct (q =? 34); [|done].
    assert (Hc := parse_chars_fuel t).
    destruct (parse_chars t) as [key r1| |] eqn:Ek; [|done|done].
    apply parse_chars_length in Ek. assert (Hr := skip_ws_length r1).
    destruct (skip_ws r1) as [|c t2]; [done|]. cbn [length] in Hr.
    destruct (c =? 58); [|done].
    assert (Hv := IHv t2).
    destruct (parse_value fuel t2) as [v1 r2| |] eqn:Ev; [|done|apply Hv; lia].
    apply (proj1 (parse_length fuel)) in Ev. assert (Hr2 := skip_ws_length r2).
    destruct (skip_ws r2) as [|c3 t3]; [done|]. cbn [length] in Hr2.
    repeat case_match; try done. apply IHm. lia.
Qed.

(** ** JSON text: values *)

Lemma json_induction (P : json → Prop) :
  P JNull → (∀ b, P (JBool b)) → (∀ x, P (JNumber x)) →
  (∀ s, P (JString s)) →
  (∀ elements, Forall P elements → P (JArray elements)) →
  (∀ properties, Forall (λ p, P (snd p)) properties → P (JObject properties)) →
  (∀ negative, P (JInfinity negative)) →
  ∀ v, P v.
Proof.
  intros Hnull Hbool Hnum Hstr Harr Hobj Hinf.
  fix IH 1. intros [ |b|x|s|elements|properties|neg].
  - exact Hnull.
  - apply Hbool.
  - apply Hnum.
  - apply Hstr.
  - apply Harr. induction elements as [|e elements IHl]; constructor.
    + apply IH.
    + exact IHl.
  - apply Hobj. induction properties as [|p properties IHl]; constructor.
    + apply IH.
    + exact IHl.
  - apply Hinf.
Qed.

Lemma skip_ws_app (w s : jsstring) : all_ws w → skip_ws (w ++ s) = skip_ws s.
Proof.
  induction 1 as [|c w Hc _ IH]; [reflexivity|].
  cbn [app skip_ws]. by rewrite Hc.
Qed.

Lemma skip_ws_stop (c : N) (t : jsstring) :
  is_ws c = false → skip_ws (c :: t) = c :: t.
Proof. intros H. cbn. by rewrite H. Qed.

Lemma skip_ws_all (w : jsstring) : all_ws w → skip_ws w = [].
Proof. intros H. rewrite <- (app_nil_r w). by rewrite skip_ws_app. Qed.

Lemma parse_value_skip (fuel : nat) (w s : jsstring) :
  all_ws w → parse_value fuel (w ++ s) = parse_value fuel s.
Proof. intros H. destruct fuel; [done|]. cbn [parse_value]. by rewrite skip_ws_app. Qed.

Lemma parse_elements_skip (fuel : nat) (w s : jsstring) (acc : list json) :
  all_ws w → parse_elements fuel (w ++ s) acc = parse_elements fuel s acc.
Proof.
  intros H. destruct fuel; [done|]. cbn [parse_elements].
  by rewrite parse_value_skip.
Qed.

Lemma parse_members_skip (fuel : nat) (w s : jsstring)
    (acc : list (jsstring * json)) :
  all_ws w → parse_members fuel (w ++ s) acc = parse_members fuel s acc.
Proof.
  intros H. destruct fuel; [done|]. cbn [parse_members]. by rewrite skip_ws_app.
Qed.

Lemma delimited_ws (w : jsstring) (d : N) (rest : jsstring) :
  all_ws w → is_delimiter d = true → delimited (w ++ d :: rest) = true.
Proof.
  intros [|c w' Hc _] Hd; [exact Hd|]. cbn. unfold is_delimiter. by rewrite Hc.
Qed.

Lemma delimited_all_ws (w : jsstring) : all_ws w → delimited w = true.
Proof. intros [|c w' Hc _]; [done|]. cbn. unfold is_delimiter. by rewrite Hc. Qed.

Lemma Number_toString_head (x : number) :
  canonical x = true →
  ∃ c t, Number_toString x = c :: t ∧ (c = 45 ∨ is_digit c = true).
Proof.
  intros Hx.
  destruct (canonical_cases x Hx) as [->|(d & ds & Hdigs & Hd0 & Hlast & Hall)].
  { exists 48, []. split; [reflexivity|by right]. }
  destruct x as [neg digs n]. cbn [digits] in Hdigs. subst digs.
  pose proof (Forall_inv Hall) as Hd.
  unfold Number_toString. cbn [digits negative exponent].
  destruct neg; [by eexists _, _; split; [reflexivity|left]|].
  cbn [sign app].
  assert (Hdc := is_digit_digit_char d Hd).
  destruct ((Z.of_nat (length (d :: ds)) <=? n)%Z && (n <=? 21)%Z);
    [by eexists _, _; split; [reflexivity|right]|].
  destruct ((0 <? n)%Z && (n <=? 21)%Z) eqn:E2.
  { apply andb_true_iff in E2 as [Hn0%Z.ltb_lt _].
    destruct (Z.to_nat n) eqn:Hn; [lia|].
    by eexists _, _; split; [reflexivity|right]. }
  destruct ((-6 <? n)%Z && (n <=? 0)%Z);
    by eexists _, _; split; [reflexivity|right].
Qed.

Lemma parse_value_number (fuel : nat) (c : N) (t : jsstring) :
  c = 45 ∨ is_digit c = true →
  parse_value (S fuel) (c :: t)
  = parsed_map Number_of_decimal (parse_number (c :: t)).
Proof.
  intros Hc.
  assert (Hr : 48 ≤ c ≤ 57 ∨ c = 45).
  { destruct Hc as [->|[?%N.leb_le ?%N.leb_le]%andb_true_iff]; lia. }
  assert (Hws : is_ws c = false).
  { unfold is_ws. rewrite !orb_false_iff, !N.eqb_neq. lia. }
  cbn [parse_value]. rewrite skip_ws_stop by exact Hws.
  rewrite !(proj2 (N.eqb_neq c _)) by lia.
  replace ((c =? 45) || is_digit c) with true; [reflexivity|].
  symmetry. destruct Hc as [->| ->]; [done|apply orb_true_r].
Qed.

Lemma parse_value_string (fuel : nat) (s rest : jsstring) :
  parse_value (S fuel) (QuoteJSONString s ++ rest) = Parsed (JString s) rest.
Proof.
  unfold QuoteJSONString. rewrite <- !app_assoc.
  change (parse_value (S fuel) ([34] ++ quote_units s ++ [34] ++ rest))
    with (parsed_map JString (parse_chars (quote_units s ++ 34 :: rest))).
  by rewrite parse_chars_quote_units.
Qed.

Lemma parse_value_array (fuel : nat) (w : jsstring) (c : N) (t : jsstring) :
  all_ws w → is_ws c = false → c ≠ 93 →
  parse_value (S fuel) (91 :: w ++ c :: t) = parse_elements fuel (c :: t) [].
Proof.
  intros Hw Hc H93. cbn [parse_value]. change (skip_ws (91 :: ?x)) with (91 :: x).
  cbv iota. change (91 =? 123) with false. change (91 =? 91) with true. cbv iota.
  rewrite skip_ws_app, skip_ws_stop by assumption.
  by rewrite (proj2 (N.eqb_neq c 93)).
Qed.

Lemma parse_value_object (fuel : nat) (w : jsstring) (c : N) (t : jsstring) :
  all_ws w → is_ws c = false → c ≠ 125 →
  parse_value (S fuel) (123 :: w ++ c :: t) = parse_members fuel (c :: t) [].
Proof.
  intros Hw Hc H125. cbn [parse_value]. change (skip_ws (123 :: ?x)) with (123 :: x).
  cbv iota. change (123 =? 123) with true. cbv iota.
  rewrite skip_ws_app, skip_ws_stop by assumption.
  by rewrite (proj2 (N.eqb_neq c 125)).
Qed.

Lemma join_singleton (sep p : jsstring) : join sep [p] = p.
Proof. cbn. apply app_nil_r. Qed.

Lemma join_cons_cons (sep p q : jsstring) (ps : list jsstring) :
  join sep (p :: q :: ps) = p ++ sep ++ join sep (q :: ps).
Proof. cbn. by rewrite <- app_assoc. Qed.

(** A new name that comes after every name of the object goes to the
    end. *)
Lemma set_property_fresh {A : Type} (key : jsstring) (v : A)
    (acc : list (jsstring * A)) :
  key ∉ map fst acc → Forall (λ k, comes_before key k = false) (map fst acc) →
  set_property key v acc = acc ++ [(key, v)].
Proof.
  intros Hfresh Hlast. unfold set_property.
  rewrite bool_decide_eq_false_2 by exact Hfresh. clear Hfresh.
  induction acc as [|[k w] acc IH]; [done|].
  cbn [map fst] in Hlast. apply Forall_cons in Hlast as [Hk Hacc].
  cbn [insert_property app]. rewrite Hk. by rewrite IH.
Qed.

Lemma enumeration_order_middle (l1 l2 : list jsstring) (k : jsstring) :
  enumeration_order (l1 ++ k :: l2) →
  Forall (λ k', comes_before k k' = false) l1.
Proof.
  induction l1 as [|a l1 IH]; [constructor|]. cbn [app enumeration_order].
  intros [Ha Hrest]. constructor; [|by apply IH].
  apply Forall_app in Ha as [_ Ha]. by apply Forall_cons in Ha as [Ha _].
Qed.

(** Reading fuel-independent: what some bound reads, every larger bound
    reads. *)
Lemma parse_value_more (fuel fuel' : nat) (s : jsstring) (v : json)
    (rest : jsstring) :
  parse_value fuel s = Parsed v rest → (fuel ≤ fuel')%nat →
  parse_value fuel' s = Parsed v rest.
Proof.
  intros H Hle. rewrite <- H. apply (proj1 (parse_fuel_mono fuel)); [exact Hle|].
  by rewrite H.
Qed.

Lemma parse_elements_more (fuel fuel' : nat) (s : jsstring) (acc : list json)
    (v : json) (rest : jsstring) :
  parse_elements fuel s acc = Parsed v rest → (fuel ≤ fuel')%nat →
  parse_elements fuel' s acc = Parsed v rest.
Proof.
  intros H Hle. rewrite <- H.
  apply (proj1 (proj2 (parse_fuel_mono fuel))); [exact Hle|]. by rewrite H.
Qed.

Lemma parse_members_more (fuel fuel' : nat) (s : jsstring)
    (acc : list (jsstring * json)) (v : json) (rest : jsstring) :
  parse_members fuel s acc = Parsed v rest → (fuel ≤ fuel')%nat →
  parse_members fuel' s acc = Parsed v rest.
Proof.
  intros H Hle. rewrite <- H.
  apply (proj2 (proj2 (parse_fuel_mono fuel))); [exact Hle|]. by rewrite H.
Qed.

Lemma parse_elements_join (ser : json → jsstring) (l : list json) :
  Forall (λ e, reads (ser e) e) l → l ≠ [] →
  ∀ w2 w3 acc rest, all_ws w2 → all_ws w3 →
    ∃ fuel,
      parse_elements fuel
        (join (44 :: w2) (map ser l) ++ w3 ++ 93 :: rest) acc
      = Parsed (JArray (acc ++ l)) rest.
Proof.
  induction 1 as [|e l He Hl IH]; [done|]. intros _ w2 w3 acc rest Hw2 Hw3.
  destruct l as [|e2 l].
  - cbn [map]. rewrite join_singleton.
    destruct (He (w3 ++ 93 :: rest)) as [fe Hfe]; [by apply delimited_ws|].
    exists (S fe). cbn [parse_elements]. rewrite Hfe.
    rewrite skip_ws_app, skip_ws_stop by done. reflexivity.
  - cbn [map]. rewrite join_cons_cons, <- !app_assoc. cbn [app].
    destruct (He (44 :: w2 ++ join (44 :: w2) (ser e2 :: map ser l)
                  ++ w3 ++ 93 :: rest)) as [fe Hfe]; [done|].
    destruct (IH ltac:(done) w2 w3 (acc ++ [e]) rest Hw2 Hw3) as [fl Hfl].
    exists (S (max fe fl)). cbn [parse_elements].
    rewrite (parse_value_more _ _ _ _ _ Hfe) by lia.
    rewrite skip_ws_stop by done. change (44 =? 44) with true. cbv iota.
    rewrite parse_elements_skip by exact Hw2.
    rewrite (parse_elements_more _ _ _ _ _ _ Hfl) by lia.
    by rewrite <- app_assoc.
Qed.

Lemma parse_members_quoted (fuel : nat) (key t2 : jsstring)
    (acc : list (jsstring * json)) :
  parse_members (S fuel) (QuoteJSONString key ++ 58 :: t2) acc
  = match parse_value fuel t2 with
    | Parsed v rest2 =>
        match skip_ws rest2 with
        | [] => Unexpected []
        | c3 :: t3 =>
            if c3 =? 44 then parse_members fuel t3 (set_property key v acc)
            else if c3 =? 125 then Parsed (JObject (set_property key v acc)) t3
            else Unexpected (c3 :: t3)
        end
    | Unexpected r => Unexpected r
    | OutOfFuel => OutOfFuel
    end.
Proof.
  unfold QuoteJSONString. rewrite <- !app_assoc.
  change ([34] ++ quote_units key ++ [34] ++ 58 :: t2)
    with (34 :: (quote_units key ++ 34 :: 58 :: t2)).
  cbn [parse_members]. rewrite skip_ws_stop by done.
  change (34 =? 34) with true. cbv iota.
  rewrite parse_chars_quote_units, skip_ws_stop by done. reflexivity.
Qed.

Lemma parse_members_join (ser : json → jsstring) (w0 : jsstring)
    (ps : list (jsstring * json)) :
  Forall (λ p, reads (ser (snd p)) (snd p)) ps → ps ≠ [] → all_ws w0 →
  ∀ w2 w3 acc rest, all_ws w2 → all_ws w3 → NoDup (keys acc ++ keys ps) →
    enumeration_order (keys acc ++ keys ps) →
    ∃ fuel,
      parse_members fuel
        (join (44 :: w2)
           (map (λ p, QuoteJSONString (fst p) ++ (58 :: w0) ++ ser (snd p)) ps)
         ++ w3 ++ 125 :: rest) acc
      = Parsed (JObject (acc ++ ps)) rest.
Proof.
  induction 1 as [|[k v] ps Hp Hps IH]; [done|].
  intros _ Hw0 w2 w3 acc rest Hw2 Hw3 Hnd Hord. cbn [fst snd] in Hp.
  assert (Hfresh : k ∉ keys acc).
  { apply NoDup_app in Hnd as (_ & Hdisj & _). intros Hin.
    apply (Hdisj k Hin). cbn. left. }
  assert (Hlast : Forall (λ k', comes_before k k' = false) (keys acc)).
  { by apply (enumeration_order_middle _ (keys ps)). }
  destruct ps as [|[k2 v2] ps].
  - cbn [map fst snd]. rewrite join_singleton, <- !app_assoc. cbn [app].
    destruct (Hp (w3 ++ 125 :: rest)) as [fe Hfe]; [by apply delimited_ws|].
    exists (S fe). rewrite parse_members_quoted, parse_value_skip by exact Hw0.
    rewrite Hfe, skip_ws_app, skip_ws_stop by done.
    change (125 =? 44) with false. change (125 =? 125) with true. cbv iota.
    by rewrite set_property_fresh.
  - cbn [map fst snd]. rewrite join_cons_cons, <- !app_assoc. cbn [app].
    rewrite <- ?app_assoc. cbn [app].
    match goal with
    | |- ∃ _, parse_members _ (_ ++ 58 :: w0 ++ _ ++ ?R) _ = _ =>
        destruct (Hp R) as [fe Hfe]; [done|]
    end.
    destruct (IH ltac:(done) Hw0 w2 w3 (acc ++ [(k, v)]) rest Hw2 Hw3)
      as [fl Hfl].
    { unfold keys in *. rewrite map_app, <- app_assoc. exact Hnd. }
    { unfold keys in *. rewrite map_app, <- app_assoc. exact Hord. }
    exists (S (max fe fl)).
    rewrite parse_members_quoted, parse_value_skip by exact Hw0.
    rewrite (parse_value_more _ _ _ _ _ Hfe) by lia.
    rewrite skip_ws_stop by done. change (44 =? 44) with true. cbv iota.
    rewrite parse_members_skip by exact Hw2.
    rewrite set_property_fresh by assumption.
    replace (acc ++ (k, v) :: (k2, v2) :: ps)
      with ((acc ++ [(k, v)]) ++ (k2, v2) :: ps) by (by rewrite <- app_assoc).
    apply (parse_members_more _ _ _ _ _ _ Hfl). lia.
Qed.

Lemma serializable_array (l : list json) :
  serializable (JArray l) ↔ Forall serializable l.
Proof.
  cbn [serializable]. induction l as [|e l IH]; cbn [foldr].
  - split; [constructor|done].
  - rewrite Forall_cons. tauto.
Qed.

Lemma serializable_object (ps : list (jsstring * json)) :
  serializable (JObject ps)
  ↔ NoDup (keys ps) ∧ enumeration_order (keys ps)
    ∧ Forall (λ p, serializable (snd p)) ps.
Proof.
  cbn [serializable]. do 2 apply and_iff_compat_l.
  induction ps as [|p ps IH]; cbn [foldr].
  - split; [constructor|done].
  - rewrite Forall_cons. tauto.
Qed.

Lemma all_ws_newline (indent : jsstring) : all_ws indent → all_ws (10 :: indent).
Proof. by constructor. Qed.

Lemma bracket_shape (o c : N) (gap stepback indent p : jsstring)
    (ps : list jsstring) :
  all_ws stepback → all_ws indent →
  ∃ w1 w2 w3, all_ws w1 ∧ all_ws w2 ∧ all_ws w3 ∧
    ∀ rest, bracket o c gap stepback indent (p :: ps) ++ rest
            = o :: w1 ++ join (44 :: w2) (p :: ps) ++ w3 ++ c :: rest.
Proof.
  intros Hs Hi. unfold bracket. destruct gap as [|g gap].
  - exists [], [], []. repeat split; try constructor.
    intros rest. by rewrite <- !app_assoc.
  - exists (10 :: indent), (10 :: indent), (10 :: stepback).
    repeat split; try by apply all_ws_newline.
    intros rest. by rewrite <- !app_assoc.
Qed.

Lemma colon_shape (gap : jsstring) : ∃ w0, all_ws w0 ∧ colon gap = 58 :: w0.
Proof.
  destruct gap.
  - exists []. split; [constructor|done].
  - exists [32]. split; [by repeat constructor|done].
Qed.

Lemma serialize_head (gap indent : jsstring) (v : json) :
  serializable v → starts_value (SerializeJSONProperty gap indent v).
Proof.
  destruct v as [ |[|]|x|s|l|ps|neg]; cbn [SerializeJSONProperty serializable];
    try done.
  - intros [Hx _]. destruct (Number_toString_head x Hx) as (c & t & -> & Hc).
    cbn. assert (Hr : 48 ≤ c ≤ 57 ∨ c = 45).
    { destruct Hc as [->|[?%N.leb_le ?%N.leb_le]%andb_true_iff]; lia. }
    unfold is_ws. rewrite !orb_false_iff, !N.eqb_neq. lia.
  - intros _. unfold bracket. by repeat case_match.
  - intros _. unfold bracket. by repeat case_match.
Qed.

Lemma starts_value_join (sep p : jsstring) (ps : list jsstring)
    (t : jsstring) :
  starts_value p → starts_value (join sep (p :: ps) ++ t).
Proof. by destruct p. Qed.

Lemma parse_value_array_of (fuel : nat) (w text : jsstring) :
  all_ws w → starts_value text →
  parse_value (S fuel) (91 :: w ++ text) = parse_elements fuel text [].
Proof.
  destruct text as [|c t]; [done|]. intros Hw (Hc & H93 & _).
  by apply parse_value_array.
Qed.

Lemma parse_value_object_of (fuel : nat) (w text : jsstring) :
  all_ws w → starts_value text →
  parse_value (S fuel) (123 :: w ++ text) = parse_members fuel text [].
Proof.
  destruct text as [|c t]; [done|]. intros Hw (Hc & _ & H125).
  by apply parse_value_object.
Qed.

(** [JSON.parse] reads back what [SerializeJSONProperty] wrote, at every
    indentation made of white space. *)
Lemma serialize_reads (v : json) :
  serializable v → ∀ gap indent, all_ws gap → all_ws indent →
  reads (SerializeJSONProperty gap indent v) v.
Proof.
  induction v as [ |b|x|s|l IH|ps IH|neg] using json_induction;
    intros Hser gap indent Hgap Hindent rest Hrest; [| | | | | |done].
  - by exists 1%nat.
  - exists 1%nat. by destruct b.
  - exists 1%nat. cbn [SerializeJSONProperty serializable] in *.
    destruct Hser as [Hcan Hdouble].
    destruct (Number_toString_head x Hcan) as (c & t & Hhead & Hc).
    rewrite Hhead. cbn [app]. rewrite parse_value_number by exact Hc.
    change (c :: t ++ rest) with ((c :: t) ++ rest). rewrite <- Hhead.
    rewrite parse_number_toString by done. cbn [parsed_map].
    by rewrite Hdouble.
  - exists 1%nat. apply parse_value_string.
  - cbn [SerializeJSONProperty]. destruct l as [|e l]; [by exists 1%nat|].
    apply serializable_array in Hser.
    assert (Hall : Forall (λ e, reads (SerializeJSONProperty gap (indent ++ gap) e) e) (e :: l)).
    { apply Forall_forall. intros y Hy.
      rewrite Forall_forall in IH, Hser.
      apply IH; [done|by apply Hser|done|by apply Forall_app]. }
    cbn [map].
    destruct (bracket_shape 91 93 gap indent (indent ++ gap)
                (SerializeJSONProperty gap (indent ++ gap) e)
                (map (SerializeJSONProperty gap (indent ++ gap)) l))
      as (w1 & w2 & w3 & Hw1 & Hw2 & Hw3 & ->);
      [done|by apply Forall_app|].
    destruct (parse_elements_join _ (e :: l) Hall ltac:(done) w2 w3 [] rest Hw2 Hw3)
      as [f Hf].
    exists (S f). cbn [map] in Hf.
    rewrite parse_value_array_of; [exact Hf|exact Hw1|].
    apply starts_value_join, serialize_head, (Forall_inv Hser).
  - cbn [SerializeJSONProperty]. destruct ps as [|p ps]; [by exists 1%nat|].
    apply serializable_object in Hser as (Hnd & Hord & Hser).
    destruct (colon_shape gap) as (w0 & Hw0 & ->).
    assert (Hall : Forall (λ p, reads (SerializeJSONProperty gap (indent ++ gap) (snd p)) (snd p)) (p :: ps)).
    { apply Forall_forall. intros y Hy.
      rewrite Forall_forall in IH, Hser.
      apply IH; [done|by apply Hser|done|by apply Forall_app]. }
    cbn [map].
    destruct (bracket_shape 123 125 gap indent (indent ++ gap)
                (QuoteJSONString (fst p) ++ (58 :: w0)
                 ++ SerializeJSONProperty gap (indent ++ gap) (snd p))
                (map (λ p, QuoteJSONString (fst p) ++ (58 :: w0)
                           ++ SerializeJSONProperty gap (indent ++ gap) (snd p)) ps))
      as (w1 & w2 & w3 & Hw1 & Hw2 & Hw3 & ->);
      [done|by apply Forall_app|].
    destruct (parse_members_join _ w0 (p :: ps) Hall ltac:(done) Hw0 w2 w3 []
                rest Hw2 Hw3 Hnd Hord)
      as [f Hf].
    exists (S f). cbn [map] in Hf.
    rewrite parse_value_object_of; [exact Hf|exact Hw1|].
    by apply starts_value_join.
Qed.

(** ** JSON.parse after JSON.stringify *)

Lemma JSON_parse_fuel (text : jsstring) :
  parse_value (2 * length text + 1) text ≠ OutOfFuel.
Proof. apply (proj1 (parse_fuel_enough _)). lia. Qed.

Lemma JSON_parse_reads `{Engine} (text : jsstring) (v : json) (w : jsstring) :
  reads text v → all_ws w → JSON_parse (text ++ w) = inl v.
Proof.
  intros Hreads Hw.
  destruct (Hreads w (delimited_all_ws w Hw)) as [f Hf].
  unfold JSON_parse.
  assert (Hp : parse_value (2 * length (text ++ w) + 1) (text ++ w) = Parsed v w).
  { destruct (Nat.le_ge_cases f (2 * length (text ++ w) + 1)) as [Hle|Hge].
    - by apply (parse_value_more f).
    - rewrite <- Hf. symmetry.
      apply (proj1 (parse_fuel_mono _)); [exact Hge|apply JSON_parse_fuel]. }
  rewrite Hp. by rewrite skip_ws_all.
Qed.

Lemma all_ws_spaces (n : nat) : all_ws (repeat 32 n).
Proof. apply Forall_forall. by intros c ->%list_elem_of_In%repeat_spec. Qed.

Lemma JSON_stringify_reads (v : json) (space : option nat) :
  serializable v → reads (JSON_stringify v space) v.
Proof.
  intros Hv. apply serialize_reads; [exact Hv|apply all_ws_spaces|constructor].
Qed.

(** ** The text that reaches the file *)

Lemma bracket_last (o c : N) (gap stepback indent : jsstring)
    (parts : list jsstring) :
  ∃ body, bracket o c gap stepback indent parts = body ++ [c].
Proof.
  unfold bracket. destruct parts as [|p ps]; [by exists [o]|].
  destruct gap as [|g gap].
  - by exists ([o] ++ join [44] (p :: ps)).
  - exists ([o; 10] ++ indent ++ join ([44; 10] ++ indent) (p :: ps)
            ++ [10] ++ stepback).
    by rewrite <- !app_assoc.
Qed.

Lemma trimEnd_snoc (body : jsstring) (c : N) :
  is_js_space c = false → trimEnd (body ++ [c]) = body ++ [c].
Proof.
  intros Hc. unfold trimEnd. rewrite rev_app_distr. cbn [rev app drop_space].
  rewrite Hc. cbn [rev]. by rewrite rev_involutive.
Qed.

Lemma trimEnd_object (ps : list (jsstring * json)) (space : option nat) :
  trimEnd (JSON_stringify (JObject ps) space) = JSON_stringify (JObject ps) space.
Proof.
  unfold JSON_stringify. cbn [SerializeJSONProperty].
  destruct (bracket_last 123 125 (repeat 32 (Nat.min 10 (default 0%nat space)))
              [] ([] ++ repeat 32 (Nat.min 10 (default 0%nat space)))
              (map (λ p, QuoteJSONString (fst p)
                         ++ colon (repeat 32 (Nat.min 10 (default 0%nat space)))
                         ++ SerializeJSONProperty
                              (repeat 32 (Nat.min 10 (default 0%nat space)))
                              ([] ++ repeat 32 (Nat.min 10 (default 0%nat space)))
                              (snd p)) ps))
    as [body ->].
  by apply trimEnd_snoc.
Qed.

(** ** Well-formed UTF-16 *)

Lemma survives_nil : survives [].
Proof. by intros t. Qed.

Lemma survives_app (a b : jsstring) : survives a → survives b → survives (a ++ b).
Proof. intros Ha Hb t. by rewrite <- app_assoc, Ha, Hb, app_assoc. Qed.

Lemma not_surrogate (c : N) :
  c < 55296 → is_leading_surrogate c = false ∧ is_trailing_surrogate c = false.
Proof.
  intros H. unfold is_leading_surrogate, is_trailing_surrogate.
  split; apply andb_leb_false; lia.
Qed.

Lemma survives_unit (c : N) :
  is_leading_surrogate c = false → is_trailing_surrogate c = false →
  survives [c].
Proof. intros Hl Ht t. cbn [app toWellFormed]. by rewrite Hl, Ht. Qed.

Lemma survives_low (s : jsstring) : Forall (λ c, c < 55296) s → survives s.
Proof.
  induction 1 as [|c s Hc _ IH]; [apply survives_nil|].
  destruct (not_surrogate c Hc).
  apply (survives_app [c] s); [by apply survives_unit|exact IH].
Qed.

Lemma survives_concat (l : list jsstring) :
  Forall survives l → survives (concat l).
Proof.
  induction 1 as [|s l Hs _ IH]; [apply survives_nil|].
  cbn [concat]. by apply survives_app.
Qed.

Lemma hex_digit_low (n : N) : n < 16 → hex_digit n < 128.
Proof. unfold hex_digit. intros H. case_match; lia. Qed.

Lemma survives_UnicodeEscape (c : N) : survives (UnicodeEscape c).
Proof.
  apply survives_low. unfold UnicodeEscape.
  assert (Hm : ∀ x, hex_digit (x mod 16) < 55296).
  { intros x. pose proof (hex_digit_low (x mod 16)) as H.
    pose proof (N.mod_lt x 16). lia. }
  repeat constructor; try apply Hm; lia.
Qed.

Lemma survives_quote_unit (c : N) :
  is_leading_surrogate c = false → is_trailing_surrogate c = false →
  survives (quote_unit c).
Proof.
  intros Hl Ht. unfold quote_unit.
  repeat case_match; try (apply survives_low; repeat constructor; lia).
  - apply survives_UnicodeEscape.
  - by apply survives_unit.
Qed.

Lemma survives_quote_units (s : jsstring) : survives (quote_units s).
Proof.
  remember (length s) as n eqn:Hn.
  revert s Hn. induction n as [n IH] using lt_wf_ind. intros s Hn.
  destruct s as [|c s]; [apply survives_nil|].
  cbn [quote_units].
  destruct (is_leading_surrogate c) eqn:Hl.
  - destruct s as [|t s]; [apply survives_UnicodeEscape|].
    destruct (is_trailing_surrogate t) eqn:Ht.
    + intros u. cbn [app toWellFormed]. rewrite Hl, Ht.
      by rewrite (IH (length s)) by (cbn in Hn; done || lia).
    + apply survives_app; [apply survives_UnicodeEscape|].
      apply (IH (length (t :: s))); cbn in *; done || lia.
  - destruct (is_trailing_surrogate c) eqn:Ht.
    + apply survives_app; [apply survives_UnicodeEscape|].
      apply (IH (length s)); cbn in *; done || lia.
    + apply survives_app; [by apply survives_quote_unit|].
      apply (IH (length s)); cbn in *; done || lia.
Qed.

Lemma survives_QuoteJSONString (s : jsstring) : survives (QuoteJSONString s).
Proof.
  unfold QuoteJSONString. repeat apply survives_app;
    try apply survives_quote_units; apply survives_low; repeat constructor; lia.
Qed.

Lemma digit_chars_low (ds : list N) :
  Forall (λ d, d < 10) ds → Forall (λ c, c < 55296) (map digit_char ds).
Proof.
  intros H. apply Forall_forall. intros c (d & <- & Hd)%list_elem_of_In%in_map_iff.
  apply list_elem_of_In in Hd. rewrite Forall_forall in H. apply H in Hd.
  unfold digit_char. lia.
Qed.

Lemma survives_Number_toString (x : number) :
  canonical x = true → survives (Number_toString x).
Proof.
  intros Hx.
  destruct (canonical_cases x Hx) as [->|(d & ds & Hdigs & Hd0 & Hlast & Hall)].
  { apply survives_low. repeat constructor. }
  destruct x as [neg digs n]. cbn [digits] in Hdigs. subst digs.
  unfold Number_toString. cbn [digits negative exponent].
  pose proof (digit_chars_low _ Hall) as Hlow.
  assert (Hzeros : ∀ m, Forall (λ c, c < 55296) (repeat 48 m)).
  { intros m. apply Forall_forall. intros c ->%list_elem_of_In%repeat_spec. lia. }
  assert (Hdec : ∀ m, Forall (λ c, c < 55296) (decimal m)).
  { intros m. unfold decimal.
    destruct (decimal_digits_spec _ _ (decimal_fuel m)) as (_ & Hd & _).
    by apply digit_chars_low. }
  apply survives_low. apply Forall_app. split; [destruct neg; repeat constructor|].
  repeat case_match; subst;
    repeat first
      [ exact Hlow | apply Hzeros | apply Hdec
      | by apply Forall_take | by apply Forall_drop
      | exact (Forall_inv Hlow) | exact (Forall_inv_tail Hlow)
      | apply Forall_app; split | constructor | lia ].
Qed.

Lemma survives_join (sep : jsstring) (parts : list jsstring) :
  survives sep → Forall survives parts → survives (join sep parts).
Proof.
  intros Hsep [|p ps Hp Hps]; [apply survives_nil|]. cbn [join].
  apply survives_app; [exact Hp|]. apply survives_concat.
  apply Forall_forall. intros q (r & <- & Hr)%list_elem_of_In%in_map_iff.
  apply list_elem_of_In in Hr. rewrite Forall_forall in Hps.
  apply survives_app; [exact Hsep|by apply Hps].
Qed.

Lemma survives_ws (w : jsstring) : all_ws w → survives w.
Proof.
  intros H. apply survives_low. eapply Forall_impl; [exact H|].
  intros c. unfold is_ws. rewrite !orb_true_iff, !N.eqb_eq. lia.
Qed.

Lemma survives_bracket (o c : N) (gap stepback indent : jsstring)
    (parts : list jsstring) :
  o < 128 → c < 128 → all_ws stepback → all_ws indent →
  Forall survives parts → survives (bracket o c gap stepback indent parts).
Proof.
  intros Ho Hc Hs Hi Hparts. unfold bracket.
  assert (Hlow : ∀ l, Forall (λ c, c < 128) l → survives l).
  { intros l Hl. apply survives_low. eapply Forall_impl; [exact Hl|]. cbn. lia. }
  destruct parts as [|p ps]; [by apply Hlow; repeat constructor|].
  assert (Hjoin : ∀ sep, survives sep → survives (join sep (p :: ps)))
    by (intros sep Hsep; by apply survives_join).
  destruct gap as [|g gap].
  - apply (survives_app [o]); [apply Hlow; by repeat constructor|].
    apply survives_app; [|apply Hlow; by repeat constructor].
    apply Hjoin, Hlow. by repeat constructor.
  - apply (survives_app [o; 10]); [apply Hlow; by repeat constructor|].
    apply survives_app; [by apply survives_ws|].
    apply survives_app.
    { apply Hjoin, (survives_app [44; 10]); [|by apply survives_ws].
      apply Hlow. by repeat constructor. }
    apply (survives_app [10]); [apply Hlow; by repeat constructor|].
    apply survives_app; [by apply survives_ws|].
    apply Hlow. by repeat constructor.
Qed.

(** [JSON.stringify] never leaves a lone surrogate in its result. *)
Lemma survives_serialize (v : json) :
  serializable v → ∀ gap indent, all_ws gap → all_ws indent →
  survives (SerializeJSONProperty gap indent v).
Proof.
  induction v as [ |b|x|s|l IH|ps IH|neg] using json_induction;
    intros Hser gap indent Hgap Hindent; cbn [SerializeJSONProperty];
    [| | | | | |done].
  - apply survives_low. repeat constructor.
  - destruct b; apply survives_low; repeat constructor.
  - apply survives_Number_toString, Hser.
  - apply survives_QuoteJSONString.
  - apply serializable_array in Hser.
    apply survives_bracket; [lia|lia|done|by apply Forall_app|].
    apply Forall_forall. intros q (e & <- & He)%list_elem_of_In%in_map_iff.
    apply list_elem_of_In in He. rewrite Forall_forall in IH, Hser.
    apply IH; [done|by apply Hser|done|by apply Forall_app].
  - apply serializable_object in Hser as (_ & _ & Hser).
    apply survives_bracket; [lia|lia|done|by apply Forall_app|].
    apply Forall_forall. intros q (p & <- & Hp)%list_elem_of_In%in_map_iff.
    apply list_elem_of_In in Hp. rewrite Forall_forall in IH, Hser.
    apply survives_app; [apply survives_QuoteJSONString|].
    apply survives_app.
    + apply survives_low. unfold colon. destruct gap; repeat constructor.
    + apply IH; [done|by apply Hser|done|by apply Forall_app].
Qed.

Lemma toWellFormed_stringify (v : json) (space : option nat) (w : jsstring) :
  serializable v → all_ws w →
  toWellFormed (JSON_stringify v space ++ w) = JSON_stringify v space ++ w.
Proof.
  intros Hv Hw. unfold JSON_stringify.
  rewrite (survives_serialize v Hv _ [] (all_ws_spaces _) (Forall_nil_2 _)).
  f_equal. rewrite <- (app_nil_r w) at 1. rewrite (survives_ws w Hw).
  apply app_nil_r.
Qed.

(** ** The parser accepts every JSON text *)

Lemma parse_chars_unicode (h1 h2 h3 h4 a b c d : N) (w : jsstring) :
  hex_value h1 = Some a → hex_value h2 = Some b →
  hex_value h3 = Some c → hex_value h4 = Some d →
  parse_chars (92 :: 117 :: h1 :: h2 :: h3 :: h4 :: w)
  = parsed_map (cons (((a * 16 + b) * 16 + c) * 16 + d)) (parse_chars w).
Proof.
  intros H1 H2 H3 H4. cbn [parse_chars].
  change (92 =? 34) with false. change (92 =? 92) with true.
  change (117 =? 117) with true. cbv iota.
  by rewrite H1, H2, H3, H4.
Qed.

Lemma string_body_complete (t s rest : jsstring) :
  string_body t s → parse_chars (t ++ 34 :: rest) = Parsed s rest.
Proof.
  induction 1 as [|c t s H34 H92 H32 _ IH|e x t s He _ IH
                  |h1 h2 h3 h4 a b c d t s H1 H2 H3 H4 _ IH].
  - reflexivity.
  - cbn [app]. rewrite parse_chars_plain by assumption. by rewrite IH.
  - cbn [app]. rewrite (parse_chars_escape e x); [by rewrite IH| |exact He].
    by intros ->.
  - cbn [app]. rewrite (parse_chars_unicode h1 h2 h3 h4 a b c d) by assumption.
    by rewrite IH.
Qed.

Lemma parse_exponent_written (neg : bool) (int frac : list N) (e : N)
    (sg : exponent_sign) (es : list N) (rest : jsstring) :
  e = 101 ∨ e = 69 → digit_run es → no_digit_ahead rest = true →
  parse_exponent neg int frac (e :: sign_text sg ++ map digit_char es ++ rest)
  = Parsed (make_number neg int frac (signed sg (digits_value es))) rest.
Proof.
  intros He [Hne Hes] Hrest.
  assert (Hspan := span_digits_digits es rest Hes Hrest).
  cbn [parse_exponent].
  replace ((e =? 101) || (e =? 69)) with true
    by (by destruct He as [-> | ->]).
  destruct es as [|d es]; [done|]. pose proof (Forall_inv Hes) as Hd.
  destruct sg; cbn [sign_text app].
  - cbn [map app] in *.
    rewrite !(proj2 (N.eqb_neq (digit_char d) _)) by (unfold digit_char; lia).
    by rewrite Hspan.
  - change (43 =? 45) with false. change (43 =? 43) with true. cbv iota.
    by rewrite Hspan.
  - change (45 =? 45) with true. cbv iota. by rewrite Hspan.
Qed.

Lemma number_literal_complete (lit : jsstring) (x : number) (rest : jsstring) :
  number_literal lit x → delimited rest = true →
  parse_number (lit ++ rest) = Parsed x rest.
Proof.
  intros [neg int frac ftext etext e [Hne Hint] Hzero Hfrac Hexp] Hrest.
  pose proof (delimited_no_digit rest Hrest) as Hnd.
  assert (H46 : head rest ≠ Some 46) by (by apply delimited_head).
  rewrite <- !app_assoc.
  assert (Hexp' : ∀ fs, parse_exponent neg int fs (etext ++ rest)
                        = Parsed (make_number neg int fs e) rest).
  { intros fs. destruct Hexp as [|c sg es Hc Hes].
    - by apply parse_exponent_absent.
    - rewrite <- app_comm_cons, <- (app_assoc (sign_text sg)).
      by apply parse_exponent_written. }
  assert (Hend : no_digit_ahead (etext ++ rest) = true
                 ∧ head (etext ++ rest) ≠ Some 46).
  { destruct Hexp as [|c sg es Hc Hes]; [done|].
    cbn. split; [|destruct Hc; congruence].
    apply negb_true_iff, andb_leb_false. lia. }
  assert (Hfrac' : parse_fraction neg int (ftext ++ etext ++ rest)
                   = Parsed (make_number neg int frac e) rest).
  { destruct Hfrac as [|fs [Hfne Hfs]].
    - cbn [app]. rewrite parse_fraction_absent by apply Hend. apply Hexp'.
    - cbn [app].
      rewrite parse_fraction_present by (done || apply Hend). apply Hexp'. }
  assert (Hahead : no_digit_ahead (ftext ++ etext ++ rest) = true).
  { destruct Hfrac; [apply Hend|done]. }
  destruct Hzero as [->|Hhead].
  - change (map digit_char [0] ++ ?l) with (48 :: l).
    by rewrite parse_number_zero.
  - destruct int as [|d ds]; [done|].
    rewrite parse_number_int; [done| |by apply (Forall_inv Hint)
                               |by apply (Forall_inv_tail Hint)|done].
    intros ->. by apply Hhead.
Qed.

Lemma number_start (c : N) :
  c = 45 ∨ is_digit c = true → is_ws c = false ∧ c ≠ 93 ∧ c ≠ 125.
Proof.
  intros Hc. assert (Hr : 48 ≤ c ≤ 57 ∨ c = 45).
  { destruct Hc as [->|[?%N.leb_le ?%N.leb_le]%andb_true_iff]; lia. }
  unfold is_ws. rewrite !orb_false_iff, !N.eqb_neq. lia.
Qed.

Lemma number_literal_head (lit : jsstring) (x : number) :
  number_literal lit x →
  ∃ c t, lit = c :: t ∧ (c = 45 ∨ is_digit c = true).
Proof.
  intros [neg int frac ftext etext e [Hne Hint] _ _ _].
  destruct neg; [by eexists _, _; split; [reflexivity|left]|].
  destruct int as [|d ds]; [done|].
  eexists _, _. split; [reflexivity|]. right.
  apply is_digit_digit_char, (Forall_inv Hint).
Qed.

Lemma parse_value_array_empty (fuel : nat) (w rest : jsstring) :
  all_ws w → parse_value (S fuel) (91 :: w ++ 93 :: rest) = Parsed (JArray []) rest.
Proof.
  intros Hw. cbn [parse_value]. rewrite skip_ws_stop by done.
  change (91 =? 123) with false. change (91 =? 91) with true. cbv iota.
  by rewrite skip_ws_app, skip_ws_stop.
Qed.

Lemma parse_value_object_empty (fuel : nat) (w rest : jsstring) :
  all_ws w →
  parse_value (S fuel) (123 :: w ++ 125 :: rest) = Parsed (JObject []) rest.
Proof.
  intros Hw. cbn [parse_value]. rewrite skip_ws_stop by done.
  change (123 =? 123) with true. cbv iota.
  by rewrite skip_ws_app, skip_ws_stop.
Qed.

Lemma parse_members_member (fuel : nat) (w1 k key w2 t2 : jsstring)
    (acc : list (jsstring * json)) :
  all_ws w1 → string_body k key → all_ws w2 →
  parse_members (S fuel) (w1 ++ 34 :: k ++ 34 :: w2 ++ 58 :: t2) acc
  = match parse_value fuel t2 with
    | Parsed v rest2 =>
        match skip_ws rest2 with
        | [] => Unexpected []
        | c3 :: t3 =>
            if c3 =? 44 then parse_members fuel t3 (set_property key v acc)
            else if c3 =? 125 then Parsed (JObject (set_property key v acc)) t3
            else Unexpected (c3 :: t3)
        end
    | Unexpected r => Unexpected r
    | OutOfFuel => OutOfFuel
    end.
Proof.
  intros Hw1 Hk Hw2. cbn [parse_members].
  rewrite skip_ws_app, skip_ws_stop by done.
  change (34 =? 34) with true. cbv iota.
  rewrite (string_body_complete k key _ Hk).
  rewrite skip_ws_app, skip_ws_stop by done. reflexivity.
Qed.

Lemma starts_value_app (s t : jsstring) :
  starts_value s → starts_value (s ++ t).
Proof. by destruct s. Qed.

(** Every text of the grammar is read as the value it denotes. *)
Lemma json_text_complete :
  (∀ t v, value_text t v → starts_value t ∧ reads t v)
  ∧ (∀ body l, elements_text body l →
       (∃ w b, body = w ++ b ∧ all_ws w ∧ starts_value b)
       ∧ ∀ acc rest, ∃ fuel,
           parse_elements fuel (body ++ 93 :: rest) acc
           = Parsed (JArray (acc ++ l)) rest)
  ∧ (∀ body acc ps, members_text body acc ps →
       (∃ w b, body = w ++ b ∧ all_ws w ∧ starts_value b)
       ∧ ∀ rest, ∃ fuel,
           parse_members fuel (body ++ 125 :: rest) acc
           = Parsed (JObject ps) rest).
Proof.
  apply json_text_mutind.
  - split; [done|]. intros rest _. by exists 1%nat.
  - split; [done|]. intros rest _. by exists 1%nat.
  - split; [done|]. intros rest _. by exists 1%nat.
  - intros lit x Hlit.
    destruct (number_literal_head lit x Hlit) as (c & t & -> & Hc).
    split; [by apply number_start|]. intros rest Hrest. exists 1%nat.
    cbn [app]. rewrite parse_value_number by exact Hc.
    change (c :: t ++ rest) with ((c :: t) ++ rest).
    by rewrite (number_literal_complete _ _ _ Hlit Hrest).
  - intros t s Hbody. split; [done|]. intros rest _. exists 1%nat.
    cbn [app]. rewrite <- app_assoc.
    change (parse_value 1 (34 :: t ++ [34] ++ rest))
      with (parsed_map JString (parse_chars (t ++ 34 :: rest))).
    by rewrite (string_body_complete t s rest Hbody).
  - intros w Hw. split; [done|]. intros rest _. exists 1%nat.
    cbn [app]. rewrite <- app_assoc. by apply parse_value_array_empty.
  - intros body l _ [(w & b & -> & Hw & Hb) IH]. split; [done|].
    intros rest _. destruct (IH [] rest) as [f Hf]. exists (S f).
    cbn [app]. rewrite <- !app_assoc in *.
    rewrite parse_value_array_of; [|exact Hw|by apply starts_value_app].
    by rewrite parse_elements_skip in Hf.
  - intros w Hw. split; [done|]. intros rest _. exists 1%nat.
    cbn [app]. rewrite <- app_assoc. by apply parse_value_object_empty.
  - intros body ps _ [(w & b & -> & Hw & Hb) IH]. split; [done|].
    intros rest _. destruct (IH rest) as [f Hf]. exists (S f).
    cbn [app]. rewrite <- !app_assoc in *.
    rewrite parse_value_object_of; [|exact Hw|by apply starts_value_app].
    by rewrite parse_members_skip in Hf.
  - intros w1 t w2 v Hw1 _ [Ht IH] Hw2. split.
    { exists w1, (t ++ w2). repeat split; try done. by apply starts_value_app. }
    intros acc rest.
    destruct (IH (w2 ++ 93 :: rest)) as [f Hf]; [by apply delimited_ws|].
    exists (S f). rewrite <- !app_assoc. cbn [parse_elements].
    rewrite parse_value_skip, Hf by exact Hw1.
    by rewrite skip_ws_app, skip_ws_stop.
  - intros w1 t w2 body v l Hw1 _ [Ht IHv] Hw2 _ [_ IHl]. split.
    { exists w1, (t ++ w2 ++ 44 :: body). repeat split; try done.
      by apply starts_value_app. }
    intros acc rest.
    destruct (IHv (w2 ++ 44 :: body ++ 93 :: rest)) as [fv Hfv];
      [by apply delimited_ws|].
    destruct (IHl (acc ++ [v]) rest) as [fl Hfl].
    exists (S (max fv fl)). rewrite <- !app_assoc. cbn [app parse_elements].
    rewrite parse_value_skip by exact Hw1.
    rewrite (parse_value_more _ _ _ _ _ Hfv) by lia.
    rewrite skip_ws_app, skip_ws_stop by done.
    change (44 =? 44) with true. cbv iota.
    rewrite (parse_elements_more _ _ _ _ _ _ Hfl) by lia.
    by rewrite <- app_assoc.
  - intros w1 k w2 w3 t w4 key v acc Hw1 Hk Hw2 Hw3 _ [Ht IH] Hw4. split.
    { exists w1, (34 :: k ++ 34 :: w2 ++ 58 :: w3 ++ t ++ w4). by repeat split. }
    intros rest.
    destruct (IH (w4 ++ 125 :: rest)) as [f Hf]; [by apply delimited_ws|].
    exists (S f). repeat (progress (rewrite <- ?app_assoc; cbn [app])).
    rewrite (parse_members_member f w1 k key w2) by assumption.
    rewrite parse_value_skip, Hf by exact Hw3.
    by rewrite skip_ws_app, skip_ws_stop.
  - intros w1 k w2 w3 t w4 body key v acc ps Hw1 Hk Hw2 Hw3 _ [Ht IHv] Hw4 _
      [_ IHm]. split.
    { exists w1, (34 :: k ++ 34 :: w2 ++ 58 :: w3 ++ t ++ w4 ++ 44 :: body).
      by repeat split. }
    intros rest.
    destruct (IHv (w4 ++ 44 :: body ++ 125 :: rest)) as [fv Hfv];
      [by apply delimited_ws|].
    destruct (IHm rest) as [fm Hfm].
    exists (S (max fv fm)). repeat (progress (rewrite <- ?app_assoc; cbn [app])).
    rewrite (parse_members_member _ w1 k key w2) by assumption.
    rewrite parse_value_skip by exact Hw3.
    rewrite (parse_value_more _ _ _ _ _ Hfv) by lia.
    rewrite skip_ws_app, skip_ws_stop by done.
    change (44 =? 44) with true. cbv iota.
    by rewrite (parse_members_more _ _ _ _ _ _ Hfm) by lia.
Qed.

(** ** The parser accepts JSON texts only *)

Lemma skip_ws_split (s : jsstring) : ∃ w, s = w ++ skip_ws s ∧ all_ws w.
Proof.
  induction s as [|c t (w & Ht & Hw)]; [by exists []; split; [|constructor]|].
  cbn [skip_ws]. destruct (is_ws c) eqn:Hc.
  - exists (c :: w). split; [cbn; by rewrite <- Ht|by constructor].
  - exists []. split; [done|constructor].
Qed.

Lemma skip_ws_nil (s : jsstring) : skip_ws s = [] → all_ws s.
Proof.
  intros H. destruct (skip_ws_split s) as (w & Hs & Hw).
  rewrite H, app_nil_r in Hs. by subst.
Qed.

Lemma parse_chars_sound (s v rest : jsstring) :
  parse_chars s = Parsed v rest → ∃ t, s = t ++ 34 :: rest ∧ string_body t v.
Proof.
  assert (Hgen : ∀ n s, (length s ≤ n)%nat → ∀ v rest,
            parse_chars s = Parsed v rest →
            ∃ t, s = t ++ 34 :: rest ∧ string_body t v);
    [|by apply (Hgen (length s))].
  clear. induction n as [|n IH]; intros s Hn v rest.
  { destruct s; [done|cbn in Hn; lia]. }
  destruct s as [|c t]; [done|]. cbn [length] in Hn. cbn [parse_chars].
  destruct (N.eqb_spec c 34) as [->|H34].
  { intros [= <- <-]. exists []. split; [done|constructor]. }
  destruct (N.eqb_spec c 92) as [->|H92].
  - destruct t as [|e u]; [done|]. cbn [length] in Hn.
    destruct (N.eqb_spec e 117) as [->|H117].
    + destruct u as [|h1 [|h2 [|h3 [|h4 w]]]]; try done.
      destruct (hex_value h1) as [a|] eqn:H1; [|done].
      destruct (hex_value h2) as [b|] eqn:H2; [|done].
      destruct (hex_value h3) as [c|] eqn:H3; [|done].
      destruct (hex_value h4) as [d|] eqn:H4; [|done].
      intros (s' & Hp & ->)%parsed_map_Parsed.
      apply IH in Hp as (t' & -> & Hbody); [|cbn [length] in Hn; lia].
      exists (92 :: 117 :: h1 :: h2 :: h3 :: h4 :: t').
      split; [done|by apply body_unicode].
    + destruct (unescape e) as [x|] eqn:He; [|done].
      intros (s' & Hp & ->)%parsed_map_Parsed.
      apply IH in Hp as (t' & -> & Hbody); [|lia].
      exists (92 :: e :: t'). split; [done|by apply body_escape].
  - destruct (N.ltb_spec c 32) as [|H32]; [done|].
    intros (s' & Hp & ->)%parsed_map_Parsed.
    apply IH in Hp as (t' & -> & Hbody); [|lia].
    exists (c :: t'). split; [done|by apply body_char].
Qed.

Lemma is_digit_value (c : N) :
  is_digit c = true → c - 48 < 10 ∧ digit_char (c - 48) = c.
Proof.
  intros [?%N.leb_le ?%N.leb_le]%andb_true_iff. unfold digit_char. lia.
Qed.

Lemma span_digits_split (s : jsstring) (ds : list N) (r : jsstring) :
  span_digits s = (ds, r) →
  s = map digit_char ds ++ r ∧ Forall (λ d, d < 10) ds
  ∧ no_digit_ahead r = true.
Proof.
  revert ds r. induction s as [|c t IH]; intros ds r; cbn [span_digits].
  { intros [= <- <-]. by repeat split. }
  destruct (is_digit c) eqn:Hc.
  - destruct (span_digits t) as [ds' r'].
    destruct (IH ds' r' eq_refl) as (-> & Hds & Hr).
    destruct (is_digit_value c Hc) as [Hlt Hchar].
    intros [= <- <-]. cbn [map app]. rewrite Hchar.
    by repeat split; [constructor|].
  - intros [= <- <-]. repeat split; [constructor|]. cbn. by rewrite Hc.
Qed.

Lemma parse_exponent_sound (neg : bool) (int frac : list N) (s : jsstring)
    (x : number) (rest : jsstring) :
  parse_exponent neg int frac s = Parsed x rest →
  ∃ etext e, s = etext ++ rest ∧ exponent_text etext e
             ∧ x = make_number neg int frac e.
Proof.
  unfold parse_exponent.
  destruct s as [|c t].
  { intros [= <- <-]. exists [], 0%Z. split; [done|]. split; [constructor|done]. }
  destruct ((c =? 101) || (c =? 69)) eqn:Hc.
  2:{ intros [= <- <-]. exists [], 0%Z. split; [done|]. split; [constructor|done]. }
  assert (Hc' : c = 101 ∨ c = 69).
  { apply orb_true_iff in Hc as [?%N.eqb_eq|?%N.eqb_eq]; [by left|by right]. }
  assert (Hgen : ∀ sg u (val : list N → Z), t = sign_text sg ++ u →
    (∀ es, val es = signed sg (digits_value es)) →
    match span_digits u with
    | ([], _) => Unexpected u
    | (es, r) => Parsed (make_number neg int frac (val es)) r
    end = Parsed x rest →
    ∃ etext e, c :: t = etext ++ rest ∧ exponent_text etext e
               ∧ x = make_number neg int frac e).
  { intros sg u val -> Hval Hp.
    destruct (span_digits u) as [[|e es] r] eqn:Hspan; [done|].
    injection Hp as <- <-. rewrite Hval.
    apply span_digits_split in Hspan as (-> & Hes & _).
    exists (c :: sign_text sg ++ map digit_char (e :: es)),
           (signed sg (digits_value (e :: es))).
    split; [cbn [app]; by rewrite <- app_assoc|]. split; [|done].
    by apply exponent_some. }
  destruct t as [|sg t']; [done|].
  destruct (N.eqb_spec sg 45) as [->|H45].
  { by apply (Hgen MinusSign t' (λ es, - Z.of_N (digits_value es))%Z). }
  destruct (N.eqb_spec sg 43) as [->|H43].
  { by apply (Hgen PlusSign t' (λ es, Z.of_N (digits_value es))). }
  by apply (Hgen NoSign (sg :: t') (λ es, Z.of_N (digits_value es))).
Qed.

Lemma parse_fraction_sound (neg : bool) (int : list N) (s : jsstring)
    (x : number) (rest : jsstring) :
  parse_fraction neg int s = Parsed x rest →
  ∃ ftext frac etext e,
    s = ftext ++ etext ++ rest ∧ fraction_text ftext frac
    ∧ exponent_text etext e ∧ x = make_number neg int frac e.
Proof.
  unfold parse_fraction.
  assert (Hnone : parse_exponent neg int [] s = Parsed x rest →
    ∃ ftext frac etext e,
      s = ftext ++ etext ++ rest ∧ fraction_text ftext frac
      ∧ exponent_text etext e ∧ x = make_number neg int frac e).
  { intros (etext & e & -> & He & ->)%parse_exponent_sound.
    exists [], [], etext, e. split; [done|]. split; [constructor|done]. }
  destruct s as [|c t]; [exact Hnone|].
  destruct (N.eqb_spec c 46) as [->|H46]; [|exact Hnone].
  destruct (span_digits t) as [[|f fs] r] eqn:Hspan; [done|].
  apply span_digits_split in Hspan as (-> & Hfs & _).
  intros (etext & e & -> & He & ->)%parse_exponent_sound.
  exists (46 :: map digit_char (f :: fs)), (f :: fs), etext, e.
  split; [done|]. split; [|done].
  by apply fraction_some.
Qed.

Lemma parse_number_sound (s : jsstring) (x : number) (rest : jsstring) :
  parse_number s = Parsed x rest →
  ∃ lit, s = lit ++ rest ∧ number_literal lit x.
Proof.
  unfold parse_number.
  assert (Hgen : ∀ neg s1, s = sign neg ++ s1 →
    match s1 with
    | [] => Unexpected []
    | c :: t =>
        if c =? 48 then parse_fraction neg [0] t
        else if is_digit c then
          let (ds, r) := span_digits t in parse_fraction neg ((c - 48) :: ds) r
        else Unexpected s1
    end = Parsed x rest →
    ∃ lit, s = lit ++ rest ∧ number_literal lit x).
  { intros neg [|c t] ->; [done|].
    destruct (N.eqb_spec c 48) as [->|H48].
    - intros (ftext & frac & etext & e & -> & Hf & He & ->)%parse_fraction_sound.
      exists (sign neg ++ map digit_char [0] ++ ftext ++ etext).
      split; [by rewrite <- !app_assoc|].
      apply number_lit; try done; [|by left].
      split; [done|]. repeat constructor.
    - destruct (is_digit c) eqn:Hc; [|done].
      destruct (is_digit_value c Hc) as [Hlt Hchar].
      destruct (span_digits t) as [ds r] eqn:Hspan.
      apply span_digits_split in Hspan as (-> & Hds & _).
      intros (ftext & frac & etext & e & -> & Hf & He & ->)%parse_fraction_sound.
      exists (sign neg ++ map digit_char ((c - 48) :: ds) ++ ftext ++ etext).
      split.
      { cbn [map]. rewrite Hchar. by rewrite <- !app_assoc. }
      apply number_lit; try done; [by split; [|constructor]|].
      right. cbn. intros [= Hz]. apply H48.
      apply andb_true_iff in Hc as [?%N.leb_le _]. lia. }
  destruct s as [|c t]; [done|].
  destruct (N.eqb_spec c 45) as [->|H45].
  - apply (Hgen true t eq_refl).
  - apply (Hgen false (c :: t) eq_refl).
Qed.

Lemma expect_sound (word s rest : jsstring) :
  expect word s = Some rest → s = word ++ rest.
Proof.
  revert s. induction word as [|w word IH]; intros s; cbn [expect].
  - by intros [= ->].
  - destruct s as [|c t]; [done|]. destruct (N.eqb_spec c w) as [->|]; [|done].
    intros ->%IH. done.
Qed.

Lemma parse_keyword_sound (word : jsstring) (v : json) (s : jsstring)
    (v' : json) (rest : jsstring) :
  parse_keyword word v s = Parsed v' rest → s = word ++ rest ∧ v' = v.
Proof.
  unfold parse_keyword. destruct (expect word s) eqn:He; [|done].
  intros [= <- <-]. by apply expect_sound in He.
Qed.

Lemma all_ws_app (w1 w2 : jsstring) : all_ws w1 → all_ws w2 → all_ws (w1 ++ w2).
Proof. intros. by apply Forall_app. Qed.

Lemma elements_text_ws (w body : jsstring) (l : list json) :
  all_ws w → elements_text body l → elements_text (w ++ body) l.
Proof.
  intros Hw [w1 t w2 v Hw1 Ht Hw2|w1 t w2 body' v l' Hw1 Ht Hw2 Hl];
    rewrite (app_assoc w w1).
  - apply elements_last; [by apply all_ws_app|done|done].
  - apply elements_more; [by apply all_ws_app|done|done|done].
Qed.

Lemma members_text_ws (w body : jsstring) (acc ps : list (jsstring * json)) :
  all_ws w → members_text body acc ps → members_text (w ++ body) acc ps.
Proof.
  intros Hw [w1 k w2 w3 t w4 key v acc' Hw1 Hk Hw2 Hw3 Ht Hw4
            |w1 k w2 w3 t w4 body' key v acc' ps' Hw1 Hk Hw2 Hw3 Ht Hw4 Hm];
    rewrite (app_assoc w w1).
  - apply (members_last (w ++ w1) k w2 w3 t w4 key v acc'); try done.
    by apply all_ws_app.
  - apply (members_more (w ++ w1) k w2 w3 t w4 body' key v acc' ps');
      try done. by apply all_ws_app.
Qed.

(** Whatever the parser reads is a text of the grammar with that value. *)
Lemma parse_sound (fuel : nat) :
  (∀ s v rest, parse_value fuel s = Parsed v rest →
     ∃ w t, s = w ++ t ++ rest ∧ all_ws w ∧ value_text t v)
  ∧ (∀ s acc v rest, parse_elements fuel s acc = Parsed v rest →
       ∃ body l, s = body ++ 93 :: rest ∧ elements_text body l
                 ∧ v = JArray (acc ++ l))
  ∧ (∀ s acc v rest, parse_members fuel s acc = Parsed v rest →
       ∃ body ps, s = body ++ 125 :: rest ∧ members_text body acc ps
                  ∧ v = JObject ps).
Proof.
  induction fuel as [|fuel (IHv & IHe & IHm)]; [by repeat split|].
  split; [|split].
  - intros s v rest. cbn [parse_value].
    destruct (skip_ws_split s) as (w & Hs & Hw).
    destruct (skip_ws s) as [|c t]; [done|]. rewrite Hs. clear Hs.
    assert (Hword : ∀ word v0, parse_keyword word v0 (c :: t) = Parsed v rest →
              value_text word v0 →
              ∃ w0 t0, w ++ c :: t = w0 ++ t0 ++ rest ∧ all_ws w0
                       ∧ value_text t0 v).
    { intros word v0 [Ht ->]%parse_keyword_sound Hv0. rewrite Ht.
      by exists w, word. }
    destruct (N.eqb_spec c 123) as [->|_].
    { destruct (skip_ws_split t) as (w' & Ht & Hw').
      destruct (skip_ws t) as [|c' t']; [done|]. rewrite Ht. clear Ht.
      destruct (N.eqb_spec c' 125) as [->|_].
      - intros [= <- <-]. exists w, (123 :: w' ++ [125]).
        split; [by repeat (progress (rewrite <- ?app_assoc; cbn [app]))|]. split; [done|].
        by apply text_object_empty.
      - intros (body & ps & Hb & Hm & ->)%IHm. rewrite Hb.
        exists w, (123 :: (w' ++ body) ++ [125]).
        split; [by repeat (progress (rewrite <- ?app_assoc; cbn [app]))|]. split; [done|].
        by apply text_object, members_text_ws. }
    destruct (N.eqb_spec c 91) as [->|_].
    { destruct (skip_ws_split t) as (w' & Ht & Hw').
      destruct (skip_ws t) as [|c' t']; [done|]. rewrite Ht. clear Ht.
      destruct (N.eqb_spec c' 93) as [->|_].
      - intros [= <- <-]. exists w, (91 :: w' ++ [93]).
        split; [by repeat (progress (rewrite <- ?app_assoc; cbn [app]))|]. split; [done|].
        by apply text_array_empty.
      - intros (body & l & Hb & Hl & ->)%IHe. rewrite Hb.
        exists w, (91 :: (w' ++ body) ++ [93]).
        split; [by repeat (progress (rewrite <- ?app_assoc; cbn [app]))|]. split; [done|].
        by apply text_array, elements_text_ws. }
    destruct (N.eqb_spec c 34) as [->|_].
    { intros (s' & (t' & -> & Hbody)%parse_chars_sound & ->)%parsed_map_Parsed.
      exists w, (34 :: t' ++ [34]).
      split; [by repeat (progress (rewrite <- ?app_assoc; cbn [app]))|]. split; [done|].
      by apply text_string. }
    destruct (N.eqb_spec c 116) as [->|_];
      [intros Hp; apply (Hword _ _ Hp); constructor|].
    destruct (N.eqb_spec c 102) as [->|_];
      [intros Hp; apply (Hword _ _ Hp); constructor|].
    destruct (N.eqb_spec c 110) as [->|_];
      [intros Hp; apply (Hword _ _ Hp); constructor|].
    destruct ((c =? 45) || is_digit c); [|done].
    intros (x & (lit & Hlit & Hx)%parse_number_sound & ->)%parsed_map_Parsed.
    rewrite Hlit. exists w, lit. split; [done|]. split; [done|].
    by apply text_number.
  - intros s acc v rest. cbn [parse_elements].
    destruct (parse_value fuel s) as [v1 r1| |] eqn:Ev; [|done|done].
    apply IHv in Ev as (w & t & -> & Hw & Ht).
    destruct (skip_ws_split r1) as (w2 & Hr & Hw2).
    destruct (skip_ws r1) as [|c t2]; [done|]. rewrite Hr. clear Hr.
    destruct (N.eqb_spec c 44) as [->|_].
    { intros (body & l & -> & Hl & ->)%IHe.
      exists (w ++ t ++ w2 ++ 44 :: body), (v1 :: l).
      split; [by repeat (progress (rewrite <- ?app_assoc; cbn [app]))|].
      split; [by apply elements_more|]. by rewrite <- app_assoc. }
    destruct (N.eqb_spec c 93) as [->|_]; [|done].
    intros [= <- <-]. exists (w ++ t ++ w2), [v1].
    split; [by repeat (progress (rewrite <- ?app_assoc; cbn [app]))|].
    split; [by apply elements_last|done].
  - intros s acc v rest. cbn [parse_members].
    destruct (skip_ws_split s) as (w1 & Hs & Hw1).
    destruct (skip_ws s) as [|q t]; [done|]. rewrite Hs. clear Hs.
    destruct (N.eqb_spec q 34) as [->|_]; [|done].
    destruct (parse_chars t) as [key r1| |] eqn:Ek; [|done|done].
    apply parse_chars_sound in Ek as (k & -> & Hk).
    destruct (skip_ws_split r1) as (w2 & Hr & Hw2).
    destruct (skip_ws r1) as [|c t2]; [done|]. rewrite Hr. clear Hr.
    destruct (N.eqb_spec c 58) as [->|_]; [|done].
    destruct (parse_value fuel t2) as [v1 r2| |] eqn:Ev; [|done|done].
    apply IHv in Ev as (w3 & t' & -> & Hw3 & Ht).
    destruct (skip_ws_split r2) as (w4 & Hr & Hw4).
    destruct (skip_ws r2) as [|c3 t3]; [done|]. rewrite Hr. clear Hr.
    destruct (N.eqb_spec c3 44) as [->|_].
    { intros (body & ps & -> & Hm & ->)%IHm.
      exists (w1 ++ 34 :: k ++ 34 :: w2 ++ 58 :: w3 ++ t' ++ w4 ++ 44 :: body), ps.
      split; [by repeat (progress (rewrite <- ?app_assoc; cbn [app]))|].
      split; [by apply (members_more w1 k w2 w3 t' w4 body key v1)|done]. }
    destruct (N.eqb_spec c3 125) as [->|_]; [|done].
    intros [= <- <-].
    exists (w1 ++ 34 :: k ++ 34 :: w2 ++ 58 :: w3 ++ t' ++ w4),
           (set_property key v1 acc).
    split; [by repeat (progress (rewrite <- ?app_assoc; cbn [app]))|].
    split; [by apply members_last|done].
Qed.

(** [JSON.parse] accepts exactly the texts of the JSON grammar, with the
    value the grammar gives them. *)
Lemma JSON_parse_JSONText `{Engine} (raw : jsstring) (v : json) :
  JSON_parse raw = inl v ↔ JSONText raw v.
Proof.
  split.
  - unfold JSON_parse.
    destruct (parse_value _ raw) as [v' rest| |] eqn:Hp; [|done|done].
    destruct (skip_ws rest) eqn:Hrest; [|done]. intros [= ->].
    apply (proj1 (parse_sound _)) in Hp as (w & t & -> & Hw & Ht).
    exists w, t, rest. repeat split; try done. by apply skip_ws_nil.
  - intros (w1 & t & w2 & -> & Hw1 & Hw2 & Ht).
    destruct (proj1 json_text_complete t v Ht) as [_ Hreads].
    destruct (Hreads w2 (delimited_all_ws w2 Hw2)) as [f Hf].
    unfold JSON_parse.
    assert (Hp : parse_value (2 * length (w1 ++ t ++ w2) + 1) (w1 ++ t ++ w2)
                 = Parsed v w2).
    { rewrite parse_value_skip by exact Hw1.
      destruct (Nat.le_ge_cases f (2 * length (w1 ++ t ++ w2) + 1)) as [Hle|Hge].
      - by apply (parse_value_more f).
      - rewrite <- Hf. symmetry. apply (proj1 (parse_fuel_mono _)); [exact Hge|].
        rewrite <- (parse_value_skip _ w1) by exact Hw1. apply JSON_parse_fuel. }
    rewrite Hp. by rewrite skip_ws_all.
Qed.

(** What [JSON.parse] throws is the [SyntaxError] of the engine for the
    text, and it throws for no other reason. *)
Lemma JSON_parse_cases `{Engine} (raw : jsstring) :
  (∃ v, JSON_parse raw = inl v)
  ∨ JSON_parse raw = inr (SyntaxError (SyntaxError_message raw)).
Proof.
  unfold JSON_parse. pose proof (JSON_parse_fuel raw) as Hfuel.
  destruct (parse_value (2 * length raw + 1) raw) as [v rest|r|]; [| |done].
  - destruct (skip_ws rest) as [|c t]; [left; by exists v|by right].
  - by right.
Qed.

(** [parseConfigJson5] on a config text, and on texts that are JSON5 but not
    JSON: an unquoted name, a trailing comma, a comment, a single-quoted
    string.  Numbers are read as doubles and array indices among the names
    of an object come first. *)
Example parseConfigJson5_accepts `{Engine} :
  Config.parseConfigJson5
    (str "{ " ++ quoted "gateway" ++ str ": {" ++ quoted "port"
     ++ str ": 18790, " ++ quoted "bind" ++ str ": " ++ quoted "loopback"
     ++ str "}, " ++ quoted "scale" ++ str ": [-1.50e1, 0.25, true, null] }")
  = Config.ParseOk
      (JObject
         [(str "gateway",
           JObject [(str "port",
                     JNumber {| negative := false; digits := [1; 8; 7; 9];
                                exponent := 5 |});
                    (str "bind", JString (str "loopback"))]);
          (str "scale",
           JArray [JNumber {| negative := true; digits := [1; 5];
                              exponent := 2 |};
                   JNumber {| negative := false; digits := [2; 5];
                              exponent := 0 |};
                   JBool true; JNull])]).
Proof. vm_compute. reflexivity. Qed.

Example parseConfigJson5_rounds `{Engine} :
  Config.parseConfigJson5 (str "[9007199254740993, 1e400, -1e-400]")
  = Config.ParseOk
      (JArray [JNumber {| negative := false;
                          digits := [9; 0; 0; 7; 1; 9; 9; 2; 5; 4; 7; 4; 0; 9;
                                     9; 2];
                          exponent := 16 |};
               JInfinity false;
               JNumber {| negative := true; digits := []; exponent := 0 |}]).
Proof. vm_compute. reflexivity. Qed.

Example parseConfigJson5_orders `{Engine} :
  Config.parseConfigJson5
    (str "{" ++ quoted "b" ++ str ":1," ++ quoted "10" ++ str ":2,"
     ++ quoted "9" ++ str ":3," ++ quoted "b" ++ str ":4}")
  = Config.ParseOk
      (JObject
         [(str "9", JNumber {| negative := false; digits := [3];
                               exponent := 1 |});
          (str "10", JNumber {| negative := false; digits := [2];
                                exponent := 1 |});
          (str "b", JNumber {| negative := false; digits := [4];
                               exponent := 1 |})]).
Proof. vm_compute. reflexivity. Qed.

Example parseConfigJson5_rejects_json5 `{Engine} :
  Config.parse_ok (Config.parseConfigJson5 (str "{port: 18790}")) = false
  ∧ Config.parse_ok (Config.parseConfigJson5 (str "[1, 2, ]")) = false
  ∧ Config.parse_ok (Config.parseConfigJson5 (str "// note" ++ [10] ++ str "{}"))
    = false
  ∧ Config.parse_ok (Config.parseConfigJson5 (str "{'port': 1}")) = false
  ∧ Config.parse_ok (Config.parseConfigJson5 (str "01")) = false
  ∧ Config.parse_ok (Config.parseConfigJson5 []) = false.
Proof. vm_compute. repeat split. Qed.

(** ** The config module double *)

(** C8: [validateConfigObject] accepts every input: the result has
    [ok: true], no issue, and the input as its config. *)
Theorem validateConfigObject_accepts {A : Type} (parsed : A) :
  Config.ok (Config.validateConfigObject parsed) = true
  ∧ Config.validation_issues (Config.validateConfigObject parsed) = []
  ∧ Config.validated_config (Config.validateConfigObject parsed) = parsed.
Proof. repeat split. Qed.

Section ConfigClaims.
Import Config.
Context {engine : Engine}.

(** C9: [parseConfigJson5] returns for every string, and never by way of
    the recursion bound of the embedding: larger bounds read the same.  It
    returns the first result, with the value the text denotes, exactly when
    the string is a JSON text, and otherwise the second result, whose error
    is what [String] makes of the [SyntaxError] that [JSON.parse] throws
    for the string: its name and the engine's message. *)
Theorem parseConfigJson5_total (raw : jsstring) :
  parse_value (2 * length raw + 1) raw ≠ OutOfFuel
  ∧ (∀ fuel, (2 * length raw + 1 ≤ fuel)%nat →
       parse_value fuel raw = parse_value (2 * length raw + 1) raw)
  ∧ (∀ v, parseConfigJson5 raw = ParseOk v ↔ JSONText raw v)
  ∧ (parse_ok (parseConfigJson5 raw) = true ↔ ∃ v, JSONText raw v)
  ∧ (parse_ok (parseConfigJson5 raw) = false ↔
       parseConfigJson5 raw
       = ParseFailed (named (str "SyntaxError") (SyntaxError_message raw))).
Proof.
  pose proof (JSON_parse_fuel raw) as Hfuel.
  split; [exact Hfuel|]. split.
  { intros fuel Hle. by apply (proj1 (parse_fuel_mono _)). }
  assert (Hok : ∀ v, parseConfigJson5 raw = ParseOk v ↔ JSON_parse raw = inl v).
  { intros v. unfold parseConfigJson5.
    destruct (JSON_parse raw); split; by intros [= ->]. }
  split; [|split].
  - intros v. by rewrite Hok, JSON_parse_JSONText.
  - setoid_rewrite <- JSON_parse_JSONText. unfold parseConfigJson5.
    destruct (JSON_parse raw) as [v|e]; cbn; split; try done.
    + by exists v.
    + by intros [v ?].
  - unfold parseConfigJson5.
    destruct (JSON_parse_cases raw) as [[v ->]| ->]; cbn; by split.
Qed.

Lemma written_text (props : list (jsstring * json)) :
  serializable (JObject props) →
  toWellFormed (trimEnd (JSON_stringify (JObject props) (Some 2%nat)) ++ [10])
  = JSON_stringify (JObject props) (Some 2%nat) ++ [10].
Proof.
  intros Hcfg. rewrite trimEnd_object.
  apply toWellFormed_stringify; [exact Hcfg|by repeat constructor].
Qed.

(** The tree after the directories on the way to [dir] were made. *)
Lemma node_at_insert (t : gmap (list jsstring) node) (key : list jsstring)
    (n : node) :
  key ≠ [] → node_at (<[ key := n ]> t) key = Some n.
Proof. destruct key; [done|]. intros _. cbn. apply lookup_insert_eq. Qed.

Lemma node_at_insert_ne (t : gmap (list jsstring) node)
    (key key' : list jsstring) (n : node) :
  key ≠ key' → node_at (<[ key := n ]> t) key' = node_at t key'.
Proof. destruct key'; [done|]. intros Hne. cbn. by apply lookup_insert_ne. Qed.

(** What a fulfilled write has done: the call is on record, the directories
    on the way to the config file are there, and the file holds the text. *)
Lemma writeConfigFile_fulfilled (cfg : json) (w : world) :
  fst (writeConfigFile cfg w) = Fulfilled tt →
  path_failure (resolveConfigPath w) = None
  ∧ resolve (cwd w) (resolveConfigPath w) ≠ []
  ∧ existsb (is_file (tree w))
      (prefixes (resolve (cwd w) (path_dirname (resolveConfigPath w)))) = false
  ∧ snd (writeConfigFile cfg w)
    = {| testConfigRoot := testConfigRoot w; legacyIssues := legacyIssues w;
         legacyParsed := legacyParsed w; cwd := cwd w;
         tree :=
           <[ resolve (cwd w) (resolveConfigPath w) :=
                File (toWellFormed
                        (trimEnd (JSON_stringify cfg (Some 2%nat)) ++ [10])) ]>
             (with_dirs
                (prefixes (resolve (cwd w)
                             (path_dirname (resolveConfigPath w))))
                (tree w));
         writeConfigFileCalls := writeConfigFileCalls w ++ [cfg] |}.
Proof.
  unfold writeConfigFile, bind, record_call, modify, gets, ret. cbn [fst snd].
  unfold fs_mkdir. cbn [cwd tree].
  change (resolveConfigPath {| testConfigRoot := testConfigRoot w;
            legacyIssues := _; legacyParsed := _; cwd := _; tree := _;
            writeConfigFileCalls := _ |}) with (resolveConfigPath w).
  destruct (path_failure (path_dirname (resolveConfigPath w))); [done|].
  destruct (is_file (tree w) _); [done|].
  destruct (existsb _ _) eqn:Hfiles; [done|].
  unfold fs_writeFile, with_tree. cbn [cwd tree testConfigRoot legacyIssues
                                       legacyParsed writeConfigFileCalls].
  destruct (path_failure (resolveConfigPath w)); [done|].
  destruct (node_at _ (removelast _)) as [[|?]|]; [|done|done].
  destruct (resolve (cwd w) (resolveConfigPath w)) as [|seg key] eqn:Hkey;
    [done|].
  destruct (node_at _ (seg :: key)) as [[|?]|]; [done| |]; by intros _.
Qed.

(** The snapshot of a world with a file of JSON text at the config path. *)
Lemma snapshot_of_text (w : world) (text : jsstring) (v : json) :
  legacyIssues w = [] → path_failure (resolveConfigPath w) = None →
  node_at (tree w) (resolve (cwd w) (resolveConfigPath w)) = Some (File text) →
  JSON_parse text = inl v →
  readConfigFileSnapshot w
  = (Fulfilled
       {| path := resolveConfigPath w; exists_ := true; raw := Some text;
          parsed := v; valid := true; config := v;
          hash := hashConfigRaw (Some text); issues := [];
          snapshot_legacyIssues := [] |}, w).
Proof.
  intros Hlegacy Hpath Hnode Hparse.
  unfold readConfigFileSnapshot, bind, gets, ret, fs_access, fs_readFile, gets.
  cbn [fst snd]. rewrite Hlegacy, Hpath, Hnode.
  rewrite bool_decide_eq_true_2 by (by eexists). cbn [negb].
  by rewrite Hnode, Hparse.
Qed.

End ConfigClaims.

(** A concrete value is serializable by evaluation. *)
Ltac solve_serializable :=
  repeat first
    [ progress cbn [serializable foldr keys map fst snd enumeration_order]
    | match goal with
      | |- _ ∧ _ => split
      | |- True => exact I
      | |- NoDup _ => apply (bool_decide_unpack _); vm_compute; exact I
      | |- Forall _ _ =>
          repeat (constructor; [vm_compute; reflexivity|]); constructor
      | |- _ = _ => vm_compute; reflexivity
      end ].

(** ** Snapshots of the config file *)

Section ConfigSnapshots.
Import Config.
Context {engine : Engine}.

Lemma issues_copied (l : list issue) :
  map (λ i, {| issue_path := issue_path i; issue_message := issue_message i |}) l
  = l.
Proof. induction l as [|[p m] l IH]; [done|]. cbn. by rewrite IH. Qed.

(** The four snapshots, by what is at the config path. *)
Lemma snapshot_cases (w : world) :
  legacyIssues w = [] →
  readConfigFileSnapshot w
  = (Fulfilled
       match
         match path_failure (resolveConfigPath w) with
         | Some _ => None
         | None => node_at (tree w) (resolve (cwd w) (resolveConfigPath w))
         end
       with
       | None =>
           {| path := resolveConfigPath w; exists_ := false; raw := None;
              parsed := JObject []; valid := true; config := JObject [];
              hash := hashConfigRaw None; issues := [];
              snapshot_legacyIssues := [] |}
       | Some (File text) =>
           match JSON_parse text with
           | inl v =>
               {| path := resolveConfigPath w; exists_ := true;
                  raw := Some text; parsed := v; valid := true; config := v;
                  hash := hashConfigRaw (Some text); issues := [];
                  snapshot_legacyIssues := [] |}
           | inr err =>
               {| path := resolveConfigPath w; exists_ := true; raw := None;
                  parsed := JObject []; valid := false; config := JObject [];
                  hash := hashConfigRaw None;
                  issues := [{| issue_path := [];
                                issue_message :=
                                  str "read failed: " ++ String_of_error err |}];
                  snapshot_legacyIssues := [] |}
           end
       | Some Dir =>
           {| path := resolveConfigPath w; exists_ := true; raw := None;
              parsed := JObject []; valid := false; config := JObject [];
              hash := hashConfigRaw None;
              issues := [{| issue_path := [];
                            issue_message :=
                              str "read failed: "
                              ++ SystemError_string
                                   (ReadFile (resolveConfigPath w))
                                   IsADirectory |}];
              snapshot_legacyIssues := [] |}
       end, w).
Proof.
  intros Hlegacy.
  unfold readConfigFileSnapshot, bind, gets, ret, fs_access, fs_readFile, gets.
  cbn [fst snd]. rewrite Hlegacy.
  destruct (path_failure (resolveConfigPath w)); [done|].
  destruct (node_at (tree w) _) as [[|text]|] eqn:Hnode.
  - rewrite bool_decide_eq_true_2 by (by eexists). cbn [negb].
    by rewrite Hnode.
  - rewrite bool_decide_eq_true_2 by (by eexists). cbn [negb].
    rewrite Hnode. by destruct (JSON_parse text).
  - rewrite bool_decide_eq_false_2 by (by intros [? ?]). done.
Qed.

Lemma snapshot_path (w : world) :
  ∃ snap,
    readConfigFileSnapshot w = (Fulfilled snap, w)
    ∧ path snap = resolveConfigPath w.
Proof.
  destruct (legacyIssues w) as [|i l] eqn:Hlegacy.
  - rewrite (snapshot_cases w Hlegacy). eexists. split; [reflexivity|].
    destruct (match path_failure _ with Some _ => None | None => _ end)
      as [[|text]|]; [done| |done].
    by destruct (JSON_parse text).
  - unfold readConfigFileSnapshot, bind, gets, ret. cbn [fst snd].
    rewrite Hlegacy. by eexists.
Qed.

(** X1: [readConfigFileSnapshot] always fulfils and changes nothing.  In
    every snapshot the path is the resolved config path, the hash is the
    hash of [raw], the snapshot is valid exactly when it has no issues,
    [config] is [parsed] when valid and the empty object otherwise,
    [legacyIssues] are those configured, and a snapshot of a file that does
    not exist is valid and has no text. *)
Theorem snapshot_invariants (w : world) :
  ∃ snap,
    readConfigFileSnapshot w = (Fulfilled snap, w)
    ∧ path snap = resolveConfigPath w
    ∧ hash snap = hashConfigRaw (raw snap)
    ∧ (valid snap = true ↔ issues snap = [])
    ∧ config snap = (if valid snap then parsed snap else JObject [])
    ∧ snapshot_legacyIssues snap = legacyIssues w
    ∧ (exists_ snap = false → valid snap = true ∧ raw snap = None).
Proof.
  destruct (legacyIssues w) as [|i l] eqn:Hlegacy.
  - rewrite (snapshot_cases w Hlegacy). eexists. split; [reflexivity|].
    destruct (match path_failure _ with Some _ => None | None => _ end)
      as [[|text]|]; [| |by repeat split].
    + by repeat split.
    + destruct (JSON_parse text); by repeat split.
  - unfold readConfigFileSnapshot, bind, gets, ret. cbn [fst snd].
    rewrite Hlegacy. eexists. split; [reflexivity|]. cbn. by repeat split.
Qed.

(** X2: while legacy issues are configured the snapshot is made from them
    alone: it exists, is invalid, lists the configured issues, has the
    configured legacy object as [parsed], or the empty object when that is
    [undefined] or [null], and the compact JSON text of [parsed] as [raw],
    which reads back as [parsed]; no file, directory or working directory
    makes a difference. *)
Theorem legacy_snapshot (w : world) :
  legacyIssues w ≠ [] →
  ∃ snap,
    fst (readConfigFileSnapshot w) = Fulfilled snap
    ∧ exists_ snap = true ∧ valid snap = false ∧ config snap = JObject []
    ∧ issues snap = legacyIssues w
    ∧ parsed snap = match legacyParsed w with
                    | None | Some JNull => JObject []
                    | Some v => v
                    end
    ∧ raw snap = Some (JSON_stringify (parsed snap) None)
    ∧ (serializable (parsed snap) →
       JSON_parse (JSON_stringify (parsed snap) None) = inl (parsed snap))
    ∧ ∀ dir t,
        fst (readConfigFileSnapshot
               {| testConfigRoot := testConfigRoot w;
                  legacyIssues := legacyIssues w;
                  legacyParsed := legacyParsed w;
                  cwd := dir; tree := t;
                  writeConfigFileCalls := writeConfigFileCalls w |})
        = Fulfilled snap.
Proof.
  intros Hlegacy.
  unfold readConfigFileSnapshot, bind, gets, ret. cbn [fst snd legacyIssues].
  destruct (legacyIssues w) as [|i l] eqn:Hl; [done|].
  eexists. split; [reflexivity|]. cbn [exists_ valid config issues parsed raw].
  rewrite issues_copied. repeat (split; [reflexivity|]). split.
  - intros Hser.
    pose proof (JSON_parse_reads _ _ [] (JSON_stringify_reads _ None Hser)
                  (Forall_nil_2 _)) as Hparse.
    by rewrite app_nil_r in Hparse.
  - intros dir t. reflexivity.
Qed.

(** X3: the snapshot says that the config file does not exist exactly when
    no legacy issues are configured and nothing is at the resolved path (or
    the path is one that no call accepts); it is then the snapshot of an
    empty config: no issues, the empty object as [parsed] and [config], and
    the hash of the empty string.  A directory at the path does exist: the
    snapshot is invalid, with the one issue that the read failed. *)
Theorem snapshot_missing_file (w : world) :
  ∃ snap,
    fst (readConfigFileSnapshot w) = Fulfilled snap
    ∧ (exists_ snap = false
       ↔ legacyIssues w = []
         ∧ (path_failure (resolveConfigPath w) ≠ None
            ∨ node_at (tree w) (resolve (cwd w) (resolveConfigPath w)) = None))
    ∧ (exists_ snap = false →
       issues snap = [] ∧ parsed snap = JObject [] ∧ config snap = JObject []
       ∧ hash snap = sha256_hex [])
    ∧ (legacyIssues w = [] → path_failure (resolveConfigPath w) = None →
       node_at (tree w) (resolve (cwd w) (resolveConfigPath w)) = Some Dir →
       exists_ snap = true ∧ valid snap = false ∧ raw snap = None
       ∧ parsed snap = JObject [] ∧ config snap = JObject []
       ∧ issues snap
         = [{| issue_path := [];
               issue_message :=
                 str "read failed: "
                 ++ SystemError_string (ReadFile (resolveConfigPath w))
                      IsADirectory |}]).
Proof.
  destruct (legacyIssues w) as [|i l] eqn:Hlegacy.
  - rewrite (snapshot_cases w Hlegacy). cbn [fst]. eexists.
    split; [reflexivity|].
    destruct (path_failure (resolveConfigPath w)) as [f|].
    { cbn. split; [|split; [done|by intros _ [=]]].
      split; [|done]. intros _. split; [done|]. by left. }
    destruct (node_at (tree w) _) as [[|text]|].
    + cbn. split; [|split; [done|by repeat split]].
      split; [done|]. by intros [_ [?|?]].
    + destruct (JSON_parse text); cbn;
        (split; [|split; [done|by intros _ _ [=]]]);
        (split; [done|]); by intros [_ [?|?]].
    + cbn. split; [|split; [done|by intros _ _ [=]]].
      split; [|done]. intros _. split; [done|]. by right.
  - unfold readConfigFileSnapshot, bind, gets, ret. cbn [fst snd].
    rewrite Hlegacy. eexists. split; [reflexivity|]. cbn.
    split; [|split; [done|by intros [=]]]. split; [done|]. by intros [? _].
Qed.

(** X4: with no legacy issues and a file at the resolved path, the snapshot
    judges the text of the file as [parseConfigJson5] does.  It is valid
    exactly when the text is a JSON text; then [raw] is the text and
    [parsed] and [config] are the value it denotes.  Otherwise [raw] is
    [null], [parsed] is the empty object, and the one issue has an empty
    path and the message [read failed:] followed by the error of
    [parseConfigJson5]. *)
Theorem snapshot_of_file (w : world) (text : jsstring) :
  legacyIssues w = [] → path_failure (resolveConfigPath w) = None →
  node_at (tree w) (resolve (cwd w) (resolveConfigPath w)) = Some (File text) →
  ∃ snap,
    fst (readConfigFileSnapshot w) = Fulfilled snap
    ∧ exists_ snap = true
    ∧ valid snap = parse_ok (parseConfigJson5 text)
    ∧ (valid snap = true ↔ ∃ v, JSONText text v)
    ∧ (∀ v, JSONText text v →
         parsed snap = v ∧ config snap = v ∧ raw snap = Some text
         ∧ hash snap = sha256_hex text)
    ∧ (∀ error, parseConfigJson5 text = ParseFailed error →
         raw snap = None ∧ parsed snap = JObject []
         ∧ issues snap = [{| issue_path := [];
                             issue_message := str "read failed: " ++ error |}]).
Proof.
  intros Hlegacy Hpath Hnode.
  rewrite (snapshot_cases w Hlegacy), Hpath, Hnode. cbn [fst].
  unfold parseConfigJson5.
  destruct (JSON_parse text) as [v|e] eqn:Hparse;
    (eexists; split; [reflexivity|]); cbn.
  - split; [done|]. split; [done|]. split; [|split].
    + split; [|done]. intros _. exists v. by apply JSON_parse_JSONText.
    + intros v' Hv'%JSON_parse_JSONText. rewrite Hparse in Hv'.
      injection Hv' as <-. by repeat split.
    + intros error [=].
  - split; [done|]. split; [done|]. split; [|split].
    + split; [done|]. intros [v Hv%JSON_parse_JSONText]. congruence.
    + intros v Hv%JSON_parse_JSONText. congruence.
    + by intros error [= <-].
Qed.

End ConfigSnapshots.

Lemma legacy_snapshot_witness :
  let w :=
    {| Config.testConfigRoot := str "/tmp/root";
       Config.legacyIssues := [{| Config.issue_path := str "routing.allowFrom";
                                  Config.issue_message := str "moved" |}];
       Config.legacyParsed := Some JNull;
       Config.cwd := [str "home"];
       Config.tree :=
         {[ [str "tmp"; str "root"; str "clawdbot.json"]
            := Config.File (str "{") ]};
       Config.writeConfigFileCalls := [] |} in
  Config.legacyIssues w ≠ []
  ∧ ∃ snap,
      fst (Config.readConfigFileSnapshot (engine := terse) w) = Fulfilled snap
      ∧ Config.valid snap = false
      ∧ Config.parsed snap = JObject []
      ∧ Config.raw snap = Some (str "{}").
Proof.
  intros w. split; [done|].
  destruct (legacy_snapshot (engine := terse) w ltac:(done))
    as (snap & Hsnap & _ & Hvalid & _ & _ & Hparsed & Hraw & _).
  exists snap. split; [exact Hsnap|]. split; [exact Hvalid|].
  split; [exact Hparsed|]. rewrite Hraw, Hparsed. reflexivity.
Defined.

Lemma snapshot_of_file_witness :
  let w :=
    {| Config.testConfigRoot := str "/tmp/root"; Config.legacyIssues := [];
       Config.legacyParsed := None; Config.cwd := [str "home"];
       Config.tree :=
         {[ [str "tmp"; str "root"; str "clawdbot.json"]
            := Config.File (str "{port: 1}") ]};
       Config.writeConfigFileCalls := [] |} in
  Config.legacyIssues w = []
  ∧ Config.node_at (Config.tree w)
      (Config.resolve (Config.cwd w) (Config.resolveConfigPath w))
    = Some (Config.File (str "{port: 1}"))
  ∧ ∃ snap,
      fst (Config.readConfigFileSnapshot (engine := terse) w) = Fulfilled snap
      ∧ Config.exists_ snap = true ∧ Config.valid snap = false
      ∧ Config.raw snap = None.
Proof.
  intros w. split; [reflexivity|].
  assert (Hnode : Config.node_at (Config.tree w)
                    (Config.resolve (Config.cwd w) (Config.resolveConfigPath w))
                  = Some (Config.File (str "{port: 1}"))) by (by vm_compute).
  split; [exact Hnode|].
  destruct (snapshot_of_file (engine := terse) w _ eq_refl
              ltac:(by vm_compute) Hnode)
    as (snap & Hsnap & Hexists & Hvalid & _ & _ & Hfailed).
  exists snap. split; [exact Hsnap|]. split; [exact Hexists|].
  split; [by rewrite Hvalid|].
  by destruct (Hfailed _ eq_refl) as (-> & _).
Defined.

(** ** Paths *)

Section Paths.
Import Config.

Lemma segments_nonempty (s : jsstring) : segments s ≠ [].
Proof.
  destruct s as [|c t]; [done|]. cbn [segments].
  destruct (c =? 47); [done|]. by destruct (segments t).
Qed.

Lemma segments_app (a b : jsstring) :
  segments (a ++ 47 :: b) = segments a ++ segments b.
Proof.
  induction a as [|c a IH]; [done|]. cbn [app segments].
  destruct (c =? 47); [by rewrite IH|]. rewrite IH.
  pose proof (segments_nonempty a). by destruct (segments a).
Qed.

Lemma segments_plain (s : jsstring) : 47 ∉ s → segments s = [s].
Proof.
  induction s as [|c s IH]; [done|]. intros [Hc Hs]%not_elem_of_cons.
  cbn [segments]. rewrite (proj2 (N.eqb_neq c 47)) by done. by rewrite IH.
Qed.

Lemma join_snoc (sep x : jsstring) (l : list jsstring) :
  l ≠ [] → join sep (l ++ [x]) = join sep l ++ sep ++ x.
Proof.
  destruct l as [|p l]; [done|]. intros _. cbn [app join].
  rewrite map_app, concat_app. cbn. by rewrite app_nil_r, <- app_assoc.
Qed.

Lemma segments_join (l : list jsstring) :
  l ≠ [] → Forall (λ seg, 47 ∉ seg) l → segments (join [47] l) = l.
Proof.
  induction l as [|p l IH] using rev_ind; [done|]. intros _ Hl.
  apply Forall_app in Hl as [Hl Hp]. apply Forall_cons in Hp as [Hp _].
  destruct l as [|q l].
  - cbn. rewrite app_nil_r. by apply segments_plain.
  - rewrite join_snoc by done. cbn [app].
    rewrite segments_app, IH by done. by rewrite segments_plain.
Qed.

Lemma normalize_step_name (a : bool) (st : list jsstring) (name : jsstring) :
  plain_name name → normalize_step a st name = name :: st.
Proof.
  intros (H1 & _ & H2 & H3). unfold normalize_step.
  by rewrite !bool_decide_eq_false_2 by done.
Qed.

Lemma normalize_segments_snoc (a : bool) (segs : list jsstring)
    (name : jsstring) :
  plain_name name →
  normalize_segments a (segs ++ [name]) = normalize_segments a segs ++ [name].
Proof.
  intros Hname. unfold normalize_segments. rewrite fold_left_app. cbn [fold_left].
  by rewrite normalize_step_name.
Qed.

Lemma normalize_segments_skip (a : bool) (segs : list jsstring)
    (seg : jsstring) :
  seg = [] ∨ seg = dot →
  normalize_segments a (segs ++ [seg]) = normalize_segments a segs.
Proof.
  intros Hseg. unfold normalize_segments. rewrite fold_left_app. cbn [fold_left].
  unfold normalize_step. by destruct Hseg as [-> | ->].
Qed.

Lemma normalize_step_kept (a : bool) (st : list jsstring) (seg : jsstring) :
  Forall kept st → 47 ∉ seg → Forall kept (normalize_step a st seg).
Proof.
  intros Hst Hseg. unfold normalize_step.
  destruct (bool_decide (seg = [])) eqn:Hnil; [done|].
  apply bool_decide_eq_false in Hnil. cbn [orb].
  destruct (bool_decide (seg = dot)); [done|].
  assert (Hdd : kept dotdot).
  { split; [done|]. unfold dotdot. rewrite !elem_of_cons, elem_of_nil. lia. }
  destruct (bool_decide (seg = dotdot)).
  - destruct st as [|top under];
      [destruct a; [by constructor|constructor]|].
    destruct (bool_decide (top = dotdot)); [by constructor|].
    by apply Forall_cons in Hst as [_ ?].
  - by constructor.
Qed.

Lemma segments_no_slash (s : jsstring) : Forall (λ seg, 47 ∉ seg) (segments s).
Proof.
  induction s as [|c s IH]; [repeat constructor; by intros ?%elem_of_nil|].
  cbn [segments]. destruct (N.eqb_spec c 47) as [->|Hc].
  - constructor; [by intros ?%elem_of_nil|done].
  - destruct (segments s) as [|seg segs]; [repeat constructor|].
    + intros [?|?%elem_of_nil]%elem_of_cons; [congruence|done].
    + apply Forall_cons in IH as [Hseg Hsegs]. constructor; [|done].
      rewrite elem_of_cons. intros [?|?]; [congruence|done].
Qed.

Lemma normalize_segments_kept (a : bool) (segs : list jsstring) :
  Forall (λ seg, 47 ∉ seg) segs → Forall kept (normalize_segments a segs).
Proof.
  intros Hsegs. unfold normalize_segments. apply Forall_rev.
  assert (Hgen : ∀ st, Forall kept st →
            Forall kept (fold_left (normalize_step a) segs st)).
  { induction Hsegs as [|seg segs Hseg _ IH]; intros st Hst; [done|].
    cbn [fold_left]. by apply IH, normalize_step_kept. }
  by apply Hgen.
Qed.

Lemma head_join_kept (l : list jsstring) (t : jsstring) :
  l ≠ [] → Forall kept l → head (join [47] l ++ t) ≠ Some 47.
Proof.
  destruct l as [|p l]; [done|]. intros _ [[Hp Hslash] _]%Forall_cons.
  destruct p as [|c p]; [done|]. cbn. intros [= ->]. apply Hslash. left.
Qed.

Lemma last_elem_of {A} (l : list A) (x : A) : last l = Some x → x ∈ l.
Proof.
  induction l as [|a l IH]; [done|]. destruct l as [|b l].
  - intros [= ->]. left.
  - rewrite last_cons_cons. intros H. right. by apply IH.
Qed.

Lemma join_one (sep p : jsstring) : join sep [p] = p.
Proof. cbn. apply app_nil_r. Qed.

(** [path.join] of a root and a plain name: the pieces kept of the root,
    then the name, with slashes between them and one in front when the
    root starts at the root. *)
Lemma path_join_shape (root name : jsstring) :
  plain_name name →
  ∃ (abs : bool) (P : list jsstring),
    Forall kept P
    ∧ path_join root name
      = (if abs then [47] else []) ++ join [47] (P ++ [name]).
Proof.
  intros Hname. pose proof Hname as (Hne & Hslash & _ & _).
  assert (Hlast : ∀ pre, last (pre ++ name) ≠ Some 47).
  { intros pre Hl. apply Hslash. destruct name as [|c name] using rev_ind; [done|].
    rewrite app_assoc, last_snoc in Hl. injection Hl as ->.
    apply elem_of_app. right. left. }
  unfold path_join. destruct root as [|r root].
  - destruct name as [|c name]; [done|]. exists false, [].
    split; [constructor|]. unfold path_normalize.
    rewrite bool_decide_eq_false_2 by apply (Hlast []).
    rewrite (proj2 (N.eqb_neq c 47)) by (intros ->; apply Hslash; left).
    rewrite segments_plain by done.
    rewrite (normalize_segments_snoc _ [] _ Hname). cbn [app negb].
    change (normalize_segments true []) with (@nil jsstring). cbn [app].
    by rewrite app_nil_r.
  - destruct name as [|c name]; [done|].
    exists (r =? 47), (normalize_segments (negb (r =? 47)) (segments (r :: root))).
    split; [apply normalize_segments_kept, segments_no_slash|].
    unfold path_normalize. cbn [app].
    assert (Hl : last (r :: root ++ 47 :: c :: name) ≠ Some 47).
    { specialize (Hlast (r :: root ++ [47])). cbn [app] in Hlast.
      by rewrite <- app_assoc in Hlast. }
    rewrite bool_decide_eq_false_2 by exact Hl.
    change (r :: root ++ 47 :: c :: name) with ((r :: root) ++ 47 :: c :: name).
    rewrite segments_app, (segments_plain (c :: name)) by done.
    rewrite normalize_segments_snoc by done.
    destruct (normalize_segments (negb (r =? 47)) (segments (r :: root)));
      cbn [app]; by rewrite app_nil_r.
Qed.

Lemma drop_slashes_head (c : N) (t : jsstring) :
  c ≠ 47 → drop_slashes (c :: t) = c :: t.
Proof. intros Hc. cbn. by rewrite (proj2 (N.eqb_neq c 47)). Qed.

Lemma after_slash_none (s : jsstring) : 47 ∉ s → after_slash s = None.
Proof.
  induction s as [|c s IH]; [done|]. intros [Hc Hs]%not_elem_of_cons.
  cbn. rewrite (proj2 (N.eqb_neq c 47)) by done. by apply IH.
Qed.

Lemma after_slash_app (a b : jsstring) :
  47 ∉ a → after_slash (a ++ 47 :: b) = Some b.
Proof.
  induction a as [|c a IH]; [done|]. intros [Hc Ha]%not_elem_of_cons.
  cbn. rewrite (proj2 (N.eqb_neq c 47)) by done. by apply IH.
Qed.

Lemma rev_plain (name : jsstring) :
  name ≠ [] → 47 ∉ name →
  (47 ∉ rev name) ∧ ∃ c t, rev name = c :: t ∧ c ≠ 47.
Proof.
  intros Hne Hslash.
  assert (Hrev : 47 ∉ rev name).
  { intros Hin%list_elem_of_In%in_rev%list_elem_of_In. done. }
  split; [exact Hrev|]. destruct (rev name) as [|c t] eqn:Hr.
  - apply (f_equal (@rev N)) in Hr. rewrite rev_involutive in Hr. done.
  - exists c, t. split; [done|]. intros ->. apply Hrev. left.
Qed.

Lemma join_kept_nonempty (l : list jsstring) :
  l ≠ [] → Forall kept l → join [47] l ≠ [].
Proof.
  destruct l as [|p l]; [done|]. intros _ [[Hp _] _]%Forall_cons.
  destruct p; [done|]. done.
Qed.

(** [path.dirname] of such a path: the path without the slash and the
    name at its end; the root or [.] when nothing else is left. *)
Lemma path_dirname_shape (abs : bool) (P : list jsstring) (name : jsstring) :
  plain_name name → Forall kept P →
  path_dirname ((if abs then [47] else []) ++ join [47] (P ++ [name]))
  = match P with
    | [] => if abs then [47] else dot
    | _ :: _ => (if abs then [47] else []) ++ join [47] P
    end.
Proof.
  intros (Hne & Hslash & _ & _) HP.
  destruct (rev_plain name Hne Hslash) as (Hrev & c0 & t0 & Hr & Hc0).
  destruct P as [|p P].
  - cbn [app]. rewrite join_one. destruct abs; cbn [app].
    + unfold path_dirname. rewrite Hr, drop_slashes_head by done.
      rewrite <- Hr, after_slash_none by done. done.
    + destruct name as [|c name]; [done|]. unfold path_dirname.
      apply not_elem_of_cons in Hslash as [Hc Hname].
      assert (Hbody : 47 ∉ rev name).
      { intros Hin%list_elem_of_In%in_rev%list_elem_of_In. done. }
      assert (Hd : after_slash (drop_slashes (rev name)) = None).
      { destruct (rev name) as [|x t] eqn:Hx; [done|].
        rewrite drop_slashes_head; [by apply after_slash_none|].
        intros ->. apply Hbody. left. }
      rewrite Hd. by rewrite (proj2 (N.eqb_neq c 47)).
  - rewrite join_snoc by done.
    set (X := (if abs then [47] else []) ++ join [47] (p :: P)).
    assert (HX : X ≠ []).
    { subst X. pose proof (join_kept_nonempty (p :: P) ltac:(done) HP).
      destruct abs; [done|]. by cbn [app]. }
    rewrite app_assoc. fold X.
    destruct X as [|c X'] eqn:EX; [done|]. cbn [app].
    unfold path_dirname. rewrite rev_app_distr. cbn [rev].
    rewrite <- !app_assoc. cbn [app]. rewrite Hr at 1. cbn [app].
    rewrite drop_slashes_head by done.
    change (c0 :: t0 ++ 47 :: rev X') with ((c0 :: t0) ++ 47 :: rev X').
    rewrite <- Hr, after_slash_app by done.
    destruct (N.eqb_spec c 47) as [Hc|Hc]; cbn [andb];
      [|by rewrite rev_involutive].
    case_bool_decide as Hnil; [exfalso|by rewrite rev_involutive].
    apply (f_equal (@rev N)) in Hnil. rewrite rev_involutive in Hnil.
    rewrite Hc, Hnil in EX. cbn [rev] in EX. unfold X in EX. destruct abs.
    + injection EX as EX. by apply (join_kept_nonempty (p :: P)).
    + cbn [app] in EX.
      apply (head_join_kept (p :: P) [] ltac:(done) HP).
      by rewrite app_nil_r, EX.
Qed.

(** The names that such a path stands for. *)
Lemma resolve_shape (cwd : list jsstring) (abs : bool) (l : list jsstring) :
  l ≠ [] → Forall kept l →
  resolve cwd ((if abs then [47] else []) ++ join [47] l)
  = normalize_segments false
      ((if abs then [] else cwd) ++ map toWellFormed l).
Proof.
  intros Hl Hkept. unfold resolve.
  assert (Hsegs : segments (join [47] l) = l).
  { apply segments_join; [done|]. eapply Forall_impl; [exact Hkept|].
    by intros seg [_ ?]. }
  destruct abs; cbn [app].
  - rewrite bool_decide_eq_true_2 by done. cbn [segments].
    change (47 =? 47) with true. cbv iota. rewrite Hsegs. cbn [map app].
    unfold normalize_segments. cbn [fold_left]. done.
  - rewrite bool_decide_eq_false_2.
    + by rewrite Hsegs.
    + pose proof (head_join_kept l [] Hl Hkept) as Hhead.
      by rewrite app_nil_r in Hhead.
Qed.

(** The config file is the entry [name] of its directory: the names that
    the joined path stands for are those of its [path.dirname] and then
    the name. *)
Lemma resolve_path_join (cwd : list jsstring) (root name : jsstring) :
  plain_name name → toWellFormed name = name →
  resolve cwd (path_join root name)
  = resolve cwd (path_dirname (path_join root name)) ++ [name].
Proof.
  intros Hname Hwf.
  destruct (path_join_shape root name Hname) as (abs & P & HP & ->).
  assert (Hkept : kept name) by (by destruct Hname as (? & ? & _)).
  rewrite path_dirname_shape, resolve_shape; try done.
  - rewrite map_app, app_assoc. cbn [map]. rewrite Hwf.
    rewrite normalize_segments_snoc by done. f_equal.
    destruct P as [|p P].
    + cbn [map]. rewrite app_nil_r. destruct abs.
      * by vm_compute.
      * unfold resolve. rewrite bool_decide_eq_false_2 by done.
        change (map toWellFormed (segments dot)) with [dot].
        by rewrite normalize_segments_skip by (by right).
    + by rewrite resolve_shape.
  - by destruct P.
  - apply Forall_app. split; [done|by constructor].
Qed.

Lemma config_name_plain :
  plain_name (str "clawdbot.json")
  ∧ toWellFormed (str "clawdbot.json") = str "clawdbot.json".
Proof.
  split; [|by vm_compute]. repeat split; try done.
  apply (bool_decide_unpack _). by vm_compute.
Qed.

End Paths.

(** ** Writing the config file *)

Section ConfigWrites.
Import Config.
Context {engine : Engine}.

Lemma drop_space_suffix (s : jsstring) :
  ∃ ws, s = ws ++ drop_space s ∧ Forall (λ c, is_js_space c = true) ws.
Proof.
  induction s as [|c s (ws & Hs & Hws)]; [by exists []|].
  cbn [drop_space]. destruct (is_js_space c) eqn:Hc.
  - exists (c :: ws). split; [cbn; by rewrite <- Hs|by constructor].
  - by exists [].
Qed.

Lemma drop_space_head (s : jsstring) :
  match drop_space s with
  | [] => True
  | c :: _ => is_js_space c = false
  end.
Proof.
  induction s as [|c s IH]; [done|]. cbn [drop_space].
  by destruct (is_js_space c) eqn:Hc.
Qed.

(** [trimEnd] cuts off white space, and all of it. *)
Lemma trimEnd_spec (s : jsstring) :
  (∃ ws, s = trimEnd s ++ ws ∧ Forall (λ c, is_js_space c = true) ws)
  ∧ (trimEnd s = [] ∨ ∃ body c, trimEnd s = body ++ [c] ∧ is_js_space c = false).
Proof.
  unfold trimEnd. split.
  - destruct (drop_space_suffix (rev s)) as (ws & Hs & Hws).
    exists (rev ws). split.
    + rewrite <- rev_app_distr, <- Hs. by rewrite rev_involutive.
    + by apply List.Forall_rev.
  - pose proof (drop_space_head (rev s)) as Hhead.
    destruct (drop_space (rev s)) as [|c t]; [by left|].
    right. exists (rev t), c. by cbn [rev].
Qed.

(** A line feed after a text stays where it is on the way through the
    file, and what stands before it is white space no more than before. *)
Lemma toWellFormed_snoc (s : jsstring) (c : N) :
  is_leading_surrogate c = false → is_trailing_surrogate c = false →
  toWellFormed (s ++ [c]) = toWellFormed s ++ [c].
Proof.
  intros Hl Ht. remember (length s) as n eqn:Hn.
  revert s Hn. induction n as [n IH] using lt_wf_ind. intros s Hn.
  destruct s as [|a s]; [cbn; by rewrite Hl, Ht|].
  cbn [app toWellFormed].
  destruct (is_leading_surrogate a) eqn:Ha.
  - destruct s as [|b s]; cbn [app].
    + rewrite Ht. cbn [toWellFormed app]. by rewrite Hl, Ht.
    + destruct (is_trailing_surrogate b) eqn:Hb.
      * cbn [app]. do 2 f_equal. apply (IH (length s)); [cbn in Hn; lia|done].
      * cbn [app]. f_equal.
        apply (IH (length (b :: s)) ltac:(cbn in *; lia) (b :: s) eq_refl).
  - destruct (is_trailing_surrogate a); cbn [app]; f_equal;
      apply (IH (length s)); cbn in Hn; try lia; done.
Qed.

Lemma toWellFormed_last (s : jsstring) :
  toWellFormed s = []
  ∨ ∃ body c, toWellFormed s = body ++ [c] ∧ (last s = Some c ∨ c = 65533).
Proof.
  remember (length s) as n eqn:Hn.
  revert s Hn. induction n as [n IH] using lt_wf_ind. intros s Hn.
  destruct s as [|a s]; [by left|]. right.
  assert (Hcons : ∀ (pre t : jsstring) (x : N),
             (length t < n)%nat → (t ≠ [] → last t = last (a :: s)) →
             (t = [] → last (a :: s) = Some x ∨ x = 65533) →
             ∃ body c, pre ++ x :: toWellFormed t = body ++ [c]
                       ∧ (last (a :: s) = Some c ∨ c = 65533)).
  { intros pre t x Hlen Hlast Hnil.
    destruct (IH (length t) Hlen t eq_refl) as [Hempty|(body & c & Hbody & Hc)].
    - rewrite Hempty. exists pre, x. split; [done|].
      destruct t as [|y t]; [by apply Hnil|].
      exfalso. cbn [toWellFormed] in Hempty. by repeat case_match.
    - rewrite Hbody. exists (pre ++ x :: body), c.
      split; [by rewrite <- app_assoc|].
      destruct Hc as [Hc|Hc]; [left|by right].
      rewrite <- Hlast; [done|]. by intros ->. }
  cbn [toWellFormed].
  destruct (is_leading_surrogate a) eqn:Ha.
  - destruct s as [|b s]; [exists [], 65533; split; [done|by right]|].
    destruct (is_trailing_surrogate b) eqn:Hb.
    + apply (Hcons [a] s b); [subst n; cbn; lia| |].
      * intros Hs. destruct s; [done|]. by rewrite !last_cons_cons.
      * intros ->. by left.
    + apply (Hcons [] (b :: s) 65533); [subst n; cbn; lia| |done].
      intros _. by rewrite last_cons_cons.
  - destruct (is_trailing_surrogate a) eqn:Hta.
    + apply (Hcons [] s 65533); [subst n; cbn; lia| |by right].
      intros Hs. destruct s; [done|]. by rewrite last_cons_cons.
    + apply (Hcons [] s a); [subst n; cbn; lia| |].
      * intros Hs. destruct s; [done|]. by rewrite last_cons_cons.
      * intros ->. by left.
Qed.

(** The snapshot reads the config root, the legacy settings, the working
    directory and the tree, nothing else. *)
Lemma snapshot_depends (w w' : world) :
  testConfigRoot w = testConfigRoot w' → legacyIssues w = legacyIssues w' →
  legacyParsed w = legacyParsed w' → cwd w = cwd w' → tree w = tree w' →
  fst (readConfigFileSnapshot w) = fst (readConfigFileSnapshot w').
Proof.
  intros Hroot Hissues Hparsed Hcwd Htree.
  destruct (legacyIssues w') as [|i l] eqn:Hlegacy.
  - rewrite (snapshot_cases w), (snapshot_cases w') by congruence.
    unfold resolveConfigPath. by rewrite Hroot, Hcwd, Htree.
  - unfold readConfigFileSnapshot, bind, gets, ret, resolveConfigPath.
    cbn [fst snd]. by rewrite Hroot, Hissues, Hparsed, Hlegacy.
Qed.

Lemma write_all_cons (cfg : json) (cfgs : list json) (w : world) :
  write_all (cfg :: cfgs) w
  = (fst (writeConfigFile cfg w)
       :: fst (write_all cfgs (snd (writeConfigFile cfg w))),
     snd (write_all cfgs (snd (writeConfigFile cfg w)))).
Proof.
  cbn [write_all]. unfold bind, ret.
  destruct (writeConfigFile cfg w) as [r w1]. cbn [fst snd].
  by destruct (write_all cfgs w1).
Qed.

(** What no write touches, fulfilled or not, and what every write does. *)
Lemma write_keeps (cfg : json) (w : world) :
  testConfigRoot (snd (writeConfigFile cfg w)) = testConfigRoot w
  ∧ legacyIssues (snd (writeConfigFile cfg w)) = legacyIssues w
  ∧ legacyParsed (snd (writeConfigFile cfg w)) = legacyParsed w
  ∧ cwd (snd (writeConfigFile cfg w)) = cwd w
  ∧ writeConfigFileCalls (snd (writeConfigFile cfg w))
    = writeConfigFileCalls w ++ [cfg].
Proof.
  unfold writeConfigFile, bind, record_call, modify, gets, ret. cbn [fst snd].
  unfold fs_mkdir. cbn [cwd tree].
  destruct (path_failure (path_dirname _)); [done|].
  destruct (is_file _ _); [done|]. destruct (existsb _ _); [done|].
  unfold fs_writeFile, with_tree. cbn [cwd tree].
  destruct (path_failure _); [done|].
  destruct (node_at _ (removelast _)) as [[|?]|]; [|done|done].
  by destruct (node_at _ _) as [[|?]|].
Qed.

(** Whether a write is fulfilled does not depend on the config. *)
Lemma write_fulfilled_any (cfg cfg' : json) (w : world) :
  fst (writeConfigFile cfg w) = Fulfilled tt →
  fst (writeConfigFile cfg' w) = Fulfilled tt.
Proof.
  unfold writeConfigFile, bind, record_call, modify, gets, ret. cbn [fst snd].
  unfold fs_mkdir. cbn [cwd tree].
  change (resolveConfigPath {| testConfigRoot := testConfigRoot w;
            legacyIssues := _; legacyParsed := _; cwd := _; tree := _;
            writeConfigFileCalls := writeConfigFileCalls w ++ [cfg] |})
    with (resolveConfigPath w).
  change (resolveConfigPath {| testConfigRoot := testConfigRoot w;
            legacyIssues := _; legacyParsed := _; cwd := _; tree := _;
            writeConfigFileCalls := writeConfigFileCalls w ++ [cfg'] |})
    with (resolveConfigPath w).
  destruct (path_failure (path_dirname _)); [done|].
  destruct (is_file _ _); [done|]. destruct (existsb _ _); [done|].
  unfold fs_writeFile, with_tree. cbn [cwd tree].
  destruct (path_failure _); [done|].
  destruct (node_at _ (removelast _)) as [[|?]|]; [|done|done].
  by destruct (node_at _ _) as [[|?]|].
Qed.

(** When a write is fulfilled, in the terms of the calls it makes; and
    what a rejected write has done to the tree: nothing, or the
    directories. *)
Lemma writeConfigFile_cases (cfg : json) (w : world) :
  let dirs :=
    prefixes (resolve (cwd w) (path_dirname (resolveConfigPath w))) in
  let key := resolve (cwd w) (resolveConfigPath w) in
  (fst (writeConfigFile cfg w) = Fulfilled tt
   ↔ path_failure (path_dirname (resolveConfigPath w)) = None
     ∧ is_file (tree w) (resolve (cwd w) (path_dirname (resolveConfigPath w)))
       = false
     ∧ existsb (is_file (tree w)) dirs = false
     ∧ path_failure (resolveConfigPath w) = None
     ∧ node_at (with_dirs dirs (tree w)) (removelast key) = Some Dir
     ∧ node_at (with_dirs dirs (tree w)) key ≠ Some Dir)
  ∧ (fst (writeConfigFile cfg w) ≠ Fulfilled tt →
     (∃ e, fst (writeConfigFile cfg w) = Rejected e)
     ∧ (tree (snd (writeConfigFile cfg w)) = tree w
        ∨ tree (snd (writeConfigFile cfg w)) = with_dirs dirs (tree w))).
Proof.
  cbn zeta.
  unfold writeConfigFile, bind, record_call, modify, gets, ret. cbn [fst snd].
  unfold fs_mkdir. cbn [cwd tree].
  change (resolveConfigPath {| testConfigRoot := testConfigRoot w;
            legacyIssues := _; legacyParsed := _; cwd := _; tree := _;
            writeConfigFileCalls := _ |}) with (resolveConfigPath w).
  destruct (path_failure (path_dirname (resolveConfigPath w))) as [f|].
  { cbn. split; [split; [done|by intros [? _]]|]. intros _.
    split; [by eexists|by left]. }
  destruct (is_file (tree w) _).
  { cbn. split; [split; [done|by intros (_ & ? & _)]|]. intros _.
    split; [by eexists|by left]. }
  destruct (existsb _ _).
  { cbn. split; [split; [done|by intros (_ & _ & ? & _)]|]. intros _.
    split; [by eexists|by left]. }
  unfold fs_writeFile, with_tree. cbn [cwd tree testConfigRoot legacyIssues
                                       legacyParsed writeConfigFileCalls].
  destruct (path_failure (resolveConfigPath w)) as [f|].
  { cbn. split; [split; [done|by intros (_ & _ & _ & ? & _)]|]. intros _.
    split; [by eexists|by right]. }
  destruct (node_at _ (removelast _)) as [[|?]|].
  - destruct (node_at _ (resolve (cwd w) (resolveConfigPath w))) as [[|?]|];
      cbn.
    + split; [split; [done|by intros (_ & _ & _ & _ & _ & ?)]|]. intros _.
      split; [by eexists|by right].
    + split; [by split|done].
    + split; [by split|done].
  - cbn. split; [split; [done|by intros (_ & _ & _ & _ & ? & _)]|]. intros _.
    split; [by eexists|by right].
  - cbn. split; [split; [done|by intros (_ & _ & _ & _ & ? & _)]|]. intros _.
    split; [by eexists|by right].
Qed.

Lemma prefixes_length (key k : list jsstring) :
  k ∈ prefixes key → (length k ≤ length key)%nat.
Proof.
  revert k. induction key as [|seg key IH]; intros k; cbn [prefixes].
  - by intros ?%elem_of_nil.
  - intros [->|(k' & -> & Hk')%list_elem_of_fmap]%elem_of_cons.
    + cbn. lia.
    + cbn. apply IH in Hk'. lia.
Qed.

Lemma elem_of_prefixes_self (key : list jsstring) :
  key ≠ [] → key ∈ prefixes key.
Proof.
  induction key as [|seg key IH]; [done|]. intros _. cbn [prefixes].
  destruct key as [|seg' key]; [left|]. right.
  apply list_elem_of_fmap. eexists. split; [reflexivity|]. by apply IH.
Qed.

Lemma entry_not_passed (dir : list jsstring) (name : jsstring) :
  dir ++ [name] ∉ prefixes dir.
Proof. intros H%prefixes_length. rewrite length_app in H. cbn in H. lia. Qed.

Lemma existsb_false {A : Type} (f : A → bool) (l : list A) :
  existsb f l = false ↔ ∀ x, x ∈ l → f x = false.
Proof.
  induction l as [|a l IH]; cbn [existsb].
  - split; [|done]. by intros _ x ?%elem_of_nil.
  - rewrite orb_false_iff, IH. split.
    + intros [Ha Hl] x [->|Hx]%elem_of_cons; [done|by apply Hl].
    + intros H. split; [apply H; left|]. intros x Hx. apply H. by right.
Qed.

(** The config path is never empty, and its directory is a path that the
    calls accept when the config path is. *)
Lemma config_path_accepted (root : jsstring) :
  (path_failure (path_join root (str "clawdbot.json")) = None
   ↔ 0 ∉ path_join root (str "clawdbot.json"))
  ∧ (0 ∉ path_join root (str "clawdbot.json") →
     path_failure (path_dirname (path_join root (str "clawdbot.json"))) = None).
Proof.
  destruct config_name_plain as [Hname _].
  destruct (path_join_shape root _ Hname) as (abs & P & HP & Hshape).
  assert (Hkept : Forall kept (P ++ [str "clawdbot.json"])).
  { apply Forall_app. split; [done|]. constructor; [|done].
    by destruct Hname as (? & ? & _). }
  assert (Hne : path_join root (str "clawdbot.json") ≠ []).
  { rewrite Hshape. intros [_ H]%app_nil.
    refine (join_kept_nonempty (P ++ [_]) _ Hkept H). by destruct P. }
  split.
  - unfold path_failure. case_bool_decide; [by split|].
    by rewrite bool_decide_eq_false_2.
  - intros Hnul. rewrite Hshape in Hnul |- *.
    rewrite path_dirname_shape by done. unfold path_failure.
    destruct P as [|p P]; [destruct abs; by vm_compute|].
    rewrite join_snoc, app_assoc in Hnul by done.
    apply not_elem_of_app in Hnul as [Hnul _].
    rewrite bool_decide_eq_false_2 by done.
    rewrite bool_decide_eq_false_2; [done|].
    intros [_ H]%app_nil. apply Forall_app in Hkept as [Hkept _].
    by apply (join_kept_nonempty (p :: P)).
Qed.

Lemma lookup_with_dirs (dirs : list (list jsstring))
    (t : gmap (list jsstring) node) (k : list jsstring) :
  with_dirs dirs t !! k = if bool_decide (k ∈ dirs) then Some Dir else t !! k.
Proof.
  induction dirs as [|d dirs IH]; [done|]. cbn [with_dirs foldr].
  destruct (decide (d = k)) as [->|Hne].
  - rewrite lookup_insert_eq. by rewrite bool_decide_eq_true_2 by left.
  - rewrite lookup_insert_ne by done. fold (with_dirs dirs t). rewrite IH.
    destruct (bool_decide (k ∈ dirs)) eqn:Hk.
    + apply bool_decide_eq_true in Hk.
      by rewrite bool_decide_eq_true_2 by (by right).
    + apply bool_decide_eq_false in Hk.
      rewrite bool_decide_eq_false_2; [done|].
      intros [?|?]%elem_of_cons; congruence.
Qed.

(** The config file is an entry of the directory of the config path. *)
Lemma config_key (w : world) :
  resolve (cwd w) (resolveConfigPath w)
  = resolve (cwd w) (path_dirname (resolveConfigPath w))
    ++ [str "clawdbot.json"].
Proof. destruct config_name_plain. by apply resolve_path_join. Qed.

(** After the directories on the way to [dir] are made, [dir] is a
    directory, and its entries are what they were. *)
Lemma node_at_with_dirs_self (t : gmap (list jsstring) node)
    (dir : list jsstring) :
  node_at (with_dirs (prefixes dir) t) dir = Some Dir.
Proof.
  destruct dir as [|seg dir]; [done|]. cbn [node_at].
  rewrite lookup_with_dirs, bool_decide_eq_true_2; [done|].
  by apply elem_of_prefixes_self.
Qed.

Lemma node_at_with_dirs_entry (t : gmap (list jsstring) node)
    (dir : list jsstring) (name : jsstring) :
  node_at (with_dirs (prefixes dir) t) (dir ++ [name])
  = node_at t (dir ++ [name]).
Proof.
  pose proof (entry_not_passed dir name) as Hnot.
  destruct (dir ++ [name]) as [|seg key] eqn:Hkey; [by destruct dir|].
  cbn [node_at]. by rewrite lookup_with_dirs, bool_decide_eq_false_2.
Qed.

(** A fulfilled write leaves the directory of the config path in place. *)
Lemma write_makes_dir (cfg : json) (w : world) :
  fst (writeConfigFile cfg w) = Fulfilled tt →
  node_at (tree (snd (writeConfigFile cfg w)))
    (resolve (cwd w) (path_dirname (resolveConfigPath w)))
  = Some Dir.
Proof.
  intros Hdone.
  destruct (writeConfigFile_fulfilled _ _ Hdone) as (_ & _ & _ & ->).
  cbn [tree]. rewrite config_key.
  set (dir := resolve (cwd w) (path_dirname (resolveConfigPath w))).
  destruct dir as [|seg dir'] eqn:Hd; [done|]. rewrite <- Hd.
  rewrite node_at_insert_ne.
  - apply node_at_with_dirs_self.
  - intros H. apply (f_equal length) in H.
    rewrite length_app in H. cbn in H. lia.
Qed.

Lemma with_dirs_idemp (dirs : list (list jsstring))
    (t : gmap (list jsstring) node) :
  with_dirs dirs (with_dirs dirs t) = with_dirs dirs t.
Proof.
  apply map_eq. intros k. rewrite !lookup_with_dirs.
  by destruct (bool_decide (k ∈ dirs)).
Qed.

Lemma with_dirs_insert (dirs : list (list jsstring))
    (t : gmap (list jsstring) node) (key : list jsstring) (n : node) :
  key ∉ dirs →
  with_dirs dirs (<[ key := n ]> t) = <[ key := n ]> (with_dirs dirs t).
Proof.
  intros Hkey. apply map_eq. intros k. rewrite lookup_with_dirs.
  destruct (decide (key = k)) as [<-|Hne].
  - rewrite bool_decide_eq_false_2 by done. by rewrite !lookup_insert_eq.
  - rewrite !lookup_insert_ne by done. by rewrite lookup_with_dirs.
Qed.

(** A file in the tree is none of the directories that a fulfilled write
    has passed. *)
Lemma file_not_passed (t : gmap (list jsstring) node) (key : list jsstring)
    (dirs : list (list jsstring)) :
  is_file t key = true → existsb (is_file t) dirs = false → key ∉ dirs.
Proof.
  intros Hfile Hnone Hin. apply not_true_iff_false in Hnone. apply Hnone.
  apply existsb_exists. exists key. split; [by apply list_elem_of_In|done].
Qed.

Lemma write_all_calls (cfgs : list json) (w : world) :
  writeConfigFileCalls (snd (write_all cfgs w)) = writeConfigFileCalls w ++ cfgs
  ∧ testConfigRoot (snd (write_all cfgs w)) = testConfigRoot w
  ∧ legacyIssues (snd (write_all cfgs w)) = legacyIssues w
  ∧ legacyParsed (snd (write_all cfgs w)) = legacyParsed w
  ∧ cwd (snd (write_all cfgs w)) = cwd w.
Proof.
  revert w. induction cfgs as [|c cfgs IH]; intros w.
  { cbn. by rewrite app_nil_r. }
  rewrite write_all_cons. cbn [snd].
  destruct (IH (snd (writeConfigFile c w))) as (-> & -> & -> & -> & ->).
  destruct (write_keeps c w) as (-> & -> & -> & -> & ->).
  by rewrite <- app_assoc.
Qed.

(** X5: the call log grows by the config of every call of
    [writeConfigFile], in call order, fulfilled or not.  When the writes of
    a run are all fulfilled the last one wins: the tree is the one after
    the last write alone, which is fulfilled as well, and a snapshot taken
    then is the same.  In particular writing a config again changes nothing
    but the log. *)
Theorem writes_last_wins (cfgs : list json) (cfg : json) (w : world) :
  let w' := snd (write_all (cfgs ++ [cfg]) w) in
  writeConfigFileCalls w' = writeConfigFileCalls w ++ cfgs ++ [cfg]
  ∧ (Forall (λ r, r = Fulfilled tt) (fst (write_all (cfgs ++ [cfg]) w)) →
     fst (writeConfigFile cfg w) = Fulfilled tt
     ∧ tree w' = tree (snd (writeConfigFile cfg w))
     ∧ fst (readConfigFileSnapshot w')
       = fst (readConfigFileSnapshot (snd (writeConfigFile cfg w)))).
Proof.
  cbn zeta. split; [apply write_all_calls|]. intros Hall.
  set (key := resolve (cwd w) (resolveConfigPath w)).
  set (dirs := prefixes (resolve (cwd w) (path_dirname (resolveConfigPath w)))).
  assert (Hfirst : fst (writeConfigFile cfg w) = Fulfilled tt).
  { destruct cfgs as [|c cfgs]; cbn [app] in Hall;
      rewrite write_all_cons in Hall; cbn [fst] in Hall;
      apply Forall_cons in Hall as [Hc _]; [exact Hc|].
    by apply (write_fulfilled_any c). }
  split; [exact Hfirst|].
  assert (Hgen : ∀ w0 : world,
    testConfigRoot w0 = testConfigRoot w → cwd w0 = cwd w →
    (∀ n, <[ key := n ]> (with_dirs dirs (tree w0))
          = <[ key := n ]> (with_dirs dirs (tree w))) →
    Forall (λ r, r = Fulfilled tt) (fst (write_all (cfgs ++ [cfg]) w0)) →
    tree (snd (write_all (cfgs ++ [cfg]) w0))
    = tree (snd (writeConfigFile cfg w))).
  { destruct (writeConfigFile_fulfilled _ _ Hfirst) as (_ & _ & _ & ->).
    cbn [tree]. fold key dirs. clear Hall Hfirst.
    induction cfgs as [|c cfgs IH]; intros w0 Hroot Hcwd Hinv Hall;
      cbn [app] in Hall |- *; rewrite write_all_cons in Hall |- *;
      cbn [fst snd] in Hall |- *; apply Forall_cons in Hall as [Hc Hall];
      destruct (writeConfigFile_fulfilled _ _ Hc) as (_ & Hkey & _ & Hw1);
      unfold resolveConfigPath in Hw1, Hkey; rewrite Hroot, Hcwd in Hw1, Hkey;
      fold (resolveConfigPath w) in Hw1, Hkey; fold key dirs in Hw1, Hkey.
    - rewrite Hw1. cbn [write_all ret snd tree]. apply Hinv.
    - assert (Hpassed : key ∉ dirs).
      { assert (Hnext : ∃ c2 rest, cfgs ++ [cfg] = c2 :: rest).
        { destruct cfgs; by eexists _, _. }
        destruct Hnext as (c2 & rest & Hnext). rewrite Hnext in Hall.
        rewrite write_all_cons in Hall. cbn [fst] in Hall.
        apply Forall_cons in Hall as [Hc2 _].
        destruct (writeConfigFile_fulfilled _ _ Hc2) as (_ & _ & Hfiles & _).
        rewrite Hw1 in Hfiles. unfold resolveConfigPath in Hfiles.
        cbn [testConfigRoot cwd tree] in Hfiles.
        fold (resolveConfigPath w) in Hfiles. fold dirs in Hfiles.
        refine (file_not_passed _ _ _ _ Hfiles).
        unfold is_file. by rewrite node_at_insert. }
      apply IH; [by rewrite Hw1|by rewrite Hw1| |exact Hall].
      intros n. rewrite Hw1. cbn [tree].
      rewrite with_dirs_insert, with_dirs_idemp, insert_insert_eq by done.
      apply Hinv. }
  rewrite (Hgen w) by done. split; [done|].
  destruct (write_all_calls (cfgs ++ [cfg]) w) as (_ & Hr & Hi & Hp & Hc).
  destruct (write_keeps cfg w) as (Hr' & Hi' & Hp' & Hc' & _).
  apply snapshot_depends; try congruence. by apply Hgen.
Qed.

(** X6: whatever the config, the text that a fulfilled [writeConfigFile]
    leaves in the config file ends in a line feed, and in one only: nothing
    or a character that is not white space stands before it. *)
Theorem written_file_ends_in_newline (cfg : json) (w : world) :
  fst (writeConfigFile cfg w) = Fulfilled tt →
  ∃ body,
    node_at (tree (snd (writeConfigFile cfg w)))
      (resolve (cwd w) (resolveConfigPath w))
    = Some (File (body ++ [10]))
    ∧ (body = [] ∨ ∃ b c, body = b ++ [c] ∧ is_js_space c = false).
Proof.
  intros Hdone.
  destruct (writeConfigFile_fulfilled _ _ Hdone) as (_ & Hkey & _ & ->).
  exists (toWellFormed (trimEnd (JSON_stringify cfg (Some 2%nat)))). split.
  - cbn [tree]. rewrite node_at_insert by done. do 2 f_equal.
    by apply toWellFormed_snoc.
  - destruct (toWellFormed_last (trimEnd (JSON_stringify cfg (Some 2%nat))))
      as [Hempty|(b & c & Hbody & Hc)]; [by left|].
    right. exists b, c. split; [exact Hbody|].
    destruct Hc as [Hc| ->]; [|reflexivity].
    destruct (trimEnd_spec (JSON_stringify cfg (Some 2%nat)))
      as [_ [Hnil|(b' & c' & Htrim & Hc')]].
    + by rewrite Hnil in Hc.
    + rewrite Htrim, last_snoc in Hc. by injection Hc as <-.
Qed.

(** When the write is fulfilled: the config path has no NUL in it, no file
    is on the way to its directory or in the place of it, and no directory
    is where the config file goes. *)
Lemma write_fulfilled_when (cfg : json) (w : world) :
  fst (writeConfigFile cfg w) = Fulfilled tt
  ↔ (0 ∉ resolveConfigPath w)
    ∧ (∀ k, k ∈ prefixes (resolve (cwd w) (path_dirname (resolveConfigPath w))) →
            is_file (tree w) k = false)
    ∧ node_at (tree w) (resolve (cwd w) (resolveConfigPath w)) ≠ Some Dir.
Proof.
  destruct (writeConfigFile_cases cfg w) as [Hiff _]. cbn zeta in Hiff.
  destruct (config_path_accepted (testConfigRoot w)) as [Hpath Hdir].
  fold (resolveConfigPath w) in Hpath, Hdir.
  rewrite Hiff, config_key, removelast_last, node_at_with_dirs_self,
    node_at_with_dirs_entry, existsb_false, Hpath.
  set (dir := resolve (cwd w) (path_dirname (resolveConfigPath w))).
  split.
  - intros (_ & _ & Hway & Hnul & _ & Hnode). by repeat split.
  - intros (Hnul & Hway & Hnode). repeat split; try done; [by apply Hdir|].
    destruct dir as [|seg dir'] eqn:Hd; [done|]. apply Hway.
    by apply elem_of_prefixes_self.
Qed.

(** A write that is not fulfilled is rejected; it leaves what is at the
    config file as it was, and the tree as it was or with the directories
    made. *)
Lemma write_rejected (cfg : json) (w : world) :
  fst (writeConfigFile cfg w) ≠ Fulfilled tt →
  (∃ e, fst (writeConfigFile cfg w) = Rejected e)
  ∧ node_at (tree (snd (writeConfigFile cfg w)))
      (resolve (cwd w) (resolveConfigPath w))
    = node_at (tree w) (resolve (cwd w) (resolveConfigPath w))
  ∧ (tree (snd (writeConfigFile cfg w)) = tree w
     ∨ tree (snd (writeConfigFile cfg w))
       = with_dirs
           (prefixes (resolve (cwd w) (path_dirname (resolveConfigPath w))))
           (tree w)).
Proof.
  intros Hnot. destruct (writeConfigFile_cases cfg w) as [_ Hrej].
  destruct (Hrej Hnot) as [He Htree]. split; [exact He|].
  split; [|exact Htree].
  destruct Htree as [-> | ->]; [done|]. rewrite config_key.
  apply node_at_with_dirs_entry.
Qed.

(** What is at the config file decides the snapshot, with the config root
    and the working directory, when no legacy issues are configured. *)
Lemma snapshot_at_key (w w' : world) :
  legacyIssues w = [] → legacyIssues w' = [] →
  testConfigRoot w' = testConfigRoot w → cwd w' = cwd w →
  node_at (tree w') (resolve (cwd w) (resolveConfigPath w))
  = node_at (tree w) (resolve (cwd w) (resolveConfigPath w)) →
  fst (readConfigFileSnapshot w') = fst (readConfigFileSnapshot w).
Proof.
  intros Hl Hl' Hroot Hcwd Hnode.
  rewrite (snapshot_cases w), (snapshot_cases w') by done.
  unfold resolveConfigPath in *. by rewrite Hroot, Hcwd, Hnode.
Qed.

(** C10, as the code has it, with no legacy issues configured and a
    JSON-serializable config object.  Whenever the promise of
    [writeConfigFile] is fulfilled, [readConfigFileSnapshot] gives a
    snapshot that exists, is valid, has no issues, and whose [parsed] and
    [config] are the object written; its [raw] is the two-space
    [JSON.stringify] text with one line feed.  Whenever it is not fulfilled
    it is rejected, and the snapshot is the one from before the write.  It
    is not fulfilled when the config path has a NUL in it, when a file is on
    the way to the directory of the config path or in its place, or when a
    directory is where the config file goes. *)
Theorem write_then_read_snapshot (w : world) (props : list (jsstring * json)) :
  serializable (JObject props) → legacyIssues w = [] →
  let written := writeConfigFile (JObject props) w in
  (fst written = Fulfilled tt →
   ∃ snap,
     fst (readConfigFileSnapshot (snd written)) = Fulfilled snap
     ∧ exists_ snap = true ∧ valid snap = true ∧ issues snap = []
     ∧ parsed snap = JObject props ∧ config snap = JObject props
     ∧ snapshot_legacyIssues snap = []
     ∧ path snap = resolveConfigPath w
     ∧ raw snap = Some (JSON_stringify (JObject props) (Some 2%nat) ++ [10]))
  ∧ (fst written ≠ Fulfilled tt →
     (∃ e, fst written = Rejected e)
     ∧ fst (readConfigFileSnapshot (snd written))
       = fst (readConfigFileSnapshot w))
  ∧ (0 ∈ resolveConfigPath w
     ∨ (∃ k, k ∈ prefixes (resolve (cwd w)
                             (path_dirname (resolveConfigPath w)))
             ∧ is_file (tree w) k = true)
     ∨ node_at (tree w) (resolve (cwd w) (resolveConfigPath w)) = Some Dir →
     fst written ≠ Fulfilled tt).
Proof.
  intros Hcfg Hlegacy. cbn zeta. split; [|split].
  - intros Hdone.
    destruct (writeConfigFile_fulfilled _ _ Hdone) as (Hpath & Hkey & _ & ->).
    rewrite (written_text props Hcfg).
    pose proof (JSON_parse_reads _ _ [10]
                  (JSON_stringify_reads (JObject props) (Some 2%nat) Hcfg)
                  ltac:(by repeat constructor)) as Hparse.
    erewrite snapshot_of_text; [| | | |exact Hparse]; [|done|done|].
    + eexists. split; [reflexivity|]. by repeat split.
    + cbn [tree cwd]. by apply node_at_insert.
  - intros Hnot. destruct (write_rejected _ _ Hnot) as (He & Hnode & _).
    split; [exact He|].
    destruct (write_keeps (JObject props) w) as (Hr & Hi & _ & Hc & _).
    apply snapshot_at_key; [done|congruence|done|done|done].
  - intros Hway (Hnul & Hfiles & Hnode)%write_fulfilled_when.
    destruct Hway as [H|[(k & Hk & Hfile)|H]]; [done| |done].
    rewrite (Hfiles k Hk) in Hfile. discriminate.
Qed.

(** X19: when [writeConfigFile] is fulfilled, on a file system where only
    the shape of the tree makes a call fail.  The config file is the entry
    [clawdbot.json] of the directory of the config path.  The write is
    fulfilled exactly when the config path has no NUL in it, no file is on
    the way to that directory or in its place, and no directory is where
    the config file goes.  A fulfilled write makes the directories on the
    way and puts the text at the config file.  A write that is not
    fulfilled is rejected; it leaves what is at the config file as it was,
    and the tree as it was or with the directories made. *)
Theorem write_fulfilled_iff (cfg : json) (w : world) :
  let dir := resolve (cwd w) (path_dirname (resolveConfigPath w)) in
  let key := resolve (cwd w) (resolveConfigPath w) in
  let w' := snd (writeConfigFile cfg w) in
  key = dir ++ [str "clawdbot.json"]
  ∧ (fst (writeConfigFile cfg w) = Fulfilled tt
     ↔ (0 ∉ resolveConfigPath w)
       ∧ (∀ k, k ∈ prefixes dir → is_file (tree w) k = false)
       ∧ node_at (tree w) key ≠ Some Dir)
  ∧ (fst (writeConfigFile cfg w) = Fulfilled tt →
     tree w'
     = <[ key := File (toWellFormed
                         (trimEnd (JSON_stringify cfg (Some 2%nat)) ++ [10])) ]>
         (with_dirs (prefixes dir) (tree w))
     ∧ node_at (tree w') dir = Some Dir)
  ∧ (fst (writeConfigFile cfg w) ≠ Fulfilled tt →
     (∃ e, fst (writeConfigFile cfg w) = Rejected e)
     ∧ node_at (tree w') key = node_at (tree w) key
     ∧ (tree w' = tree w ∨ tree w' = with_dirs (prefixes dir) (tree w))).
Proof.
  cbn zeta. split; [apply config_key|]. split; [apply write_fulfilled_when|].
  split; [|apply write_rejected].
  intros Hdone. split; [|by apply write_makes_dir].
  by destruct (writeConfigFile_fulfilled _ _ Hdone) as (_ & _ & _ & ->).
Qed.

End ConfigWrites.

Lemma write_then_read_snapshot_witness :
  let props :=
    [(str "gateway",
      JObject [(str "port",
                JNumber {| negative := false; digits := [1; 8; 7; 9];
                           exponent := 5 |})]);
     (str "name", JString (str "clawd"))] in
  let w :=
    {| Config.testConfigRoot := str "/tmp/clawdbot-gateway-test";
       Config.legacyIssues := []; Config.legacyParsed := None;
       Config.cwd := [str "home"]; Config.tree := ∅;
       Config.writeConfigFileCalls := [] |} in
  serializable (JObject props) ∧ Config.legacyIssues w = []
  ∧ fst (Config.writeConfigFile (engine := terse) (JObject props) w)
    = Fulfilled tt
  ∧ ∃ snap,
      fst (Config.readConfigFileSnapshot (engine := terse)
             (snd (Config.writeConfigFile (engine := terse) (JObject props) w)))
      = Fulfilled snap
      ∧ Config.valid snap = true ∧ Config.parsed snap = JObject props.
Proof.
  intros props w.
  assert (Hcfg : serializable (JObject props))
    by (unfold props; solve_serializable).
  assert (Hdone : fst (Config.writeConfigFile (engine := terse) (JObject props) w)
                  = Fulfilled tt) by (by vm_compute).
  split; [exact Hcfg|]. split; [reflexivity|]. split; [exact Hdone|].
  destruct (write_then_read_snapshot (engine := terse) w props Hcfg eq_refl)
    as [Hread _].
  destruct (Hread Hdone) as (snap & Hsnap & _ & Hvalid & _ & Hparsed & _).
  exists snap. by repeat split.
Defined.

(** C10 fails as stated: a config is written under the root [/tmp/r], and
    the test then makes the config file of that root its new root.  The
    directory of the new config path is the file just written, the write is
    rejected, and the snapshot says that there is no config file. *)
Lemma write_rejected_by_file_in_the_way :
  let w0 :=
    {| Config.testConfigRoot := str "/tmp/r"; Config.legacyIssues := [];
       Config.legacyParsed := None; Config.cwd := [str "home"];
       Config.tree := ∅; Config.writeConfigFileCalls := [] |} in
  let w1 := snd (Config.writeConfigFile (engine := terse) (JObject []) w0) in
  let w2 := Process.with_root (str "/tmp/r/clawdbot.json") w1 in
  let cfg := JObject [(str "name", JString (str "clawd"))] in
  serializable cfg ∧ Config.legacyIssues w2 = []
  ∧ fst (Config.writeConfigFile (engine := terse) (JObject []) w0)
    = Fulfilled tt
  ∧ (∃ e, fst (Config.writeConfigFile (engine := terse) cfg w2) = Rejected e)
  ∧ ∃ snap,
      fst (Config.readConfigFileSnapshot (engine := terse)
             (snd (Config.writeConfigFile (engine := terse) cfg w2)))
      = Fulfilled snap
      ∧ Config.exists_ snap = false.
Proof.
  intros w0 w1 w2 cfg. split; [unfold cfg; solve_serializable|].
  split; [reflexivity|]. split; [by vm_compute|]. split.
  - eexists. by vm_compute.
  - eexists. split; [by vm_compute|reflexivity].
Qed.

Lemma written_file_ends_in_newline_witness :
  let w :=
    {| Config.testConfigRoot := str "state"; Config.legacyIssues := [];
       Config.legacyParsed := None; Config.cwd := [str "home"; str "u"];
       Config.tree := ∅; Config.writeConfigFileCalls := [] |} in
  fst (Config.writeConfigFile (engine := terse) (JObject []) w) = Fulfilled tt
  ∧ ∃ body,
      Config.node_at
        (Config.tree (snd (Config.writeConfigFile (engine := terse)
                             (JObject []) w)))
        [str "home"; str "u"; str "state"; str "clawdbot.json"]
      = Some (Config.File (body ++ [10])).
Proof.
  intros w.
  assert (Hdone : fst (Config.writeConfigFile (engine := terse) (JObject []) w)
                  = Fulfilled tt) by (by vm_compute).
  split; [exact Hdone|].
  destruct (written_file_ends_in_newline (engine := terse) (JObject []) w Hdone)
    as (body & Hbody & _).
  by exists body.
Defined.

Lemma writes_last_wins_witness :
  let w :=
    {| Config.testConfigRoot := str "state"; Config.legacyIssues := [];
       Config.legacyParsed := None; Config.cwd := [str "home"; str "u"];
       Config.tree := ∅; Config.writeConfigFileCalls := [] |} in
  let cfgs := [JObject [(str "a", JNull)]; JString (str "b")] in
  let w' := snd (write_all (H := terse) (cfgs ++ [JObject []]) w) in
  Forall (λ r, r = Fulfilled tt)
    (fst (write_all (H := terse) (cfgs ++ [JObject []]) w))
  ∧ Config.writeConfigFileCalls w' = cfgs ++ [JObject []]
  ∧ Config.tree w'
    = Config.tree (snd (Config.writeConfigFile (engine := terse)
                          (JObject []) w)).
Proof.
  intros w cfgs w'.
  assert (Hall : Forall (λ r, r = Fulfilled tt)
                   (fst (write_all (H := terse) (cfgs ++ [JObject []]) w)))
    by (vm_compute; by repeat constructor).
  destruct (writes_last_wins (engine := terse) cfgs (JObject []) w)
    as [Hcalls Hlast].
  destruct (Hlast Hall) as (_ & Htree & _).
  split; [exact Hall|]. split; [exact Hcalls|exact Htree].
Defined.

Lemma write_fulfilled_iff_witness :
  let key := [str "home"; str "state"; str "clawdbot.json"] in
  let w :=
    {| Config.testConfigRoot := str "state"; Config.legacyIssues := [];
       Config.legacyParsed := None; Config.cwd := [str "home"];
       Config.tree := <[ key := Config.Dir ]> ∅;
       Config.writeConfigFileCalls := [] |} in
  (∃ e, fst (Config.writeConfigFile (engine := terse) (JObject []) w)
        = Rejected e)
  ∧ Config.node_at
      (Config.tree (snd (Config.writeConfigFile (engine := terse)
                           (JObject []) w))) key
    = Some Config.Dir.
Proof.
  intros key w.
  destruct (write_fulfilled_iff (engine := terse) (JObject []) w)
    as (Hkey & Hiff & _ & Hrej).
  assert (Hnot : fst (Config.writeConfigFile (engine := terse) (JObject []) w)
                 ≠ Fulfilled tt).
  { intros (_ & _ & Hnode)%Hiff. apply Hnode. by vm_compute. }
  destruct (Hrej Hnot) as (He & Hnode & _).
  split; [exact He|]. etransitivity; [exact Hnode|]. by vm_compute.
Defined.

(** ** Sequences of calls on the embedded run double *)

Section EmbeddedRunCalls.
Import EmbeddedRun.

Lemma perform_logs (c : call) (m : embeddedRunMock) :
  abortCalls (snd (perform c m)) = abortCalls m ++ aborted [c]
  ∧ waitCalls (snd (perform c m)) = waitCalls m ++ awaited [c].
Proof. destruct c; cbn; by rewrite ?app_nil_r. Qed.

(** X7: the two call logs are a faithful record of a whole test: after any
    history of configuration steps and calls, [abortCalls] has grown by the
    session ids of the [abortEmbeddedPiRun] calls and [waitCalls] by those
    of the [waitForEmbeddedPiRunEnd] calls, each in call order;
    [isEmbeddedPiRunActive] and the configuration steps leave no trace. *)
Theorem history_logs (hs : list harness_step) (m : embeddedRunMock) :
  abortCalls (after hs m) = abortCalls m ++ aborted (calls_of hs)
  ∧ waitCalls (after hs m) = waitCalls m ++ awaited (calls_of hs).
Proof.
  revert m. induction hs as [|h hs IH]; intros m.
  { cbn. by rewrite !app_nil_r. }
  cbn [after]. destruct (IH (harness h m)) as [-> ->].
  destruct h as [s|s|s b|c]; cbn [harness calls_of abortCalls waitCalls];
    [done..|].
  destruct (perform_logs c m) as [-> ->].
  rewrite <- !app_assoc. by destruct c.
Qed.

(** X8: calls do not influence each other's results: in a sequence of
    calls every reply is the one the call would get as the first call, so
    the replies do not depend on the order of the calls or on what was
    logged before.  In particular an abort never changes what a later
    abort, wait or activity check answers. *)
Theorem replies_independent (cs : list call) (m : embeddedRunMock) :
  fst (perform_all cs m) = map (λ c, fst (perform c m)) cs.
Proof.
  revert m. induction cs as [|c cs IH]; intros m; [reflexivity|].
  rewrite perform_all_cons. cbn [fst map]. f_equal.
  rewrite IH. apply map_ext. intros c'.
  destruct (perform_keeps c m) as [Ha Hw].
  by apply perform_reply.
Qed.

End EmbeddedRunCalls.

(** ** Sequences of calls on the bridge double *)

Section BridgeCallFacts.
Import Bridge BridgeCalls.

Lemma start_all_cons (opts : BridgeStartOpts) (optss : list BridgeStartOpts)
    (m : mocks) :
  start_all (opts :: optss) m
  = (fst (startNodeBridgeServer opts m)
       :: fst (start_all optss (snd (startNodeBridgeServer opts m))),
     snd (start_all optss (snd (startNodeBridgeServer opts m)))).
Proof.
  cbn [start_all]. unfold bind, ret.
  destruct (startNodeBridgeServer opts m) as [r m1]. cbn [fst snd].
  by destruct (start_all optss m1).
Qed.

Lemma call_all_cons (h : handle) (c : handle_call)
    (cs : list (handle * handle_call)) (m : mocks) :
  call_all ((h, c) :: cs) m
  = (fst (call_on h c m) :: fst (call_all cs (snd (call_on h c m))),
     snd (call_all cs (snd (call_on h c m)))).
Proof.
  cbn [call_all]. unfold bind, ret.
  destruct (call_on h c m) as [r m1]. cbn [fst snd].
  by destruct (call_all cs m1).
Qed.

(** X9: starting servers records the options of every start in
    [bridgeStartCalls], in the order of the starts, and touches no other
    log.  Every start resolves with a handle on port 18790 whose [invoke],
    [sendEvent] and [listConnected] are the shared spies: the handles of
    different starts cannot be told apart by their calls. *)
Theorem start_all_records (optss : list BridgeStartOpts) (m : mocks) :
  bridgeStartCalls (snd (start_all optss m)) = bridgeStartCalls m ++ optss
  ∧ invokeCalls (snd (start_all optss m)) = invokeCalls m
  ∧ sendEventCalls (snd (start_all optss m)) = sendEventCalls m
  ∧ length (fst (start_all optss m)) = length optss
  ∧ Forall (λ r, ∃ h, r = Fulfilled h ∧ port h = 18790%Z
                      ∧ invoke h = bridgeInvoke
                      ∧ sendEvent h = bridgeSendEvent
                      ∧ listConnected h = bridgeListConnected)
      (fst (start_all optss m)).
Proof.
  revert m. induction optss as [|opts optss IH]; intros m.
  { cbn. rewrite app_nil_r. by repeat split. }
  rewrite start_all_cons. cbn [fst snd].
  destruct (IH (snd (startNodeBridgeServer opts m))) as (-> & -> & -> & Hlen & Hall).
  cbn [length]. rewrite Hlen. cbn [startNodeBridgeServer]. cbn.
  rewrite <- app_assoc. repeat (split; [done|]).
  constructor; [|exact Hall]. eexists. by repeat split.
Qed.

(** X10: calls through handles that [startNodeBridgeServer] gave out, in
    any mix of handles, are answered with the stock replies ([invoke] with
    the fixed [invoke-res] object, [listConnected] with no nodes, [close]
    with a fulfilled promise) and land in the shared logs in call order:
    [invoke] calls in one log and [sendEvent] calls in the other, while
    [listConnected] and [close] change nothing. *)
Theorem calls_on_started_handles (cs : list (handle * handle_call)) (m : mocks) :
  Forall (λ hc, started (fst hc)) cs →
  fst (call_all cs m) = map (λ hc, stock_reply (snd hc)) cs
  ∧ invokeCalls (snd (call_all cs m)) = invokeCalls m ++ invoked cs
  ∧ sendEventCalls (snd (call_all cs m)) = sendEventCalls m ++ sent cs
  ∧ bridgeStartCalls (snd (call_all cs m)) = bridgeStartCalls m.
Proof.
  intros Hcs. revert m. induction Hcs as [|[h c] cs Hh _ IH]; intros m.
  { cbn. by rewrite !app_nil_r. }
  rewrite call_all_cons. cbn [fst snd map].
  destruct (IH (snd (call_on h c m))) as (-> & -> & -> & ->).
  destruct Hh as (opts & m0 & Hh). cbn in Hh. injection Hh as <-.
  destruct c; cbn; rewrite <- ?app_assoc; by repeat split.
Qed.

Lemma calls_on_started_handles_witness :
  let h :=
    {| port := 18790; close := ret (Fulfilled tt);
       listConnected := bridgeListConnected; invoke := bridgeInvoke;
       sendEvent := bridgeSendEvent |} in
  let args :=
    {| target := str "node-1"; invoke_method := str "canvas.snapshot";
       invoke_paramsJSON := None; timeoutMs := None |} in
  let evt := {| event := str "chat"; event_payloadJSON := None |} in
  let cs := [(h, SendEvent (str "node-1") evt); (h, Close); (h, Invoke args)] in
  Forall (λ hc, started (fst hc)) cs
  ∧ fst (call_all cs initial) = [Sent; Closed (Fulfilled tt);
                                 Invoked (Fulfilled invoke_res)]
  ∧ invokeCalls (snd (call_all cs initial)) = [args]
  ∧ sendEventCalls (snd (call_all cs initial)) = [(str "node-1", evt)].
Proof.
  intros h args evt cs.
  assert (Hh : started h).
  { exists {| onAuthenticated := None; onDisconnected := None;
              onPairRequested := None; onEvent := None; onRequest := None |},
           initial. reflexivity. }
  assert (Hcs : Forall (λ hc, started (fst hc)) cs) by (by repeat constructor).
  split; [exact Hcs|].
  destruct (calls_on_started_handles cs initial Hcs) as (-> & -> & -> & _).
  by repeat split.
Defined.

End BridgeCallFacts.

(** ** The pi SDK double *)

Section PiSdkFacts.
Import PiSdk.
Context {Args Result : Type} (actual : Args → Result).

Lemma discover_all_cons (args : Args) (argss : list Args) (m : piSdkMock) :
  discover_all actual (args :: argss) m
  = (fst (discoverModels actual args m)
       :: fst (discover_all actual argss (snd (discoverModels actual args m))),
     snd (discover_all actual argss (snd (discoverModels actual args m)))).
Proof.
  cbn [discover_all]. unfold bind at 1. unfold bind at 1. unfold ret at 1.
  destruct (discoverModels actual args m) as [r m1]. cbn [fst snd].
  by destruct (discover_all actual argss m1).
Qed.

(** X11: a run of [discoverModels] calls.  While the double is enabled,
    every call answers with the configured models, the real function is
    never consulted, and [discoverCalls] has grown by the number of calls.
    While it is not, every call is answered by the real function with the
    arguments of the call, and the counter stands still.  [enabled] and
    [models] are never changed by a call. *)
Theorem discover_all_spec (argss : list Args) (m : piSdkMock) :
  fst (discover_all actual argss m)
  = map (λ args, if enabled m then inr (models m) else inl (actual args)) argss
  ∧ discoverCalls (snd (discover_all actual argss m))
    = discoverCalls m + (if enabled m then N.of_nat (length argss) else 0)
  ∧ enabled (snd (discover_all actual argss m)) = enabled m
  ∧ models (snd (discover_all actual argss m)) = models m.
Proof.
  revert m. induction argss as [|args argss IH]; intros m.
  { cbn. destruct (enabled m); rewrite N.add_0_r; by repeat split. }
  rewrite discover_all_cons. cbn [fst snd map].
  destruct (IH (snd (discoverModels actual args m))) as (-> & -> & -> & ->).
  unfold discoverModels, bind, gets, modify, ret. cbn [fst snd].
  destruct (enabled m) eqn:Hm; cbn [negb fst snd enabled models discoverCalls length];
    rewrite ?Hm; repeat split; lia.
Qed.

End PiSdkFacts.

(** ** The config root *)

Section ConfigRoots.
Import Config Process.
Context {engine : Engine}.

Lemma on_config_fst {A : Type} (f : Mock world A) (p : process) :
  fst (on_config f p) = fst (f (config_state p)).
Proof. unfold on_config. by destruct (f (config_state p)). Qed.

Lemma on_config_snd {A : Type} (f : Mock world A) (p : process) :
  config_state (snd (on_config f p)) = snd (f (config_state p)).
Proof. unfold on_config. by destruct (f (config_state p)). Qed.

Lemma until_nul_plain (s : jsstring) : 0 ∉ s → until_nul s = s.
Proof.
  induction s as [|c s IH]; [done|]. intros [Hc Hs]%not_elem_of_cons.
  cbn [until_nul]. rewrite (proj2 (N.eqb_neq c 0)) by done. by rewrite IH.
Qed.

(** X12: [setTestConfigRoot] sets the config path of the mocked module:
    after it, [CONFIG_PATH_CLAWDBOT] is [clawdbot.json] under the root,
    [STATE_DIR_CLAWDBOT] is the directory of that path, and every snapshot
    carries the path.  [CLAWDBOT_CONFIG_PATH] in the environment is the
    same path when the path has no NUL and no lone surrogate in it.  A
    the config file is the entry [clawdbot.json] of the state directory,
    and a fulfilled [writeConfigFile] leaves a file at the path and a
    directory at the state directory.  The call touches nothing of the
    file system, the legacy settings or the call log; and of two calls in
    a row only the second counts. *)
Theorem setTestConfigRoot_agrees (root : jsstring) (p : process) :
  let p' := snd (setTestConfigRoot root p) in
  let configPath := path_join root (str "clawdbot.json") in
  fst (CONFIG_PATH_CLAWDBOT p') = configPath
  ∧ fst (STATE_DIR_CLAWDBOT p') = path_dirname configPath
  ∧ (∃ snap, fst (on_config readConfigFileSnapshot p') = Fulfilled snap
             ∧ path snap = configPath)
  ∧ (0 ∉ configPath → toWellFormed configPath = configPath →
     CLAWDBOT_CONFIG_PATH p' = Some configPath)
  ∧ resolve (cwd (config_state p)) configPath
    = resolve (cwd (config_state p)) (path_dirname configPath)
      ++ [str "clawdbot.json"]
  ∧ (∀ cfg,
       fst (on_config (writeConfigFile cfg) p') = Fulfilled tt →
       let t' :=
         tree (config_state (snd (on_config (writeConfigFile cfg) p'))) in
       (∃ text,
          node_at t' (resolve (cwd (config_state p)) configPath)
          = Some (File text))
       ∧ node_at t' (resolve (cwd (config_state p)) (path_dirname configPath))
         = Some Dir)
  ∧ tree (config_state p') = tree (config_state p)
  ∧ cwd (config_state p') = cwd (config_state p)
  ∧ Config.legacyIssues (config_state p') = Config.legacyIssues (config_state p)
  ∧ Config.legacyParsed (config_state p') = Config.legacyParsed (config_state p)
  ∧ writeConfigFileCalls (config_state p')
    = writeConfigFileCalls (config_state p)
  ∧ ∀ root', snd (setTestConfigRoot root' p') = snd (setTestConfigRoot root' p).
Proof.
  cbn zeta. split; [reflexivity|]. split; [reflexivity|].
  split; [|split; [|split; [|split]]].
  - rewrite on_config_fst.
    destruct (snapshot_path (config_state (snd (setTestConfigRoot root p))))
      as (snap & -> & Hpath).
    by exists snap.
  - intros Hnul Hplain. unfold setTestConfigRoot, modify.
    cbn [snd CLAWDBOT_CONFIG_PATH]. unfold env_value.
    by rewrite Hplain, until_nul_plain.
  - apply (config_key (config_state (snd (setTestConfigRoot root p)))).
  - intros cfg Hdone. rewrite on_config_fst in Hdone. rewrite on_config_snd.
    split; [|exact (write_makes_dir _ _ Hdone)].
    destruct (writeConfigFile_fulfilled _ _ Hdone) as (_ & Hkey & _ & ->).
    eexists. cbn [tree]. by apply node_at_insert.
  - by repeat split.
Qed.

(** X13: config roots are kept apart.  A config written under one root is
    not seen after a switch to a root whose config path leads to another
    place, one with nothing at it and not on the way to the first config
    file: the snapshot says the file does not exist.  After the switch back
    the config written is read again, valid. *)
Theorem roots_isolated (root1 root2 : jsstring)
    (props : list (jsstring * json)) (p : process) :
  let key1 :=
    resolve (cwd (config_state p)) (path_join root1 (str "clawdbot.json")) in
  let key2 :=
    resolve (cwd (config_state p)) (path_join root2 (str "clawdbot.json")) in
  let way1 :=
    prefixes (resolve (cwd (config_state p))
                (path_dirname (path_join root1 (str "clawdbot.json")))) in
  let written :=
    snd (on_config (writeConfigFile (JObject props))
           (snd (setTestConfigRoot root1 p))) in
  let moved := snd (setTestConfigRoot root2 written) in
  let back := snd (setTestConfigRoot root1 moved) in
  serializable (JObject props) →
  Config.legacyIssues (config_state p) = [] →
  fst (on_config (writeConfigFile (JObject props))
         (snd (setTestConfigRoot root1 p))) = Fulfilled tt →
  key2 ≠ key1 → key2 ∉ way1 →
  node_at (tree (config_state p)) key2 = None →
  (∃ snap, fst (on_config readConfigFileSnapshot moved) = Fulfilled snap
           ∧ exists_ snap = false ∧ config snap = JObject [])
  ∧ (∃ snap, fst (on_config readConfigFileSnapshot back) = Fulfilled snap
             ∧ exists_ snap = true ∧ valid snap = true
             ∧ config snap = JObject props).
Proof.
  intros key1 key2 way1 written moved back Hcfg Hlegacy Hdone Hne Hway Hnone.
  rewrite on_config_fst in Hdone.
  destruct (writeConfigFile_fulfilled _ _ Hdone) as (Hpath & Hkey & _ & Hw).
  assert (Hstate : config_state written
                   = snd (writeConfigFile (JObject props)
                            (config_state (snd (setTestConfigRoot root1 p)))))
    by apply on_config_snd.
  rewrite Hw in Hstate.
  cbn [setTestConfigRoot modify snd config_state with_root testConfigRoot
       Config.legacyIssues Config.legacyParsed cwd tree writeConfigFileCalls]
    in Hstate, Hpath, Hkey.
  unfold resolveConfigPath in Hstate, Hpath, Hkey.
  cbn [testConfigRoot cwd] in Hstate, Hpath, Hkey.
  fold key1 way1 in Hstate, Hkey.
  rewrite !on_config_fst. split.
  - subst moved. cbn [setTestConfigRoot modify snd config_state].
    rewrite Hstate. rewrite snapshot_cases by (by cbn).
    unfold resolveConfigPath. cbn [with_root testConfigRoot cwd tree fst].
    fold key2.
    assert (Hnode : node_at (<[key1:=File
                       (toWellFormed
                          (trimEnd (JSON_stringify (JObject props) (Some 2%nat))
                           ++ [10]))]> (with_dirs way1 (tree (config_state p))))
                      key2 = None).
    { rewrite node_at_insert_ne by done. destruct key2 as [|seg key2]; [done|].
      cbn [node_at] in *. rewrite lookup_with_dirs.
      by rewrite bool_decide_eq_false_2. }
    fold key1 way1. rewrite Hnode.
    destruct (path_failure (path_join root2 (str "clawdbot.json")));
      (eexists; split; [reflexivity|by split]).
  - subst back moved. cbn [setTestConfigRoot modify snd config_state].
    rewrite Hstate.
    pose proof (JSON_parse_reads _ _ [10]
                  (JSON_stringify_reads (JObject props) (Some 2%nat) Hcfg)
                  ltac:(by repeat constructor)) as Hparse.
    erewrite snapshot_of_text; [| | | |exact Hparse].
    + eexists. split; [reflexivity|]. by repeat split.
    + by cbn.
    + exact Hpath.
    + unfold resolveConfigPath. cbn [with_root testConfigRoot cwd tree].
      fold key1. rewrite node_at_insert by done.
      by rewrite (written_text props Hcfg).
Qed.

End ConfigRoots.

Lemma setTestConfigRoot_agrees_witness :
  let p :=
    {| Process.CLAWDBOT_CONFIG_PATH := None;
       Process.config_state :=
         {| Config.testConfigRoot := str "/tmp/clawdbot-gateway-test";
            Config.legacyIssues := []; Config.legacyParsed := Some (JObject []);
            Config.cwd := [str "home"]; Config.tree := ∅;
            Config.writeConfigFileCalls := [] |} |} in
  let p' := snd (Process.setTestConfigRoot (str "/tmp/a//b/../c/") p) in
  let written :=
    snd (Process.on_config (Config.writeConfigFile (engine := terse)
                              (JObject [])) p') in
  fst (Process.CONFIG_PATH_CLAWDBOT p') = str "/tmp/a/c/clawdbot.json"
  ∧ fst (Process.STATE_DIR_CLAWDBOT p') = str "/tmp/a/c"
  ∧ Process.CLAWDBOT_CONFIG_PATH p' = Some (str "/tmp/a/c/clawdbot.json")
  ∧ Config.node_at (Config.tree (Process.config_state written))
      [str "tmp"; str "a"; str "c"]
    = Some Config.Dir.
Proof.
  intros p p' written.
  destruct (setTestConfigRoot_agrees (engine := terse)
              (str "/tmp/a//b/../c/") p)
    as (Hpath & Hdir & _ & Henv & _ & Hwrite & _).
  split; [etransitivity; [exact Hpath|by vm_compute]|].
  split; [etransitivity; [exact Hdir|by vm_compute]|].
  split.
  - etransitivity; [apply Henv|by vm_compute].
    + apply (bool_decide_unpack _). by vm_compute.
    + by vm_compute.
  - assert (Hdone : fst (Process.on_config
                           (Config.writeConfigFile (engine := terse)
                              (JObject [])) p') = Fulfilled tt)
      by (by vm_compute).
    destruct (Hwrite (JObject []) Hdone) as [_ Hmade].
    etransitivity; [|exact Hmade]. by vm_compute.
Defined.

Lemma roots_isolated_witness :
  let props := [(str "name", JString (str "clawd"))] in
  let p :=
    {| Process.CLAWDBOT_CONFIG_PATH := None;
       Process.config_state :=
         {| Config.testConfigRoot := str "/tmp/clawdbot-gateway-test";
            Config.legacyIssues := []; Config.legacyParsed := Some (JObject []);
            Config.cwd := [str "home"]; Config.tree := ∅;
            Config.writeConfigFileCalls := [] |} |} in
  let written :=
    snd (Process.on_config (Config.writeConfigFile (engine := terse)
                              (JObject props))
           (snd (Process.setTestConfigRoot (str "/tmp/a") p))) in
  let moved := snd (Process.setTestConfigRoot (str "/tmp/b") written) in
  let back := snd (Process.setTestConfigRoot (str "/tmp/a") moved) in
  serializable (JObject props)
  ∧ (∃ snap,
       fst (Process.on_config (Config.readConfigFileSnapshot (engine := terse))
              moved) = Fulfilled snap
       ∧ Config.exists_ snap = false)
  ∧ (∃ snap,
       fst (Process.on_config (Config.readConfigFileSnapshot (engine := terse))
              back) = Fulfilled snap
       ∧ Config.config snap = JObject props).
Proof.
  intros props p.
  assert (Hcfg : serializable (JObject props))
    by (unfold props; solve_serializable).
  destruct (roots_isolated (engine := terse) (str "/tmp/a") (str "/tmp/b")
              props p Hcfg eq_refl)
    as [(snap1 & H1 & Hexists & _) (snap2 & H2 & _ & _ & Hconfig)].
  - by vm_compute.
  - by vm_compute.
  - apply (bool_decide_unpack _). by vm_compute.
  - by vm_compute.
  - split; [exact Hcfg|]. split; [by exists snap1|by exists snap2].
Defined.

(** ** The config that [loadConfig] builds *)

Section ObjectFacts.
Import LoadConfig.
Context {A : Type}.
Implicit Types (o target src : list (jsstring * A)) (key k : jsstring) (v : A).

Lemma lookup_replace_property key k v o :
  lookup_key k (replace_property key v o)
  = if decide (k = key) then option_map (λ _, v) (lookup_key k o)
    else lookup_key k o.
Proof.
  induction o as [|[k' w] o IH]; cbn [replace_property lookup_key].
  - by destruct (decide (k = key)).
  - destruct (decide (k' = key)) as [->|Hk']; cbn [lookup_key].
    + destruct (decide (key = k)) as [<-|Hk].
      * by rewrite decide_True.
      * by rewrite decide_False.
    + destruct (decide (k' = k)) as [->|Hk]; [|exact IH].
      by rewrite decide_False.
Qed.

Lemma lookup_insert_property key k v o :
  key ∉ map fst o →
  lookup_key k (insert_property key v o)
  = if decide (k = key) then Some v else lookup_key k o.
Proof.
  induction o as [|[k' w] o IH]; cbn [insert_property lookup_key map fst].
  - intros _. destruct (decide (k = key)) as [->|Hk].
    + by rewrite decide_True.
    + by rewrite decide_False.
  - intros [Hk' Ho]%not_elem_of_cons.
    destruct (comes_before key k'); cbn [lookup_key].
    + destruct (decide (k = key)) as [->|Hk].
      * by rewrite decide_True.
      * by rewrite (decide_False (P := key = k)).
    + rewrite IH by done. destruct (decide (k' = k)) as [->|Hk]; [|done].
      by rewrite decide_False.
Qed.

Lemma elem_of_keys_lookup k o : k ∈ map fst o → is_Some (lookup_key k o).
Proof.
  induction o as [|[k' w] o IH]; cbn [map fst lookup_key].
  - by intros ?%elem_of_nil.
  - intros [->|Hk]%elem_of_cons; [by rewrite decide_True|].
    destruct (decide (k' = k)); [done|by apply IH].
Qed.

Lemma lookup_set_property_eq key v o :
  lookup_key key (set_property key v o) = Some v.
Proof.
  unfold set_property. destruct (bool_decide (key ∈ map fst o)) eqn:Hin.
  - apply bool_decide_eq_true in Hin. rewrite lookup_replace_property.
    rewrite decide_True by done.
    by destruct (elem_of_keys_lookup _ _ Hin) as [x ->].
  - apply bool_decide_eq_false in Hin. rewrite lookup_insert_property by done.
    by rewrite decide_True.
Qed.

Lemma lookup_set_property_ne key k v o :
  k ≠ key → lookup_key k (set_property key v o) = lookup_key k o.
Proof.
  intros Hne. unfold set_property.
  destruct (bool_decide (key ∈ map fst o)) eqn:Hin.
  - rewrite lookup_replace_property. by rewrite decide_False.
  - apply bool_decide_eq_false in Hin. rewrite lookup_insert_property by done.
    by rewrite decide_False.
Qed.

Lemma lookup_key_None k o : k ∉ map fst o → lookup_key k o = None.
Proof.
  induction o as [|[k' w] o IH]; [done|]. cbn [map fst lookup_key].
  intros [Hk Ho]%not_elem_of_cons. by rewrite decide_False, IH.
Qed.

(** A spread overrides property by property. *)
Lemma lookup_spread target src k :
  NoDup (map fst src) →
  lookup_key k (spread target src)
  = match lookup_key k src with
    | Some v => Some v
    | None => lookup_key k target
    end.
Proof.
  unfold spread. revert target.
  induction src as [|[k' v] src IH]; intros target Hsrc; [done|].
  cbn [map fst] in Hsrc. apply NoDup_cons in Hsrc as [Hk' Hsrc].
  cbn [fold_left fst snd lookup_key]. rewrite IH by done.
  destruct (decide (k' = k)) as [->|Hne].
  - by rewrite lookup_key_None, lookup_set_property_eq.
  - by rewrite lookup_set_property_ne.
Qed.

End ObjectFacts.

Section LoadConfigFacts.
Import LoadConfig.

(** X14: the optional sections.  [gateway], [canvasHost] and [cron] are
    [undefined] exactly when nothing of theirs is set in the test state;
    when present they hold what is set and nothing else.  [bindings] and
    [hooks] are handed through as they are. *)
Theorem optional_sections (tmpdir : jsstring) (st : testState) :
  (gateway (base tmpdir st) = None
   ↔ gatewayBind st = None ∧ gatewayAuth st = None)
  ∧ (canvasHost (base tmpdir st) = None ↔ canvasHostPort st = None)
  ∧ (cron (base tmpdir st) = None
     ↔ cronEnabled st = None ∧ cronStorePath st = None)
  ∧ (∀ g, gateway (base tmpdir st) = Some g →
       lookup_key (str "bind") g
       = option_map (λ b, JString (bind_name b)) (gatewayBind st)
       ∧ lookup_key (str "auth") g = option_map JObject (gatewayAuth st)
       ∧ ∀ k, k ≠ str "bind" → k ≠ str "auth" → lookup_key k g = None)
  ∧ (∀ c, canvasHost (base tmpdir st) = Some c →
       lookup_key (str "port") c = option_map JNumber (canvasHostPort st)
       ∧ ∀ k, k ≠ str "port" → lookup_key k c = None)
  ∧ (∀ c, cron (base tmpdir st) = Some c →
       lookup_key (str "enabled") c = option_map JBool (cronEnabled st)
       ∧ lookup_key (str "store") c = option_map JString (cronStorePath st)
       ∧ ∀ k, k ≠ str "enabled" → k ≠ str "store" → lookup_key k c = None)
  ∧ bindings (base tmpdir st) = bindingsConfig st
  ∧ hooks (base tmpdir st) = hooksConfig st.
Proof.
  assert (Hone : ∀ key (v : json), set_property key v [] = [(key, v)])
    by done.
  assert (Hauth : ∀ v a : json,
            set_property (str "auth") a [(str "bind", v)]
            = [(str "bind", v); (str "auth", a)]) by (intros; by vm_compute).
  assert (Hstore : ∀ v s : json,
            set_property (str "store") s [(str "enabled", v)]
            = [(str "enabled", v); (str "store", s)]) by (intros; by vm_compute).
  cbn [base gateway canvasHost cron bindings hooks].
  unfold base_gateway, base_canvasHost, base_cron.
  split; [|split; [|split; [|split; [|split; [|split; [|done]]]]]].
  - destruct (gatewayBind st), (gatewayAuth st);
      rewrite ?Hone, ?Hauth; cbn; split; try done; by intros [? ?].
  - destruct (canvasHostPort st); by rewrite ?Hone.
  - destruct (cronEnabled st), (cronStorePath st);
      rewrite ?Hone, ?Hstore; cbn; split; try done; by intros [? ?].
  - intros g.
    destruct (gatewayBind st), (gatewayAuth st); rewrite ?Hone, ?Hauth;
      cbn [unless_empty]; intros [= <-]; cbn [lookup_key option_map];
      rewrite ?decide_True by done; rewrite ?decide_False by done;
      rewrite ?decide_True by done;
      (split; [done|]; split; [done|]); intros k Hk1 Hk2;
      by rewrite ?decide_False by done.
  - intros c.
    destruct (canvasHostPort st); rewrite ?Hone; cbn [unless_empty];
      intros [= <-]; cbn [lookup_key option_map];
      rewrite ?decide_True by done;
      (split; [done|]); intros k Hk; by rewrite ?decide_False by done.
  - intros c.
    destruct (cronEnabled st), (cronStorePath st); rewrite ?Hone, ?Hstore;
      cbn [unless_empty]; intros [= <-]; cbn [lookup_key option_map];
      rewrite ?decide_True by done; rewrite ?decide_False by done;
      rewrite ?decide_True by done;
      (split; [done|]); (split; [done|]); intros k Hk1 Hk2;
      by rewrite ?decide_False by done.
Qed.

Lemma lookup_copy {A : Type} (o : list (jsstring * A)) (k : jsstring) :
  NoDup (map fst o) → lookup_key k (spread [] o) = lookup_key k o.
Proof. intros Ho. rewrite lookup_spread by done. by destruct (lookup_key k o). Qed.

(** X15: [channels.whatsapp] of the loaded config is always an object.  It
    has the properties of the configured [whatsapp] channel when that is an
    object (none when it is missing or something else), except that
    [allowFrom] of the test state, when set, replaces the channel's own.
    Every other channel is as configured. *)
Theorem channels_whatsapp (tmpdir : jsstring) (st : testState) :
  let given := default [] (channelsConfig st) in
  let existing :=
    match lookup_key (str "whatsapp") given with
    | Some (JObject e) => e
    | _ => []
    end in
  NoDup (map fst given) → NoDup (map fst existing) →
  ∃ merged,
    lookup_key (str "whatsapp") (channels (base tmpdir st))
    = Some (JObject merged)
    ∧ lookup_key (str "allowFrom") merged
      = match allowFrom st with
        | Some l => Some (JArray (map JString l))
        | None => lookup_key (str "allowFrom") existing
        end
    ∧ (∀ k, k ≠ str "allowFrom" → lookup_key k merged = lookup_key k existing)
    ∧ (∀ k, k ≠ str "whatsapp" →
         lookup_key k (channels (base tmpdir st)) = lookup_key k given).
Proof.
  intros given existing Hgiven Hexisting.
  cbn [base channels]. unfold base_channels.
  set (baseChannels := match channelsConfig st with
                       | Some c => spread [] c
                       | None => []
                       end).
  assert (Hbase : ∀ k, lookup_key k baseChannels = lookup_key k given).
  { intros k. subst baseChannels given.
    destruct (channelsConfig st) as [c|]; [|done]. by apply lookup_copy. }
  rewrite Hbase.
  set (copy := match lookup_key (str "whatsapp") given with
               | Some (JObject e) => spread [] e
               | _ => []
               end).
  assert (Hcopy : ∀ k, lookup_key k copy = lookup_key k existing).
  { intros k. subst copy existing.
    destruct (lookup_key (str "whatsapp") given) as [[ | | | | |e| ]|]; try done.
    by apply lookup_copy. }
  eexists. split; [apply lookup_set_property_eq|]. split; [|split].
  - destruct (allowFrom st); [apply lookup_set_property_eq|apply Hcopy].
  - intros k Hk. destruct (allowFrom st); [|apply Hcopy].
    rewrite lookup_set_property_ne by done. apply Hcopy.
  - intros k Hk. rewrite lookup_set_property_ne by done. apply Hbase.
Qed.

Lemma channels_whatsapp_witness :
  let st :=
    {| agentConfig := None; agentsConfig := None; bindingsConfig := None;
       channelsConfig :=
         Some [(str "whatsapp",
                JObject [(str "allowFrom", JArray [JString (str "+1")]);
                         (str "groups", JObject [])]);
               (str "telegram", JObject [])];
       sessionStorePath := None; sessionConfig := None;
       allowFrom := Some [str "+2"]; cronStorePath := None;
       cronEnabled := Some false; gatewayBind := None; gatewayAuth := None;
       hooksConfig := None; canvasHostPort := None; legacyIssues := [];
       legacyParsed := Some (JObject []); migrationConfig := None;
       migrationChanges := [] |} in
  ∃ merged,
    lookup_key (str "whatsapp") (channels (base (str "/tmp") st))
    = Some (JObject merged)
    ∧ lookup_key (str "allowFrom") merged = Some (JArray [JString (str "+2")])
    ∧ lookup_key (str "groups") merged = Some (JObject []).
Proof.
  intros st.
  assert (Hnodup : ∀ l : list jsstring,
            bool_decide (NoDup l) = true → NoDup l).
  { intros l. apply bool_decide_eq_true. }
  destruct (channels_whatsapp (str "/tmp") st) as (merged & Hm & Hallow & Hother & _).
  - apply Hnodup. by vm_compute.
  - apply Hnodup. by vm_compute.
  - exists merged. split; [exact Hm|]. split; [exact Hallow|].
    by rewrite Hother.
Defined.

(** X16: [agents.defaults] of the loaded config is the agent config of the
    test state over the built-in model and workspace: a property of the
    agent config wins, the built-in value is used for what it leaves out.
    It replaces any [defaults] of the configured agents; every other
    property of the configured agents is kept. *)
Theorem agents_defaults (tmpdir : jsstring) (st : testState) :
  let builtin :=
    [(str "model", JString (str "anthropic/claude-opus-4-5"));
     (str "workspace",
      JString (Config.path_join tmpdir (str "clawd-gateway-test")))] in
  NoDup (map fst (default [] (agentConfig st))) →
  NoDup (map fst (default [] (agentsConfig st))) →
  ∃ defaults,
    lookup_key (str "defaults") (agents (base tmpdir st))
    = Some (JObject defaults)
    ∧ (∀ k, lookup_key k defaults
            = match lookup_key k (default [] (agentConfig st)) with
              | Some v => Some v
              | None => lookup_key k builtin
              end)
    ∧ (∀ k, k ≠ str "defaults" →
         lookup_key k (agents (base tmpdir st))
         = lookup_key k (default [] (agentsConfig st))).
Proof.
  intros builtin Hagent Hagents. cbn [base agents]. unfold base_agents.
  exists (agent_defaults tmpdir st). split; [|split].
  - destruct (agentsConfig st); [apply lookup_set_property_eq|].
    cbn [lookup_key]. by rewrite decide_True.
  - intros k. unfold agent_defaults. by rewrite lookup_spread.
  - intros k Hk. destruct (agentsConfig st) as [a|]; cbn [default] in *.
    + rewrite lookup_set_property_ne by done. by apply lookup_copy.
    + cbn [lookup_key]. by rewrite decide_False.
Qed.

Lemma agents_defaults_witness :
  let st :=
    {| agentConfig := Some [(str "model", JString (str "openai/gpt-5"))];
       agentsConfig := Some [(str "defaults", JNull); (str "list", JArray [])];
       bindingsConfig := None; channelsConfig := None;
       sessionStorePath := None; sessionConfig := None; allowFrom := None;
       cronStorePath := None; cronEnabled := Some false; gatewayBind := None;
       gatewayAuth := None; hooksConfig := None; canvasHostPort := None;
       legacyIssues := []; legacyParsed := Some (JObject []);
       migrationConfig := None; migrationChanges := [] |} in
  ∃ defaults,
    lookup_key (str "defaults") (agents (base (str "/tmp") st))
    = Some (JObject defaults)
    ∧ lookup_key (str "model") defaults = Some (JString (str "openai/gpt-5"))
    ∧ lookup_key (str "workspace") defaults
      = Some (JString (str "/tmp/clawd-gateway-test"))
    ∧ lookup_key (str "list") (agents (base (str "/tmp") st))
      = Some (JArray []).
Proof.
  intros st.
  assert (Hnodup : ∀ l : list jsstring,
            bool_decide (NoDup l) = true → NoDup l).
  { intros l. apply bool_decide_eq_true. }
  destruct (agents_defaults (str "/tmp") st) as (defaults & Hd & Hprops & Hother).
  - apply Hnodup. by vm_compute.
  - apply Hnodup. by vm_compute.
  - exists defaults. split; [exact Hd|].
    rewrite !Hprops, Hother by done. by repeat split.
Defined.

(** X17: [session] of the loaded config is the session config of the test
    state over two defaults: [mainKey] is [main] and [store] is the session
    store path of the test state ([undefined] when none is set), unless the
    session config has a property of that name, which then wins. *)
Theorem session_overrides (tmpdir : jsstring) (st : testState) :
  NoDup (map fst (default [] (sessionConfig st))) →
  ∀ k,
    lookup_key k (session (base tmpdir st))
    = match lookup_key k (default [] (sessionConfig st)) with
      | Some v => Some (Some v)
      | None =>
          if decide (k = str "mainKey") then Some (Some (JString (str "main")))
          else if decide (k = str "store")
               then Some (option_map JString (sessionStorePath st))
               else None
      end.
Proof.
  intros Hsession k. cbn [base session]. unfold base_session.
  rewrite lookup_spread by (by rewrite map_map).
  assert (Hmap : ∀ o : list (jsstring * json),
            lookup_key k (map (λ p, (fst p, Some (snd p))) o)
            = option_map Some (lookup_key k o)).
  { induction o as [|[k' v] o IH]; [done|]. cbn [map fst snd lookup_key].
    by destruct (decide (k' = k)). }
  rewrite Hmap. destruct (lookup_key k (default [] (sessionConfig st))); [done|].
  cbn [option_map lookup_key].
  destruct (decide (k = str "mainKey")) as [->|H1]; [by rewrite decide_True|].
  rewrite decide_False by done.
  destruct (decide (k = str "store")) as [->|H2]; [by rewrite decide_True|].
  by rewrite decide_False.
Qed.

Lemma session_overrides_witness :
  let st :=
    {| agentConfig := None; agentsConfig := None; bindingsConfig := None;
       channelsConfig := None; sessionStorePath := Some (str "/tmp/s.json");
       sessionConfig := Some [(str "mainKey", JString (str "primary"))];
       allowFrom := None; cronStorePath := None; cronEnabled := Some false;
       gatewayBind := None; gatewayAuth := None; hooksConfig := None;
       canvasHostPort := None; legacyIssues := [];
       legacyParsed := Some (JObject []); migrationConfig := None;
       migrationChanges := [] |} in
  lookup_key (str "mainKey") (session (base (str "/tmp") st))
  = Some (Some (JString (str "primary")))
  ∧ lookup_key (str "store") (session (base (str "/tmp") st))
    = Some (Some (JString (str "/tmp/s.json"))).
Proof.
  intros st.
  assert (Hnodup : NoDup (map fst (default [] (sessionConfig st)))).
  { apply (proj1 (bool_decide_eq_true _)). by vm_compute. }
  by rewrite !(session_overrides (str "/tmp") st Hnodup).
Defined.

End LoadConfigFacts.
